(** * linkedGeo.c: the linked polygon / loop / coordinate structure of H3

    A shallow embedding of [src/h3lib/lib/linkedGeo.c].  The C code works on
    three kinds of heap objects connected by pointers; the embedding keeps a
    typed heap (one finite map per struct type), pointers that may be NULL,
    and a small outcome monad that separates normal completion from a failed
    [assert], from undefined behaviour (access through NULL or through a
    pointer to an object that is not allocated, signed overflow) and from an
    exhausted iteration budget. *)

From Stdlib Require Import ZArith List Lia PrimFloat.
From stdpp Require Import functions.
From stdpp Require Import base option list gmap fin_maps.

Local Open Scope Z_scope.

(** ** Data model *)

(** An address of a heap object.  A C pointer is [option loc]: [None] is
    NULL. *)
Abbreviation loc := positive.
Abbreviation ptr := (option loc).

(** [GeoCoord] is declared in h3api.h: latitude and longitude as two
    doubles. *)
Record GeoCoord := mkGeoCoord { lat : float; lon : float }.

(** The three structs of linkedGeo.h.  Field names carry the struct's
    initials because the three C structs reuse [first], [last], [next]. *)
Record LinkedGeoCoord := mkCoord {
  lgc_vertex : GeoCoord;
  lgc_next : ptr
}.

Record LinkedGeoLoop := mkLoop {
  lgl_first : ptr;
  lgl_last : ptr;
  lgl_next : ptr
}.

Record LinkedGeoPolygon := mkPolygon {
  lgp_first : ptr;
  lgp_last : ptr;
  lgp_next : ptr
}.

(** The heap: the allocated objects of each type.  An address that is not in
    the map of its type is not allocated (never allocated, or freed). *)
Record heap := mkHeap {
  coords : gmap loc LinkedGeoCoord;
  loops : gmap loc LinkedGeoLoop;
  polygons : gmap loc LinkedGeoPolygon
}.

Definition set_coords (f : gmap loc LinkedGeoCoord -> gmap loc LinkedGeoCoord)
    (h : heap) : heap :=
  mkHeap (f (coords h)) (loops h) (polygons h).
Definition set_loops (f : gmap loc LinkedGeoLoop -> gmap loc LinkedGeoLoop)
    (h : heap) : heap :=
  mkHeap (coords h) (f (loops h)) (polygons h).
Definition set_polygons
    (f : gmap loc LinkedGeoPolygon -> gmap loc LinkedGeoPolygon)
    (h : heap) : heap :=
  mkHeap (coords h) (loops h) (f (polygons h)).

(** ** The outcome monad *)

Inductive outcome (A : Type) : Type :=
| Ok (a : A) (h : heap)      (* normal completion *)
| AssertFail                 (* an assert() did not hold: abort *)
| Undef                      (* undefined behaviour *)
| OutOfFuel.                 (* the iteration budget of the model ran out *)
Arguments Ok {A} a h.
Arguments AssertFail {A}.
Arguments Undef {A}.
Arguments OutOfFuel {A}.

Definition M (A : Type) : Type := heap -> outcome A.

Definition ret {A} (a : A) : M A := fun h => Ok a h.

Definition bind {A B} (m : M A) (k : A -> M B) : M B :=
  fun h =>
    match m h with
    | Ok a h' => k a h'
    | AssertFail => AssertFail
    | Undef => Undef
    | OutOfFuel => OutOfFuel
    end.

Notation "'let*' x ':=' m 'in' k" := (bind m (fun x => k))
  (at level 10, x name, m at level 100, k at level 200).
Notation "'run' m 'then' k" := (bind m (fun _ => k))
  (at level 10, m at level 100, k at level 200).

Definition undef {A} : M A := fun _ => Undef.
Definition out_of_fuel {A} : M A := fun _ => OutOfFuel.

(** [assert(b)] of <assert.h>, assertions enabled. *)
Definition assert (b : bool) : M unit :=
  fun h => if b then Ok tt h else AssertFail.

Definition is_null (p : ptr) : bool :=
  match p with None => true | Some _ => false end.

(** *** Memory operations *)

(** Reading [*p], for each pointer type: undefined through NULL and through
    a pointer to an object that is not allocated. *)
Definition load_coord (p : ptr) : M LinkedGeoCoord :=
  fun h =>
    match p with
    | None => Undef
    | Some a => match coords h !! a with Some c => Ok c h | None => Undef end
    end.

Definition load_loop (p : ptr) : M LinkedGeoLoop :=
  fun h =>
    match p with
    | None => Undef
    | Some a => match loops h !! a with Some l => Ok l h | None => Undef end
    end.

Definition load_polygon (p : ptr) : M LinkedGeoPolygon :=
  fun h =>
    match p with
    | None => Undef
    | Some a => match polygons h !! a with Some g => Ok g h | None => Undef end
    end.

(** Writing to [*p]: the object is replaced by [upd] of its old value, so
    that an assignment to one field leaves the others as they are.  Only an
    allocated object can be written. *)
Definition update_coord (p : ptr) (upd : LinkedGeoCoord -> LinkedGeoCoord)
    : M unit :=
  fun h =>
    match p with
    | None => Undef
    | Some a =>
        match coords h !! a with
        | Some c => Ok tt (set_coords (insert a (upd c)) h)
        | None => Undef
        end
    end.

Definition update_loop (p : ptr) (upd : LinkedGeoLoop -> LinkedGeoLoop)
    : M unit :=
  fun h =>
    match p with
    | None => Undef
    | Some a =>
        match loops h !! a with
        | Some l => Ok tt (set_loops (insert a (upd l)) h)
        | None => Undef
        end
    end.

Definition update_polygon (p : ptr)
    (upd : LinkedGeoPolygon -> LinkedGeoPolygon) : M unit :=
  fun h =>
    match p with
    | None => Undef
    | Some a =>
        match polygons h !! a with
        | Some g => Ok tt (set_polygons (insert a (upd g)) h)
        | None => Undef
        end
    end.

(** The assignments to a single field that the source performs. *)
Definition with_lgc_next (v : ptr) (c : LinkedGeoCoord) : LinkedGeoCoord :=
  mkCoord (lgc_vertex c) v.
Definition with_lgl_first (v : ptr) (l : LinkedGeoLoop) : LinkedGeoLoop :=
  mkLoop v (lgl_last l) (lgl_next l).
Definition with_lgl_last (v : ptr) (l : LinkedGeoLoop) : LinkedGeoLoop :=
  mkLoop (lgl_first l) v (lgl_next l).
Definition with_lgl_next (v : ptr) (l : LinkedGeoLoop) : LinkedGeoLoop :=
  mkLoop (lgl_first l) (lgl_last l) v.
Definition with_lgp_first (v : ptr) (g : LinkedGeoPolygon)
    : LinkedGeoPolygon :=
  mkPolygon v (lgp_last g) (lgp_next g).
Definition with_lgp_last (v : ptr) (g : LinkedGeoPolygon)
    : LinkedGeoPolygon :=
  mkPolygon (lgp_first g) v (lgp_next g).
Definition with_lgp_next (v : ptr) (g : LinkedGeoPolygon)
    : LinkedGeoPolygon :=
  mkPolygon (lgp_first g) (lgp_last g) v.

(** Allocation.  The allocator returns an address that is not allocated at
    the time of the call (an address freed earlier may be handed out again).
    Memory is not bounded in the model, so the pointer returned is never
    NULL.  What [malloc] leaves in the object is indeterminate; the only
    caller overwrites the whole object before reading it, and the model
    stores a placeholder. *)
Definition malloc_placeholder : LinkedGeoCoord :=
  mkCoord (mkGeoCoord 0%float 0%float) None.

Definition malloc_coord : M ptr :=
  fun h =>
    let a := fresh (dom (coords h)) in
    Ok (Some a) (set_coords (insert a malloc_placeholder) h).

(** [calloc(1, sizeof(T))]: all fields zero, that is NULL. *)
Definition calloc_loop : M ptr :=
  fun h =>
    let a := fresh (dom (loops h)) in
    Ok (Some a) (set_loops (insert a (mkLoop None None None)) h).

Definition calloc_polygon : M ptr :=
  fun h =>
    let a := fresh (dom (polygons h)) in
    Ok (Some a) (set_polygons (insert a (mkPolygon None None None)) h).

(** [free(p)]: a no-op on NULL (every call of the source is guarded by a
    non-NULL test); otherwise the object must be allocated, and freeing an
    object that is not (a double free) is undefined. *)
Definition free_coord (p : ptr) : M unit :=
  fun h =>
    match p with
    | None => Ok tt h
    | Some a =>
        match coords h !! a with
        | Some _ => Ok tt (set_coords (delete a) h)
        | None => Undef
        end
    end.

Definition free_loop (p : ptr) : M unit :=
  fun h =>
    match p with
    | None => Ok tt h
    | Some a =>
        match loops h !! a with
        | Some _ => Ok tt (set_loops (delete a) h)
        | None => Undef
        end
    end.

Definition free_polygon (p : ptr) : M unit :=
  fun h =>
    match p with
    | None => Ok tt h
    | Some a =>
        match polygons h !! a with
        | Some _ => Ok tt (set_polygons (delete a) h)
        | None => Undef
        end
    end.

(** The C [int] of the counters: 32 bits, two's complement.  Incrementing
    [INT_MAX] is a signed overflow, which is undefined. *)
Definition INT_MAX : Z := 2147483647.

Definition int_incr (count : Z) : M Z :=
  if count <? INT_MAX then ret (count + 1) else undef.

(** ** The operations of linkedGeo.c *)

(** [addNewLinkedPolygon]: add a linked polygon to the current polygon. *)
Definition addNewLinkedPolygon (polygon : ptr) : M ptr :=
  let* g := load_polygon polygon in
  run assert (is_null (lgp_next g)) then
  let* next := calloc_polygon in
  run assert (negb (is_null next)) then
  run update_polygon polygon (with_lgp_next next) then
  ret next.

(** [addLinkedLoop]: add an existing linked loop to the current polygon. *)
Definition addLinkedLoop (polygon loop : ptr) : M ptr :=
  let* g := load_polygon polygon in
  let last := lgp_last g in
  run (if is_null last then
         run assert (is_null (lgp_first g)) then
         update_polygon polygon (with_lgp_first loop)
       else
         update_loop last (with_lgl_next loop)) then
  run update_polygon polygon (with_lgp_last loop) then
  ret loop.

(** [addNewLinkedLoop]: add a new linked loop to the current polygon. *)
Definition addNewLinkedLoop (polygon : ptr) : M ptr :=
  let* loop := calloc_loop in
  run assert (negb (is_null loop)) then
  addLinkedLoop polygon loop.

(** [addLinkedCoord]: add a new linked coordinate to the current loop.  The
    parameter [vertex] stands for the [GeoCoord] that the C parameter points
    to; the function only copies it. *)
Definition addLinkedCoord (loop : ptr) (vertex : GeoCoord) : M ptr :=
  let* coord := malloc_coord in
  run assert (negb (is_null coord)) then
  run update_coord coord (fun _ => mkCoord vertex None) then
  let* l := load_loop loop in
  let last := lgl_last l in
  run (if is_null last then
         run assert (is_null (lgl_first l)) then
         update_loop loop (with_lgl_first coord)
       else
         update_coord last (with_lgc_next coord)) then
  run update_loop loop (with_lgl_last coord) then
  ret coord.

(** [destroyLinkedGeoLoop]: free the coordinates of a loop, not the loop
    struct itself.  [fuel] bounds the number of iterations of the [for]. *)
Fixpoint destroyLinkedGeoLoop_for (fuel : nat) (currentCoord : ptr) : M unit :=
  match currentCoord with
  | None => ret tt
  | Some _ =>
      match fuel with
      | O => out_of_fuel
      | S fuel' =>
          let* c := load_coord currentCoord in
          let nextCoord := lgc_next c in
          run free_coord currentCoord then
          destroyLinkedGeoLoop_for fuel' nextCoord
      end
  end.

Definition destroyLinkedGeoLoop (fuel : nat) (loop : ptr) : M unit :=
  let* l := load_loop loop in
  destroyLinkedGeoLoop_for fuel (lgl_first l).

(** [destroyLinkedPolygon]: the inner [for] over the loops of one polygon,
    and the outer [for] over the polygons with the [skip] flag.  [fuel]
    bounds every loop of the function, [n] is the budget left for the loop
    at hand. *)
Fixpoint destroyLinkedPolygon_loops (fuel n : nat) (currentLoop : ptr)
    : M unit :=
  match currentLoop with
  | None => ret tt
  | Some _ =>
      match n with
      | O => out_of_fuel
      | S n' =>
          run destroyLinkedGeoLoop fuel currentLoop then
          let* l := load_loop currentLoop in
          let nextLoop := lgl_next l in
          run free_loop currentLoop then
          destroyLinkedPolygon_loops fuel n' nextLoop
      end
  end.

Fixpoint destroyLinkedPolygon_for (fuel n : nat) (currentPolygon : ptr)
    (skip : bool) : M unit :=
  match currentPolygon with
  | None => ret tt
  | Some _ =>
      match n with
      | O => out_of_fuel
      | S n' =>
          let* g := load_polygon currentPolygon in
          run destroyLinkedPolygon_loops fuel fuel (lgp_first g) then
          let* g' := load_polygon currentPolygon in
          let nextPolygon := lgp_next g' in
          run (if skip then ret tt else free_polygon currentPolygon) then
          destroyLinkedPolygon_for fuel n' nextPolygon false
      end
  end.

Definition destroyLinkedPolygon (fuel : nat) (polygon : ptr) : M unit :=
  destroyLinkedPolygon_for fuel fuel polygon true.

(** [countLinkedPolygons]: the [while] with its two variables. *)
Fixpoint countLinkedPolygons_while (fuel : nat) (polygon : ptr) (count : Z)
    : M Z :=
  match polygon with
  | None => ret count
  | Some _ =>
      match fuel with
      | O => out_of_fuel
      | S fuel' =>
          let* count' := int_incr count in
          let* g := load_polygon polygon in
          countLinkedPolygons_while fuel' (lgp_next g) count'
      end
  end.

Definition countLinkedPolygons (fuel : nat) (polygon : ptr) : M Z :=
  countLinkedPolygons_while fuel polygon 0.

(** [countLinkedLoops] *)
Fixpoint countLinkedLoops_while (fuel : nat) (loop : ptr) (count : Z) : M Z :=
  match loop with
  | None => ret count
  | Some _ =>
      match fuel with
      | O => out_of_fuel
      | S fuel' =>
          let* count' := int_incr count in
          let* l := load_loop loop in
          countLinkedLoops_while fuel' (lgl_next l) count'
      end
  end.

Definition countLinkedLoops (fuel : nat) (polygon : ptr) : M Z :=
  let* g := load_polygon polygon in
  countLinkedLoops_while fuel (lgp_first g) 0.

(** [countLinkedCoords] *)
Fixpoint countLinkedCoords_while (fuel : nat) (coord : ptr) (count : Z)
    : M Z :=
  match coord with
  | None => ret count
  | Some _ =>
      match fuel with
      | O => out_of_fuel
      | S fuel' =>
          let* count' := int_incr count in
          let* c := load_coord coord in
          countLinkedCoords_while fuel' (lgc_next c) count'
      end
  end.

Definition countLinkedCoords (fuel : nat) (loop : ptr) : M Z :=
  let* l := load_loop loop in
  countLinkedCoords_while fuel (lgl_first l) 0.

(** ** Reading a structure back *)

(** A forward read of a coordinate chain through [next], as a consumer of
    the structure does it: the points met from [coord] on, in order. *)
Fixpoint readLinkedCoords_while (fuel : nat) (coord : ptr)
    : M (list GeoCoord) :=
  match coord with
  | None => ret []
  | Some _ =>
      match fuel with
      | O => out_of_fuel
      | S fuel' =>
          let* c := load_coord coord in
          let* rest := readLinkedCoords_while fuel' (lgc_next c) in
          ret (lgc_vertex c :: rest)
      end
  end.

Definition readLinkedCoords (fuel : nat) (loop : ptr) : M (list GeoCoord) :=
  let* l := load_loop loop in
  readLinkedCoords_while fuel (lgl_first l).

(** [chain next m p ls]: following the field [next] from the pointer [p] in
    the object map [m] visits exactly the addresses [ls], all allocated, and
    then reaches NULL. *)
Section Chain.
Context {T : Type} (next : T -> ptr).

Fixpoint chain (m : gmap loc T) (p : ptr) (ls : list loc) : Prop :=
  match ls with
  | [] => p = None
  | a :: ls' =>
      p = Some a /\ exists x, m !! a = Some x /\ chain m (next x) ls'
  end.
End Chain.

(** A sequence of appends to one loop, in list order. *)
Fixpoint addLinkedCoords (loop : ptr) (vs : list GeoCoord) : M unit :=
  match vs with
  | [] => ret tt
  | v :: vs' =>
      run addLinkedCoord loop v then
      addLinkedCoords loop vs'
  end.

(** [k] calls of [addNewLinkedPolygon], each on the polygon that the
    previous call returned; the result is the last polygon created. *)
Fixpoint addNewLinkedPolygons (k : nat) (polygon : ptr) : M ptr :=
  match k with
  | O => ret polygon
  | S k' =>
      let* next := addNewLinkedPolygon polygon in
      addNewLinkedPolygons k' next
  end.

(** Removing a list of addresses from an object map, front to back. *)
Definition delete_all {T : Type} (ls : list loc) (m : gmap loc T)
    : gmap loc T :=
  fold_left (fun acc a => delete a acc) ls m.

(** [loop_holds h a cs vs]: the loop at [a] is a well-formed list head whose
    coordinate chain visits the nodes [cs], which hold the points [vs]. *)
Definition loop_holds (h : heap) (a : loc) (cs : list loc)
    (vs : list GeoCoord) : Prop :=
  exists l,
    loops h !! a = Some l /\
    chain lgc_next (coords h) (lgl_first l) cs /\
    lgl_last l = last cs /\
    Forall2 (fun c v => lgc_vertex <$> coords h !! c = Some v) cs vs.

(** *** The shape of a fully built structure

    A structure is described by the addresses of its polygons in chain
    order, each with the addresses of its loops in chain order, each with
    the addresses of its coordinate nodes in chain order. *)
Abbreviation loop_desc := (loc * list loc)%type.
Abbreviation polygon_desc := (loc * list loop_desc)%type.

Definition loops_coords (ls : list loop_desc) : list loc :=
  ls ≫= snd.
Definition polygon_loops (pg : polygon_desc) : list loc :=
  (snd pg).*1.
Definition structure_polygons (st : list polygon_desc) : list loc :=
  st.*1.
Definition structure_loops (st : list polygon_desc) : list loc :=
  st ≫= polygon_loops.
Definition structure_coords (st : list polygon_desc) : list loc :=
  st ≫= (fun pg => loops_coords (snd pg)).

Definition loop_ok (h : heap) (lc : loop_desc) : Prop :=
  exists l,
    loops h !! fst lc = Some l /\
    chain lgc_next (coords h) (lgl_first l) (snd lc).

Definition polygon_ok (h : heap) (pg : polygon_desc) : Prop :=
  exists g,
    polygons h !! fst pg = Some g /\
    chain lgl_next (loops h) (lgp_first g) (polygon_loops pg) /\
    Forall (loop_ok h) (snd pg).

(** [structure h p st]: from the pointer [p] the heap holds the polygon
    chain, loop chains and coordinate chains described by [st], every chain
    ends in NULL, and no loop and no coordinate node belongs to two
    chains (the chains form a forest). *)
Definition structure (h : heap) (p : ptr) (st : list polygon_desc) : Prop :=
  chain lgp_next (polygons h) p (structure_polygons st) /\
  Forall (polygon_ok h) st /\
  NoDup (structure_loops st) /\
  NoDup (structure_coords st).

(** A list head is usable by the appends when its [last] is NULL together
    with its [first], or points to an allocated node. *)
Definition polygon_head_ok (h : heap) (g : LinkedGeoPolygon) : Prop :=
  match lgp_last g with
  | None => lgp_first g = None
  | Some b => is_Some (loops h !! b)
  end.

Definition loop_head_ok (h : heap) (l : LinkedGeoLoop) : Prop :=
  match lgl_last l with
  | None => lgl_first l = None
  | Some b => is_Some (coords h !! b)
  end.

(** The [last] pointer of the list head at [p] (resp. [a]) points to a
    node whose [next] is NULL. *)
Definition polygon_last_next_null (h : heap) (p : loc) : Prop :=
  exists g b lb,
    polygons h !! p = Some g /\ lgp_last g = Some b /\
    loops h !! b = Some lb /\ lgl_next lb = None.

Definition loop_last_next_null (h : heap) (a : loc) : Prop :=
  exists l c cn,
    loops h !! a = Some l /\ lgl_last l = Some c /\
    coords h !! c = Some cn /\ lgc_next cn = None.

(** The two properties of [addLinkedLoop] that do not hold for every
    input: that after the call the node under [last] has a NULL [next], and
    that the call leaves the [next] field of the loop it attaches alone. *)
Definition addLinkedLoop_last_next_null (h : heap) (p : loc) (loop : ptr)
    : Prop :=
  forall r h',
    addLinkedLoop (Some p) loop h = Ok r h' -> polygon_last_next_null h' p.

Definition addLinkedLoop_keeps_next (h : heap) (p b : loc) : Prop :=
  forall lb r h',
    loops h !! b = Some lb -> lgl_next lb <> None ->
    addLinkedLoop (Some p) (Some b) h = Ok r h' ->
    exists lb', loops h' !! b = Some lb' /\ lgl_next lb' = lgl_next lb.

(** ** Small concrete heaps, used to run the operations *)

Definition zero_loop : LinkedGeoLoop := mkLoop None None None.
Definition zero_polygon : LinkedGeoPolygon := mkPolygon None None None.

(** One zeroed polygon at address 1 and one zeroed loop at address 1. *)
Definition heap_fresh : heap :=
  mkHeap ∅ {[ 1%positive := zero_loop ]} {[ 1%positive := zero_polygon ]}.

Definition pt (x y : float) : GeoCoord := mkGeoCoord x y.

(** A polygon at 1 whose only loop is the loop at 1, which holds the single
    coordinate at 1. *)
Definition heap_one : heap :=
  mkHeap {[ 1%positive := mkCoord (pt 0 0) None ]}
         {[ 1%positive := mkLoop (Some 1%positive) (Some 1%positive) None ]}
         {[ 1%positive :=
              mkPolygon (Some 1%positive) (Some 1%positive) None ]}.

(** An empty polygon at 1, and the loop at 1 heading the chain 1, 2. *)
Definition heap_chain : heap :=
  mkHeap ∅
         {[ 1%positive := mkLoop None None (Some 2%positive);
            2%positive := zero_loop ]}
         {[ 1%positive := zero_polygon ]}.

(** [heap_chain] after [addLinkedLoop] of the loop at 1 to the polygon at
    1: the polygon's [first] and [last] both point to the loop at 1, whose
    [next] still points to the loop at 2. *)
Definition heap_attached : heap :=
  mkHeap ∅
         {[ 1%positive := mkLoop None None (Some 2%positive);
            2%positive := zero_loop ]}
         {[ 1%positive :=
              mkPolygon (Some 1%positive) (Some 1%positive) None ]}.

(** Polygon 1 with the loop 1 of three points, followed by polygon 2 with
    the loop 2 of one point. *)
Definition heap_two_polygons : heap :=
  mkHeap
    {[ 1%positive := mkCoord (pt 0 0) (Some 2%positive);
       2%positive := mkCoord (pt 1 0) (Some 3%positive);
       3%positive := mkCoord (pt 1 1) None;
       4%positive := mkCoord (pt 5 5) None ]}
    {[ 1%positive := mkLoop (Some 1%positive) (Some 3%positive) None;
       2%positive := mkLoop (Some 4%positive) (Some 4%positive) None ]}
    {[ 1%positive :=
         mkPolygon (Some 1%positive) (Some 1%positive) (Some 2%positive);
       2%positive :=
         mkPolygon (Some 2%positive) (Some 2%positive) None ]}.

Definition desc_two_polygons : list polygon_desc :=
  [ (1%positive, [ (1%positive, [1%positive; 2%positive; 3%positive]) ]);
    (2%positive, [ (2%positive, [4%positive]) ]) ].

(** The scenario of the specification: on a polygon allocated by the
    caller at address 1, add a loop and three points, then a second polygon
    with a loop and one point. *)
Definition heap_caller : heap :=
  mkHeap ∅ ∅ {[ 1%positive := zero_polygon ]}.

Definition build_two_polygons : M (ptr * ptr * ptr) :=
  let A := Some 1%positive in
  let* L1 := addNewLinkedLoop A in
  run addLinkedCoords L1 [pt 0 0; pt 1 0; pt 1 1] then
  let* B := addNewLinkedPolygon A in
  let* L3 := addNewLinkedLoop B in
  run addLinkedCoords L3 [pt 5 5] then
  ret (L1, B, L3).

(** The five counts of the scenario, read after the build. *)
Definition count_two_polygons : M (list Z) :=
  let* r := build_two_polygons in
  let '(L1, B, L3) := r in
  let* n1 := countLinkedPolygons 8 (Some 1%positive) in
  let* n2 := countLinkedLoops 8 (Some 1%positive) in
  let* n3 := countLinkedCoords 8 L1 in
  let* n4 := countLinkedLoops 8 B in
  let* n5 := countLinkedCoords 8 L3 in
  ret [n1; n2; n3; n4; n5].

(** ** Whole structures under construction *)

(** [m] calls of [addNewLinkedLoop] on one polygon; the result lists the
    loops returned, in call order. *)
Fixpoint addNewLinkedLoops (m : nat) (polygon : ptr) : M (list ptr) :=
  match m with
  | O => ret []
  | S m' =>
      let* loop := addNewLinkedLoop polygon in
      let* rest := addNewLinkedLoops m' polygon in
      ret (loop :: rest)
  end.

(** [polygon_holds h p ls]: the polygon at [p] is a well-formed list head:
    its loop chain visits [ls] and its [last] points to the last of them.
    [loop_wf] is the same for a loop and its coordinate chain. *)
Definition polygon_holds (h : heap) (p : loc) (ls : list loc) : Prop :=
  exists g,
    polygons h !! p = Some g /\
    chain lgl_next (loops h) (lgp_first g) ls /\
    lgp_last g = last ls.

Definition loop_wf (h : heap) (a : loc) (cs : list loc) : Prop :=
  exists l,
    loops h !! a = Some l /\
    chain lgc_next (coords h) (lgl_first l) cs /\
    lgl_last l = last cs.

(** The layout of a structure: the polygons in chain order, the loop chain
    of each polygon and the coordinate chain of each loop. *)
Record layout := mkLayout {
  lay_polygons : list loc;
  lay_loops : loc -> list loc;
  lay_coords : loc -> list loc
}.

Definition layout_loops (L : layout) : list loc :=
  lay_polygons L ≫= lay_loops L.
Definition layout_coords (L : layout) : list loc :=
  layout_loops L ≫= lay_coords L.

(** [built h p L]: from [p] the heap holds a structure laid out as [L],
    every list head is well formed (with its [last] pointer), no loop
    belongs to two polygons and no coordinate node to two loops.  This is
    what the appends of a producer keep. *)
Definition built (h : heap) (p : ptr) (L : layout) : Prop :=
  chain lgp_next (polygons h) p (lay_polygons L) /\
  (forall q, q ∈ lay_polygons L -> polygon_holds h q (lay_loops L q)) /\
  (forall a, a ∈ layout_loops L -> loop_wf h a (lay_coords L a)) /\
  (forall q q' a,
     q ∈ lay_polygons L -> q' ∈ lay_polygons L ->
     a ∈ lay_loops L q -> a ∈ lay_loops L q' -> q = q') /\
  (forall a a' c,
     a ∈ layout_loops L -> a' ∈ layout_loops L ->
     c ∈ lay_coords L a -> c ∈ lay_coords L a' -> a = a').

(** [tight h L]: the heap holds nothing but the objects of [L]. *)
Definition tight (h : heap) (L : layout) : Prop :=
  (forall q, is_Some (polygons h !! q) -> q ∈ lay_polygons L) /\
  (forall a, is_Some (loops h !! a) -> a ∈ layout_loops L) /\
  (forall c, is_Some (coords h !! c) -> c ∈ layout_coords L).

(** The description of a layout, polygon by polygon. *)
Definition layout_desc (L : layout) : list polygon_desc :=
  (fun q => (q, (fun a => (a, lay_coords L a)) <$> lay_loops L q))
    <$> lay_polygons L.

(** The layouts after each kind of append. *)
Definition layout_add_coord (a c : loc) (L : layout) : layout :=
  mkLayout (lay_polygons L) (lay_loops L)
           (<[a := lay_coords L a ++ [c]]> (lay_coords L)).
Definition layout_add_loop (q a : loc) (L : layout) : layout :=
  mkLayout (lay_polygons L)
           (<[q := lay_loops L q ++ [a]]> (lay_loops L))
           (<[a := []]> (lay_coords L)).
Definition layout_add_polygon (r : loc) (L : layout) : layout :=
  mkLayout (lay_polygons L ++ [r]) (<[r := []]> (lay_loops L))
           (lay_coords L).

(** The calls of a producer that only uses objects the structure handed
    out: a new polygon after [polygon], a new loop in [polygon], a point
    appended to [loop]. *)
Inductive command : Type :=
| NewPolygon (polygon : loc)
| NewLoop (polygon : loc)
| AddCoord (loop : loc) (vertex : GeoCoord).

Definition run_command (c : command) : M unit :=
  match c with
  | NewPolygon polygon =>
      run addNewLinkedPolygon (Some polygon) then ret tt
  | NewLoop polygon =>
      run addNewLinkedLoop (Some polygon) then ret tt
  | AddCoord loop vertex =>
      run addLinkedCoord (Some loop) vertex then ret tt
  end.

Fixpoint run_commands (cs : list command) : M unit :=
  match cs with
  | [] => ret tt
  | c :: cs' =>
      run run_command c then
      run_commands cs'
  end.

(** What one completed command does to the layout: a polygon new to the
    layout follows the last one, a loop new to the layout becomes the tail
    of the polygon's chain, a node holding the point becomes the tail of
    the loop's chain. *)
Definition command_step (c : command) (h' : heap) (L L' : layout) : Prop :=
  match c with
  | NewPolygon q =>
      exists r, (r ∉ lay_polygons L) /\ L' = layout_add_polygon r L
  | NewLoop q =>
      exists a,
        q ∈ lay_polygons L /\ (a ∉ layout_loops L) /\
        L' = layout_add_loop q a L
  | AddCoord a v =>
      exists x,
        a ∈ layout_loops L /\ L' = layout_add_coord a x L /\
        lgc_vertex <$> coords h' !! x = Some v
  end.

(** A layout is clean when it lists nothing for addresses outside it. *)
Definition clean (L : layout) : Prop :=
  (forall q, q ∉ lay_polygons L -> lay_loops L q = []) /\
  (forall a, a ∉ layout_loops L -> lay_coords L a = []).

(** The points of the nodes of loop [a], in chain order, are [vs]. *)
Definition layout_points (h : heap) (L : layout) (a : loc)
    (vs : list GeoCoord) : Prop :=
  Forall2 (fun c v => lgc_vertex <$> coords h !! c = Some v)
          (lay_coords L a) vs.

(** The commands of a list that concern one polygon or one loop. *)
Fixpoint new_loops (q : loc) (cs : list command) : nat :=
  match cs with
  | [] => 0
  | NewLoop q' :: cs' =>
      if decide (q' = q) then S (new_loops q cs') else new_loops q cs'
  | _ :: cs' => new_loops q cs'
  end.

Fixpoint added_points (a : loc) (cs : list command) : list GeoCoord :=
  match cs with
  | [] => []
  | AddCoord a' v :: cs' =>
      if decide (a' = a) then v :: added_points a cs' else added_points a cs'
  | _ :: cs' => added_points a cs'
  end.

(** The heap of a caller that has allocated and zeroed one polygon, and
    its layout. *)
Definition heap_of_caller (p : loc) : heap :=
  mkHeap ∅ ∅ {[ p := zero_polygon ]}.

Definition layout_of_caller (p : loc) : layout :=
  mkLayout [p] (fun _ => []) (fun _ => []).

(** The number of [NewPolygon] commands of a list. *)
Fixpoint new_polygons (cs : list command) : nat :=
  match cs with
  | [] => 0
  | NewPolygon _ :: cs' => S (new_polygons cs')
  | _ :: cs' => new_polygons cs'
  end.

(** The scenario of [build_two_polygons] as a list of commands. *)
Definition commands_two_polygons : list command :=
  [ NewLoop 1%positive;
    AddCoord 1%positive (pt 0 0); AddCoord 1%positive (pt 1 0);
    AddCoord 1%positive (pt 1 1);
    NewPolygon 1%positive; NewLoop 2%positive;
    AddCoord 2%positive (pt 5 5) ].

(** The polygon at 1 holds the loop at 1; the loop at 2, not attached to
    it, heads the chain 2, 3. *)
Definition heap_chain_after_one : heap :=
  mkHeap ∅
         {[ 1%positive := zero_loop;
            2%positive := mkLoop None None (Some 3%positive);
            3%positive := zero_loop ]}
         {[ 1%positive :=
              mkPolygon (Some 1%positive) (Some 1%positive) None ]}.

(** Two polygons without loops, the one at 1 followed by the one at 2. *)
Definition heap_two_bare : heap :=
  mkHeap ∅ ∅
         {[ 1%positive := mkPolygon None None (Some 2%positive);
            2%positive := zero_polygon ]}.

(** ** Evaluation lemmas for the memory operations *)

Lemma bind_Ok {A B} (m : M A) (k : A -> M B) h a h' :
  m h = Ok a h' -> bind m k h = k a h'.
Proof. intros E. unfold bind. now rewrite E. Qed.

Lemma load_coord_Ok h a c :
  coords h !! a = Some c -> load_coord (Some a) h = Ok c h.
Proof. intros E. unfold load_coord. now rewrite E. Qed.

Lemma load_loop_Ok h a l :
  loops h !! a = Some l -> load_loop (Some a) h = Ok l h.
Proof. intros E. unfold load_loop. now rewrite E. Qed.

Lemma load_polygon_Ok h a g :
  polygons h !! a = Some g -> load_polygon (Some a) h = Ok g h.
Proof. intros E. unfold load_polygon. now rewrite E. Qed.

Lemma update_coord_Ok h a c upd :
  coords h !! a = Some c ->
  update_coord (Some a) upd h = Ok tt (set_coords (insert a (upd c)) h).
Proof. intros E. unfold update_coord. now rewrite E. Qed.

Lemma update_loop_Ok h a l upd :
  loops h !! a = Some l ->
  update_loop (Some a) upd h = Ok tt (set_loops (insert a (upd l)) h).
Proof. intros E. unfold update_loop. now rewrite E. Qed.

Lemma update_polygon_Ok h a g upd :
  polygons h !! a = Some g ->
  update_polygon (Some a) upd h = Ok tt (set_polygons (insert a (upd g)) h).
Proof. intros E. unfold update_polygon. now rewrite E. Qed.

Lemma free_coord_Ok h a c :
  coords h !! a = Some c ->
  free_coord (Some a) h = Ok tt (set_coords (delete a) h).
Proof. intros E. unfold free_coord. now rewrite E. Qed.

Lemma free_loop_Ok h a l :
  loops h !! a = Some l ->
  free_loop (Some a) h = Ok tt (set_loops (delete a) h).
Proof. intros E. unfold free_loop. now rewrite E. Qed.

Lemma free_polygon_Ok h a g :
  polygons h !! a = Some g ->
  free_polygon (Some a) h = Ok tt (set_polygons (delete a) h).
Proof. intros E. unfold free_polygon. now rewrite E. Qed.

Lemma fresh_not_allocated {T : Type} (m : gmap loc T) :
  m !! fresh (dom m) = None.
Proof. apply not_elem_of_dom. apply is_fresh. Qed.

Lemma fresh_ne_allocated {T : Type} (m : gmap loc T) a :
  is_Some (m !! a) -> a <> fresh (dom m).
Proof.
  intros [x Hx] ->. rewrite fresh_not_allocated in Hx. discriminate.
Qed.

Lemma int_incr_Ok count h :
  count < INT_MAX -> int_incr count h = Ok (count + 1) h.
Proof.
  intros Hlt. unfold int_incr.
  destruct (Z.ltb_spec count INT_MAX); [reflexivity | lia].
Qed.

Lemma lookup_delete_all {T : Type} (ls : list loc) (m : gmap loc T) a :
  delete_all ls m !! a = if decide (a ∈ ls) then None else m !! a.
Proof.
  unfold delete_all. revert m. induction ls as [|b ls IH]; intros m; simpl.
  - destruct (decide (a ∈ [])) as [Hin|]; [|reflexivity].
    now apply not_elem_of_nil in Hin.
  - rewrite IH. destruct (decide (a ∈ ls)) as [Hin|Hnin].
    + rewrite decide_True; [reflexivity | now right].
    + destruct (decide (a = b)) as [->|Hne].
      * rewrite decide_True by left. apply lookup_delete_eq.
      * rewrite decide_False.
        -- now apply lookup_delete_ne.
        -- intros Hin. apply elem_of_cons in Hin. tauto.
Qed.

Lemma delete_all_app {T : Type} (l1 l2 : list loc) (m : gmap loc T) :
  delete_all (l1 ++ l2) m = delete_all l2 (delete_all l1 m).
Proof. unfold delete_all. apply fold_left_app. Qed.

(** ** Facts about chains *)

Section ChainFacts.
Context {T : Type} (next : T -> ptr).
Implicit Types (m : gmap loc T) (p : ptr) (ls : list loc).

(** A chain only depends on the objects it visits. *)
Lemma chain_agree m m' p ls :
  (forall a, a ∈ ls -> m' !! a = m !! a) ->
  chain next m p ls -> chain next m' p ls.
Proof.
  revert p. induction ls as [|a ls IH]; intros p Hag; simpl; [auto|].
  intros [-> (x & Hx & Hch)]. split; [reflexivity|].
  exists x. split.
  - rewrite Hag; [assumption | left].
  - apply IH; [|assumption]. intros b Hb. apply Hag. now right.
Qed.

(** The pointer determines the chain. *)
Lemma chain_functional m p l1 l2 :
  chain next m p l1 -> chain next m p l2 -> l1 = l2.
Proof.
  revert p l2. induction l1 as [|a l1 IH]; intros p [|b l2]; simpl.
  - reflexivity.
  - intros -> [E _]. discriminate.
  - intros [-> _] E. discriminate.
  - intros [-> (x & Hx & H1)] [E (y & Hy & H2)].
    injection E as <-. rewrite Hx in Hy. injection Hy as <-.
    f_equal. eapply IH; eassumption.
Qed.

Lemma chain_allocated m p ls a :
  chain next m p ls -> a ∈ ls -> is_Some (m !! a).
Proof.
  revert p. induction ls as [|b ls IH]; intros p; simpl.
  - intros _ Hin. now apply not_elem_of_nil in Hin.
  - intros [-> (x & Hx & Hch)] Hin. apply elem_of_cons in Hin as [->|Hin].
    + now exists x.
    + eapply IH; eassumption.
Qed.

(** Every address of a chain starts the rest of the chain. *)
Lemma chain_suffix m p l1 a l2 :
  chain next m p (l1 ++ a :: l2) -> chain next m (Some a) (a :: l2).
Proof.
  revert p. induction l1 as [|b l1 IH]; intros p; simpl.
  - intros [-> H]. split; [reflexivity | exact H].
  - intros [-> (x & Hx & Hch)]. eapply IH. exact Hch.
Qed.

(** A chain that reaches NULL visits no address twice. *)
Lemma chain_NoDup m p ls : chain next m p ls -> NoDup ls.
Proof.
  revert p. induction ls as [|a ls IH]; intros p Hch.
  - constructor.
  - pose proof Hch as Hall. simpl in Hch.
    destruct Hch as [-> (x & Hx & Hch)].
    constructor; [|eapply IH; exact Hch].
    intros Hin. apply list_elem_of_split in Hin as (l1 & l2 & ->).
    pose proof (chain_suffix m _ l1 a l2 Hch) as Hsuf.
    pose proof (chain_functional _ _ _ _ Hall Hsuf) as E.
    apply (f_equal (@length loc)) in E. simpl in E.
    rewrite length_app in E. simpl in E. lia.
Qed.

(** The last object of a chain has a NULL [next]. *)
Lemma chain_last_next m p ls b x :
  chain next m p ls -> last ls = Some b -> m !! b = Some x ->
  next x = None.
Proof.
  revert p. induction ls as [|a ls IH]; intros p; simpl; [discriminate|].
  intros [-> (y & Hy & Hch)] Hlast Hb. destruct ls as [|a' ls].
  - simpl in Hlast. injection Hlast as ->. rewrite Hy in Hb.
    injection Hb as ->. exact Hch.
  - eapply IH; eauto.
Qed.

(** Linking the last object of a chain to the head of another chain
    concatenates them. *)
Lemma chain_append m m' p ps b q ls :
  chain next m p ps -> last ps = Some b ->
  (forall a, a ∈ ps -> a <> b -> m' !! a = m !! a) ->
  (exists x', m' !! b = Some x' /\ next x' = q) ->
  chain next m' q ls ->
  chain next m' p (ps ++ ls).
Proof.
  intros Hch Hlast Hag (x' & Hb & Hq) Hls.
  pose proof (chain_NoDup _ _ _ Hch) as Hnd.
  revert p Hch Hlast Hag Hnd.
  induction ps as [|a ps IH]; intros p; simpl; [discriminate|].
  intros [-> (x & Hx & Hch)] Hlast Hag Hnd.
  split; [reflexivity|]. apply NoDup_cons in Hnd as [Hnin Hnd].
  destruct ps as [|a' ps].
  - simpl in Hlast. injection Hlast as ->. exists x'. split; [exact Hb|].
    rewrite Hq. exact Hls.
  - exists x. split.
    + rewrite Hag; [exact Hx | left |].
      intros ->. apply Hnin. apply last_Some_elem_of. exact Hlast.
    + apply IH; auto. intros c Hc Hne. apply Hag; [now right | exact Hne].
Qed.
End ChainFacts.

(** ** The operations at work *)

Example build_two_polygons_heap :
  build_two_polygons heap_caller
    = Ok (Some 1%positive, Some 2%positive, Some 2%positive)
         heap_two_polygons.
Proof. vm_compute. reflexivity. Qed.

Example count_two_polygons_result :
  exists h, count_two_polygons heap_caller = Ok [2; 1; 3; 1; 1] h.
Proof. eexists. vm_compute. reflexivity. Qed.

Example destroy_two_polygons :
  destroyLinkedPolygon 8 (Some 1%positive) heap_two_polygons
    = Ok tt (mkHeap ∅ ∅
               {[ 1%positive :=
                    mkPolygon (Some 1%positive) (Some 1%positive)
                      (Some 2%positive) ]}).
Proof. vm_compute. reflexivity. Qed.

(** Destroying twice reads a loop that the first call released. *)
Example destroy_twice_undefined :
  (run destroyLinkedPolygon 8 (Some 1%positive) then
   destroyLinkedPolygon 8 (Some 1%positive)) heap_two_polygons = Undef.
Proof. vm_compute. reflexivity. Qed.

Example heap_attached_reached :
  addLinkedLoop (Some 1%positive) (Some 1%positive) heap_chain
    = Ok (Some 1%positive) heap_attached.
Proof. vm_compute. reflexivity. Qed.

(** Attaching the polygon's last loop once more links the loop to itself. *)
Example addLinkedLoop_twice_self_cycle :
  exists h',
    addLinkedLoop (Some 1%positive) (Some 1%positive) heap_one
      = Ok (Some 1%positive) h' /\
    loops h' !! 1%positive
      = Some (mkLoop (Some 1%positive) (Some 1%positive) (Some 1%positive)).
Proof. eexists. vm_compute. split; reflexivity. Qed.

Example addNewLinkedPolygon_twice_asserts :
  (run addNewLinkedPolygon (Some 1%positive) then
   addNewLinkedPolygon (Some 1%positive)) heap_caller = AssertFail.
Proof. vm_compute. reflexivity. Qed.

(** ** What each append does to the heap *)

Ltac run_op :=
  unfold bind, load_coord, load_loop, load_polygon, update_coord,
    update_loop, update_polygon, malloc_coord, calloc_loop, calloc_polygon,
    assert, ret, set_coords, set_loops, set_polygons; simpl.

Lemma addNewLinkedPolygon_Ok h p g :
  polygons h !! p = Some g -> lgp_next g = None ->
  addNewLinkedPolygon (Some p) h =
    Ok (Some (fresh (dom (polygons h))))
       (mkHeap (coords h) (loops h)
          (<[p := mkPolygon (lgp_first g) (lgp_last g)
                    (Some (fresh (dom (polygons h))))]>
             (<[fresh (dom (polygons h)) := mkPolygon None None None]>
                (polygons h)))).
Proof.
  intros Hp Hnext.
  pose proof (fresh_ne_allocated (polygons h) p (mk_is_Some _ _ Hp)) as Hne.
  unfold addNewLinkedPolygon. run_op. rewrite Hp, Hnext. simpl.
  rewrite lookup_insert_ne by congruence. rewrite Hp. reflexivity.
Qed.

Lemma addNewLinkedPolygon_AssertFail h p g :
  polygons h !! p = Some g -> lgp_next g <> None ->
  addNewLinkedPolygon (Some p) h = AssertFail.
Proof.
  intros Hp Hnext. unfold addNewLinkedPolygon. run_op. rewrite Hp.
  destruct (lgp_next g); [reflexivity | congruence].
Qed.

Lemma addLinkedLoop_first_Ok h p g loop :
  polygons h !! p = Some g -> lgp_last g = None -> lgp_first g = None ->
  addLinkedLoop (Some p) loop h =
    Ok loop (mkHeap (coords h) (loops h)
               (<[p := mkPolygon loop loop (lgp_next g)]> (polygons h))).
Proof.
  intros Hp Hlast Hfirst. unfold addLinkedLoop. run_op.
  rewrite Hp, Hlast, Hfirst. simpl. rewrite Hp. simpl.
  rewrite lookup_insert_eq. unfold with_lgp_last, with_lgp_first. simpl.
  rewrite insert_insert_eq. reflexivity.
Qed.

Lemma addLinkedLoop_AssertFail h p g loop :
  polygons h !! p = Some g -> lgp_last g = None -> lgp_first g <> None ->
  addLinkedLoop (Some p) loop h = AssertFail.
Proof.
  intros Hp Hlast Hfirst. unfold addLinkedLoop. run_op. rewrite Hp, Hlast.
  simpl. destruct (lgp_first g); [reflexivity | congruence].
Qed.

Lemma addLinkedLoop_next_Ok h p g b lb loop :
  polygons h !! p = Some g -> lgp_last g = Some b ->
  loops h !! b = Some lb ->
  addLinkedLoop (Some p) loop h =
    Ok loop (mkHeap (coords h)
               (<[b := mkLoop (lgl_first lb) (lgl_last lb) loop]> (loops h))
               (<[p := mkPolygon (lgp_first g) loop (lgp_next g)]>
                  (polygons h))).
Proof.
  intros Hp Hlast Hb. unfold addLinkedLoop. run_op.
  rewrite Hp, Hlast. simpl. rewrite Hb. simpl. rewrite Hp. reflexivity.
Qed.

Lemma addLinkedCoord_first_Ok h a l v :
  loops h !! a = Some l -> lgl_last l = None -> lgl_first l = None ->
  addLinkedCoord (Some a) v h =
    Ok (Some (fresh (dom (coords h))))
       (mkHeap (<[fresh (dom (coords h)) := mkCoord v None]> (coords h))
          (<[a := mkLoop (Some (fresh (dom (coords h))))
                    (Some (fresh (dom (coords h)))) (lgl_next l)]> (loops h))
          (polygons h)).
Proof.
  intros Ha Hlast Hfirst. unfold addLinkedCoord. run_op.
  rewrite lookup_insert_eq. simpl. rewrite Ha, Hlast, Hfirst. simpl.
  rewrite Ha. simpl. rewrite lookup_insert_eq.
  unfold with_lgl_last, with_lgl_first. simpl.
  rewrite !insert_insert_eq. reflexivity.
Qed.

Lemma addLinkedCoord_AssertFail h a l v :
  loops h !! a = Some l -> lgl_last l = None -> lgl_first l <> None ->
  addLinkedCoord (Some a) v h = AssertFail.
Proof.
  intros Ha Hlast Hfirst. unfold addLinkedCoord. run_op.
  rewrite lookup_insert_eq. simpl. rewrite Ha, Hlast. simpl.
  destruct (lgl_first l); [reflexivity | congruence].
Qed.

Lemma addLinkedCoord_next_Ok h a l b cb v :
  loops h !! a = Some l -> lgl_last l = Some b ->
  coords h !! b = Some cb ->
  addLinkedCoord (Some a) v h =
    Ok (Some (fresh (dom (coords h))))
       (mkHeap
          (<[b := mkCoord (lgc_vertex cb) (Some (fresh (dom (coords h))))]>
             (<[fresh (dom (coords h)) := mkCoord v None]> (coords h)))
          (<[a := mkLoop (lgl_first l) (Some (fresh (dom (coords h))))
                    (lgl_next l)]> (loops h))
          (polygons h)).
Proof.
  intros Ha Hlast Hb.
  pose proof (fresh_ne_allocated (coords h) b (mk_is_Some _ _ Hb)) as Hne.
  unfold addLinkedCoord. run_op.
  rewrite lookup_insert_eq. simpl. rewrite Ha, Hlast. simpl.
  rewrite insert_insert_eq. rewrite lookup_insert_ne by congruence.
  rewrite Hb. simpl. rewrite Ha. reflexivity.
Qed.

(** [addNewLinkedLoop] is [addLinkedLoop] on a loop just allocated. *)
Lemma addNewLinkedLoop_unfold h polygon :
  addNewLinkedLoop polygon h =
    addLinkedLoop polygon (Some (fresh (dom (loops h))))
      (mkHeap (coords h)
         (<[fresh (dom (loops h)) := mkLoop None None None]> (loops h))
         (polygons h)).
Proof. unfold addNewLinkedLoop. run_op. reflexivity. Qed.

(** ** The append operations, one call at a time *)

(** C3: for a polygon [p] whose [next] is NULL, [addNewLinkedPolygon]
    allocates a polygon that was not allocated before, all of whose fields
    are NULL, stores it in [p->next] (and changes nothing else), and returns
    it; when [p->next] is not NULL the assertion fails. *)
Theorem C3_addNewLinkedPolygon_spec (h : heap) (p : loc)
    (g : LinkedGeoPolygon) :
  polygons h !! p = Some g ->
  (lgp_next g = None ->
   exists q h',
     addNewLinkedPolygon (Some p) h = Ok (Some q) h' /\
     polygons h !! q = None /\
     polygons h' !! q = Some (mkPolygon None None None) /\
     polygons h' !! p =
       Some (mkPolygon (lgp_first g) (lgp_last g) (Some q)) /\
     (forall a, a <> p -> a <> q -> polygons h' !! a = polygons h !! a) /\
     coords h' = coords h /\ loops h' = loops h) /\
  (lgp_next g <> None -> addNewLinkedPolygon (Some p) h = AssertFail).
Proof.
  intros Hp. split.
  - intros Hnext.
    pose proof (fresh_not_allocated (polygons h)) as Hq.
    pose proof (fresh_ne_allocated (polygons h) p (mk_is_Some _ _ Hp)) as Hne.
    eexists. eexists. split; [apply (addNewLinkedPolygon_Ok h p g Hp Hnext)|].
    simpl. repeat split; try assumption.
    + rewrite lookup_insert_ne by congruence. apply lookup_insert_eq.
    + apply lookup_insert_eq.
    + intros a Ha1 Ha2. rewrite !lookup_insert_ne by congruence. reflexivity.
  - apply addNewLinkedPolygon_AssertFail. exact Hp.
Qed.

Lemma C3_witness :
  polygons heap_fresh !! 1%positive = Some zero_polygon /\
  exists q h',
    addNewLinkedPolygon (Some 1%positive) heap_fresh = Ok (Some q) h' /\
    polygons h' !! q = Some (mkPolygon None None None) /\
    polygons h' !! 1%positive = Some (mkPolygon None None (Some q)).
Proof.
  split; [reflexivity|].
  destruct (C3_addNewLinkedPolygon_spec heap_fresh 1%positive zero_polygon
              eq_refl) as [Hok _].
  destruct (Hok eq_refl) as (q & h' & Hrun & _ & Hq & Hp & _).
  exists q, h'. repeat split; assumption.
Defined.

(** C4: [addLinkedLoop] on a polygon [p] and a loop pointer [loop].  If
    [p->last] is NULL, the assertion demands that [p->first] is NULL too,
    and [p->first] becomes [loop]; otherwise the [next] of the loop that
    [p->last] points to becomes [loop].  In both cases [p->last] becomes
    [loop] and [loop] is returned; nothing else changes. *)
Theorem C4_addLinkedLoop_spec (h : heap) (p : loc) (g : LinkedGeoPolygon)
    (loop : ptr) :
  polygons h !! p = Some g ->
  (lgp_last g = None -> lgp_first g = None ->
   addLinkedLoop (Some p) loop h =
     Ok loop (mkHeap (coords h) (loops h)
                (<[p := mkPolygon loop loop (lgp_next g)]> (polygons h)))) /\
  (lgp_last g = None -> lgp_first g <> None ->
   addLinkedLoop (Some p) loop h = AssertFail) /\
  (forall b lb, lgp_last g = Some b -> loops h !! b = Some lb ->
   addLinkedLoop (Some p) loop h =
     Ok loop (mkHeap (coords h)
                (<[b := mkLoop (lgl_first lb) (lgl_last lb) loop]> (loops h))
                (<[p := mkPolygon (lgp_first g) loop (lgp_next g)]>
                   (polygons h)))).
Proof.
  intros Hp. split; [|split].
  - apply addLinkedLoop_first_Ok. exact Hp.
  - apply addLinkedLoop_AssertFail. exact Hp.
  - intros b lb. apply addLinkedLoop_next_Ok. exact Hp.
Qed.

Lemma C4_witness :
  polygons heap_one !! 1%positive
    = Some (mkPolygon (Some 1%positive) (Some 1%positive) None) /\
  addLinkedLoop (Some 1%positive) (Some 2%positive) heap_one =
    Ok (Some 2%positive)
       (mkHeap (coords heap_one)
          (<[1%positive := mkLoop (Some 1%positive) (Some 1%positive)
                             (Some 2%positive)]> (loops heap_one))
          (<[1%positive := mkPolygon (Some 1%positive) (Some 2%positive)
                             None]> (polygons heap_one))).
Proof.
  split; [reflexivity|].
  destruct (C4_addLinkedLoop_spec heap_one 1%positive _ (Some 2%positive)
              eq_refl) as (_ & _ & Hnext).
  exact (Hnext 1%positive _ eq_refl eq_refl).
Defined.

(** C5: [addLinkedCoord] on a loop [a] and a point [v] allocates a
    coordinate node that was not allocated before, holding [v] and a NULL
    [next].  If [a->last] is NULL, the assertion demands that [a->first] is
    NULL too, and [a->first] becomes the node; otherwise the [next] of the
    node that [a->last] points to becomes the node.  In both cases [a->last]
    becomes the node, the node is returned, and nothing else changes. *)
Theorem C5_addLinkedCoord_spec (h : heap) (a : loc) (l : LinkedGeoLoop)
    (v : GeoCoord) :
  loops h !! a = Some l ->
  coords h !! fresh (dom (coords h)) = None /\
  (lgl_last l = None -> lgl_first l = None ->
   addLinkedCoord (Some a) v h =
     Ok (Some (fresh (dom (coords h))))
        (mkHeap (<[fresh (dom (coords h)) := mkCoord v None]> (coords h))
           (<[a := mkLoop (Some (fresh (dom (coords h))))
                     (Some (fresh (dom (coords h)))) (lgl_next l)]>
              (loops h))
           (polygons h))) /\
  (lgl_last l = None -> lgl_first l <> None ->
   addLinkedCoord (Some a) v h = AssertFail) /\
  (forall b cb, lgl_last l = Some b -> coords h !! b = Some cb ->
   b <> fresh (dom (coords h)) /\
   addLinkedCoord (Some a) v h =
     Ok (Some (fresh (dom (coords h))))
        (mkHeap
           (<[b := mkCoord (lgc_vertex cb) (Some (fresh (dom (coords h))))]>
              (<[fresh (dom (coords h)) := mkCoord v None]> (coords h)))
           (<[a := mkLoop (lgl_first l) (Some (fresh (dom (coords h))))
                     (lgl_next l)]> (loops h))
           (polygons h))).
Proof.
  intros Ha. split; [apply fresh_not_allocated|]. split; [|split].
  - apply addLinkedCoord_first_Ok. exact Ha.
  - apply addLinkedCoord_AssertFail. exact Ha.
  - intros b cb Hlast Hb. split.
    + apply fresh_ne_allocated. now exists cb.
    + eapply addLinkedCoord_next_Ok; eassumption.
Qed.

Lemma C5_witness :
  loops heap_one !! 1%positive
    = Some (mkLoop (Some 1%positive) (Some 1%positive) None) /\
  addLinkedCoord (Some 1%positive) (pt 1 0) heap_one =
    Ok (Some 2%positive)
       (mkHeap {[ 1%positive := mkCoord (pt 0 0) (Some 2%positive);
                  2%positive := mkCoord (pt 1 0) None ]}
          {[ 1%positive := mkLoop (Some 1%positive) (Some 2%positive) None ]}
          (polygons heap_one)).
Proof.
  split; [reflexivity|].
  destruct (C5_addLinkedCoord_spec heap_one 1%positive _ (pt 1 0) eq_refl)
    as (_ & _ & _ & Hnext).
  destruct (Hnext 1%positive _ eq_refl eq_refl) as [_ Hrun].
  rewrite Hrun. vm_compute. reflexivity.
Defined.

(** ** The three counters *)

Lemma countLinkedPolygons_while_chain h ps :
  forall p fuel count,
    chain lgp_next (polygons h) p ps ->
    count + Z.of_nat (length ps) <= INT_MAX ->
    (length ps <= fuel)%nat ->
    countLinkedPolygons_while fuel p count h
      = Ok (count + Z.of_nat (length ps)) h.
Proof.
  induction ps as [|a ps IH]; intros p fuel count Hch Hmax Hfuel.
  - simpl in Hch. subst p. destruct fuel; simpl; unfold ret; f_equal; lia.
  - destruct Hch as [-> (g & Hg & Hch)]. simpl length in *.
    destruct fuel as [|fuel]; [lia|]. simpl.
    rewrite (bind_Ok _ _ _ _ _ (int_incr_Ok count h ltac:(lia))).
    rewrite (bind_Ok _ _ _ _ _ (load_polygon_Ok _ _ _ Hg)).
    rewrite (IH _ fuel (count + 1) Hch) by lia. f_equal. lia.
Qed.

Lemma countLinkedLoops_while_chain h ls :
  forall p fuel count,
    chain lgl_next (loops h) p ls ->
    count + Z.of_nat (length ls) <= INT_MAX ->
    (length ls <= fuel)%nat ->
    countLinkedLoops_while fuel p count h
      = Ok (count + Z.of_nat (length ls)) h.
Proof.
  induction ls as [|a ls IH]; intros p fuel count Hch Hmax Hfuel.
  - simpl in Hch. subst p. destruct fuel; simpl; unfold ret; f_equal; lia.
  - destruct Hch as [-> (l & Hl & Hch)]. simpl length in *.
    destruct fuel as [|fuel]; [lia|]. simpl.
    rewrite (bind_Ok _ _ _ _ _ (int_incr_Ok count h ltac:(lia))).
    rewrite (bind_Ok _ _ _ _ _ (load_loop_Ok _ _ _ Hl)).
    rewrite (IH _ fuel (count + 1) Hch) by lia. f_equal. lia.
Qed.

Lemma countLinkedCoords_while_chain h cs :
  forall p fuel count,
    chain lgc_next (coords h) p cs ->
    count + Z.of_nat (length cs) <= INT_MAX ->
    (length cs <= fuel)%nat ->
    countLinkedCoords_while fuel p count h
      = Ok (count + Z.of_nat (length cs)) h.
Proof.
  induction cs as [|a cs IH]; intros p fuel count Hch Hmax Hfuel.
  - simpl in Hch. subst p. destruct fuel; simpl; unfold ret; f_equal; lia.
  - destruct Hch as [-> (c & Hc & Hch)]. simpl length in *.
    destruct fuel as [|fuel]; [lia|]. simpl.
    rewrite (bind_Ok _ _ _ _ _ (int_incr_Ok count h ltac:(lia))).
    rewrite (bind_Ok _ _ _ _ _ (load_coord_Ok _ _ _ Hc)).
    rewrite (IH _ fuel (count + 1) Hch) by lia. f_equal. lia.
Qed.

(** The primitive reads leave the heap as it is, whatever they return. *)
Lemma int_incr_pure count h n h' : int_incr count h = Ok n h' -> h' = h.
Proof.
  unfold int_incr, ret, undef. destruct (count <? INT_MAX); congruence.
Qed.

Lemma load_polygon_pure p h g h' : load_polygon p h = Ok g h' -> h' = h.
Proof.
  unfold load_polygon. destruct p as [a|]; [|discriminate].
  destruct (polygons h !! a); congruence.
Qed.

Lemma load_loop_pure p h l h' : load_loop p h = Ok l h' -> h' = h.
Proof.
  unfold load_loop. destruct p as [a|]; [|discriminate].
  destruct (loops h !! a); congruence.
Qed.

Lemma load_coord_pure p h c h' : load_coord p h = Ok c h' -> h' = h.
Proof.
  unfold load_coord. destruct p as [a|]; [|discriminate].
  destruct (coords h !! a); congruence.
Qed.

Lemma bind_Ok_inv {A B} (m : M A) (k : A -> M B) h b h' :
  bind m k h = Ok b h' -> exists a h1, m h = Ok a h1 /\ k a h1 = Ok b h'.
Proof.
  unfold bind. destruct (m h) as [a h1| | |]; try discriminate. eauto.
Qed.

Lemma countLinkedPolygons_while_pure fuel :
  forall p count h n h',
    countLinkedPolygons_while fuel p count h = Ok n h' -> h' = h.
Proof.
  induction fuel as [|fuel IH]; intros [a|] count h n h'; simpl;
    unfold ret, out_of_fuel; try congruence.
  intros Hrun.
  apply bind_Ok_inv in Hrun as (c1 & h1 & H1 & Hrun).
  apply bind_Ok_inv in Hrun as (g & h2 & H2 & Hrun).
  apply int_incr_pure in H1. apply load_polygon_pure in H2.
  apply IH in Hrun. congruence.
Qed.

Lemma countLinkedLoops_while_pure fuel :
  forall p count h n h',
    countLinkedLoops_while fuel p count h = Ok n h' -> h' = h.
Proof.
  induction fuel as [|fuel IH]; intros [a|] count h n h'; simpl;
    unfold ret, out_of_fuel; try congruence.
  intros Hrun.
  apply bind_Ok_inv in Hrun as (c1 & h1 & H1 & Hrun).
  apply bind_Ok_inv in Hrun as (g & h2 & H2 & Hrun).
  apply int_incr_pure in H1. apply load_loop_pure in H2.
  apply IH in Hrun. congruence.
Qed.

Lemma countLinkedCoords_while_pure fuel :
  forall p count h n h',
    countLinkedCoords_while fuel p count h = Ok n h' -> h' = h.
Proof.
  induction fuel as [|fuel IH]; intros [a|] count h n h'; simpl;
    unfold ret, out_of_fuel; try congruence.
  intros Hrun.
  apply bind_Ok_inv in Hrun as (c1 & h1 & H1 & Hrun).
  apply bind_Ok_inv in Hrun as (g & h2 & H2 & Hrun).
  apply int_incr_pure in H1. apply load_coord_pure in H2.
  apply IH in Hrun. congruence.
Qed.

Lemma countLinkedPolygons_chain h p ps fuel :
  chain lgp_next (polygons h) p ps ->
  Z.of_nat (length ps) <= INT_MAX -> (length ps <= fuel)%nat ->
  countLinkedPolygons fuel p h = Ok (Z.of_nat (length ps)) h.
Proof.
  intros Hch Hmax Hfuel. unfold countLinkedPolygons.
  now rewrite (countLinkedPolygons_while_chain h ps p fuel 0 Hch) by lia.
Qed.

Lemma countLinkedLoops_chain h a g ls fuel :
  polygons h !! a = Some g ->
  chain lgl_next (loops h) (lgp_first g) ls ->
  Z.of_nat (length ls) <= INT_MAX -> (length ls <= fuel)%nat ->
  countLinkedLoops fuel (Some a) h = Ok (Z.of_nat (length ls)) h.
Proof.
  intros Ha Hch Hmax Hfuel. unfold countLinkedLoops.
  rewrite (bind_Ok _ _ _ _ _ (load_polygon_Ok _ _ _ Ha)).
  now rewrite (countLinkedLoops_while_chain h ls _ fuel 0 Hch) by lia.
Qed.

Lemma countLinkedCoords_chain h a l cs fuel :
  loops h !! a = Some l ->
  chain lgc_next (coords h) (lgl_first l) cs ->
  Z.of_nat (length cs) <= INT_MAX -> (length cs <= fuel)%nat ->
  countLinkedCoords fuel (Some a) h = Ok (Z.of_nat (length cs)) h.
Proof.
  intros Ha Hch Hmax Hfuel. unfold countLinkedCoords.
  rewrite (bind_Ok _ _ _ _ _ (load_loop_Ok _ _ _ Ha)).
  now rewrite (countLinkedCoords_while_chain h cs _ fuel 0 Hch) by lia.
Qed.

(** Whenever a counter returns, it has walked a chain to NULL and returns
    its length. *)
Lemma countLinkedPolygons_while_sound fuel :
  forall p count h n h',
    countLinkedPolygons_while fuel p count h = Ok n h' ->
    exists ps, chain lgp_next (polygons h) p ps /\
               n = count + Z.of_nat (length ps).
Proof.
  induction fuel as [|fuel IH]; intros [a|] count h n h'; simpl;
    unfold ret, out_of_fuel; try congruence;
    try (intros [= <- <-]; exists []; split; [reflexivity | simpl; lia]).
  intros Hrun.
  apply bind_Ok_inv in Hrun as (c1 & h1 & H1 & Hrun).
  apply bind_Ok_inv in Hrun as (g & h2 & H2 & Hrun).
  pose proof (int_incr_pure _ _ _ _ H1) as ->.
  pose proof (load_polygon_pure _ _ _ _ H2) as ->.
  unfold int_incr, ret, undef in H1.
  destruct (count <? INT_MAX); [|discriminate]. injection H1 as <-.
  unfold load_polygon in H2. destruct (polygons h !! a) as [g'|] eqn:Ha;
    [|discriminate]. injection H2 as ->.
  apply IH in Hrun as (ps & Hch & ->). exists (a :: ps). split.
  - simpl. split; [reflexivity|]. now exists g.
  - simpl length. lia.
Qed.

Lemma countLinkedLoops_while_sound fuel :
  forall p count h n h',
    countLinkedLoops_while fuel p count h = Ok n h' ->
    exists ls, chain lgl_next (loops h) p ls /\
               n = count + Z.of_nat (length ls).
Proof.
  induction fuel as [|fuel IH]; intros [a|] count h n h'; simpl;
    unfold ret, out_of_fuel; try congruence;
    try (intros [= <- <-]; exists []; split; [reflexivity | simpl; lia]).
  intros Hrun.
  apply bind_Ok_inv in Hrun as (c1 & h1 & H1 & Hrun).
  apply bind_Ok_inv in Hrun as (g & h2 & H2 & Hrun).
  pose proof (int_incr_pure _ _ _ _ H1) as ->.
  pose proof (load_loop_pure _ _ _ _ H2) as ->.
  unfold int_incr, ret, undef in H1.
  destruct (count <? INT_MAX); [|discriminate]. injection H1 as <-.
  unfold load_loop in H2. destruct (loops h !! a) as [g'|] eqn:Ha;
    [|discriminate]. injection H2 as ->.
  apply IH in Hrun as (ps & Hch & ->). exists (a :: ps). split.
  - simpl. split; [reflexivity|]. now exists g.
  - simpl length. lia.
Qed.

Lemma countLinkedCoords_while_sound fuel :
  forall p count h n h',
    countLinkedCoords_while fuel p count h = Ok n h' ->
    exists cs, chain lgc_next (coords h) p cs /\
               n = count + Z.of_nat (length cs).
Proof.
  induction fuel as [|fuel IH]; intros [a|] count h n h'; simpl;
    unfold ret, out_of_fuel; try congruence;
    try (intros [= <- <-]; exists []; split; [reflexivity | simpl; lia]).
  intros Hrun.
  apply bind_Ok_inv in Hrun as (c1 & h1 & H1 & Hrun).
  apply bind_Ok_inv in Hrun as (g & h2 & H2 & Hrun).
  pose proof (int_incr_pure _ _ _ _ H1) as ->.
  pose proof (load_coord_pure _ _ _ _ H2) as ->.
  unfold int_incr, ret, undef in H1.
  destruct (count <? INT_MAX); [|discriminate]. injection H1 as <-.
  unfold load_coord in H2. destruct (coords h !! a) as [g'|] eqn:Ha;
    [|discriminate]. injection H2 as ->.
  apply IH in Hrun as (ps & Hch & ->). exists (a :: ps). split.
  - simpl. split; [reflexivity|]. now exists g.
  - simpl length. lia.
Qed.

(** C9: the three counters are pure forward traversals.  Whatever the
    input, a counter that returns leaves the heap exactly as it was and
    returns the length of the chain it was given (first three parts).  On
    every chain that reaches NULL and has at most [INT_MAX] nodes (the
    counter is a C [int]) it does return, with the number of nodes of the
    chain, once [fuel] covers the chain (next three parts); in particular it
    returns 0 for an absent chain (last three parts). *)
Theorem C9_counts_pure_chain_length (fuel : nat) (h : heap) :
  (forall p n h',
     countLinkedPolygons fuel p h = Ok n h' ->
     h' = h /\
     exists ps, chain lgp_next (polygons h) p ps /\ n = Z.of_nat (length ps))
  /\
  (forall p n h',
     countLinkedLoops fuel p h = Ok n h' ->
     h' = h /\
     exists a g ls,
       p = Some a /\ polygons h !! a = Some g /\
       chain lgl_next (loops h) (lgp_first g) ls /\
       n = Z.of_nat (length ls))
  /\
  (forall p n h',
     countLinkedCoords fuel p h = Ok n h' ->
     h' = h /\
     exists a l cs,
       p = Some a /\ loops h !! a = Some l /\
       chain lgc_next (coords h) (lgl_first l) cs /\
       n = Z.of_nat (length cs))
  /\
  (forall p ps,
     chain lgp_next (polygons h) p ps ->
     Z.of_nat (length ps) <= INT_MAX -> (length ps <= fuel)%nat ->
     countLinkedPolygons fuel p h = Ok (Z.of_nat (length ps)) h)
  /\
  (forall a g ls,
     polygons h !! a = Some g ->
     chain lgl_next (loops h) (lgp_first g) ls ->
     Z.of_nat (length ls) <= INT_MAX -> (length ls <= fuel)%nat ->
     countLinkedLoops fuel (Some a) h = Ok (Z.of_nat (length ls)) h)
  /\
  (forall a l cs,
     loops h !! a = Some l ->
     chain lgc_next (coords h) (lgl_first l) cs ->
     Z.of_nat (length cs) <= INT_MAX -> (length cs <= fuel)%nat ->
     countLinkedCoords fuel (Some a) h = Ok (Z.of_nat (length cs)) h)
  /\
  countLinkedPolygons fuel None h = Ok 0 h
  /\
  (forall a g,
     polygons h !! a = Some g -> lgp_first g = None ->
     countLinkedLoops fuel (Some a) h = Ok 0 h)
  /\
  (forall a l,
     loops h !! a = Some l -> lgl_first l = None ->
     countLinkedCoords fuel (Some a) h = Ok 0 h).
Proof.
  repeat apply conj.
  - intros p n h' Hrun. unfold countLinkedPolygons in Hrun. split.
    + eapply countLinkedPolygons_while_pure; eassumption.
    + apply countLinkedPolygons_while_sound in Hrun as (ps & Hch & ->).
      exists ps. split; [assumption | lia].
  - intros p n h' Hrun. unfold countLinkedLoops in Hrun.
    apply bind_Ok_inv in Hrun as (g & h1 & Hload & Hrun).
    pose proof (load_polygon_pure _ _ _ _ Hload) as ->.
    unfold load_polygon in Hload. destruct p as [a|]; [|discriminate].
    destruct (polygons h !! a) as [g'|] eqn:Ha; [|discriminate].
    injection Hload as ->. split.
    + eapply countLinkedLoops_while_pure; eassumption.
    + apply countLinkedLoops_while_sound in Hrun as (ls & Hch & ->).
      exists a, g, ls. split; [reflexivity|]. split; [assumption|].
      split; [assumption | lia].
  - intros p n h' Hrun. unfold countLinkedCoords in Hrun.
    apply bind_Ok_inv in Hrun as (l & h1 & Hload & Hrun).
    pose proof (load_loop_pure _ _ _ _ Hload) as ->.
    unfold load_loop in Hload. destruct p as [a|]; [|discriminate].
    destruct (loops h !! a) as [l'|] eqn:Ha; [|discriminate].
    injection Hload as ->. split.
    + eapply countLinkedCoords_while_pure; eassumption.
    + apply countLinkedCoords_while_sound in Hrun as (cs & Hch & ->).
      exists a, l, cs. split; [reflexivity|]. split; [assumption|].
      split; [assumption | lia].
  - intros p ps. apply countLinkedPolygons_chain.
  - intros a g ls. apply countLinkedLoops_chain.
  - intros a l cs. apply countLinkedCoords_chain.
  - destruct fuel; reflexivity.
  - intros a g Ha Hfirst.
    apply (countLinkedLoops_chain h a g [] fuel Ha); simpl;
      [assumption | unfold INT_MAX; lia | lia].
  - intros a l Ha Hfirst.
    apply (countLinkedCoords_chain h a l [] fuel Ha); simpl;
      [assumption | unfold INT_MAX; lia | lia].
Qed.

Lemma C9_witness :
  chain lgp_next (polygons heap_one) (Some 1%positive) [1%positive] /\
  countLinkedPolygons 3 (Some 1%positive) heap_one = Ok 1 heap_one /\
  countLinkedLoops 3 (Some 1%positive) heap_one = Ok 1 heap_one /\
  countLinkedCoords 3 (Some 1%positive) heap_one = Ok 1 heap_one.
Proof.
  assert (Hp : chain lgp_next (polygons heap_one) (Some 1%positive)
                 [1%positive]).
  { simpl. split; [reflexivity|]. eexists. split; reflexivity. }
  destruct (C9_counts_pure_chain_length 3 heap_one)
    as (_ & _ & _ & Hpoly & Hloop & Hcoord & _).
  split; [exact Hp|]. split; [|split].
  - apply (Hpoly (Some 1%positive) [1%positive] Hp); simpl;
      [unfold INT_MAX|]; lia.
  - apply (Hloop 1%positive _ [1%positive] eq_refl); simpl;
      [split; [reflexivity|]; eexists; split; reflexivity
      | unfold INT_MAX; lia | lia].
  - apply (Hcoord 1%positive _ [1%positive] eq_refl); simpl;
      [split; [reflexivity|]; eexists; split; reflexivity
      | unfold INT_MAX; lia | lia].
Defined.

(** ** Sequences of appends *)

Lemma addNewLinkedPolygon_chain h p ps cur :
  chain lgp_next (polygons h) p (ps ++ [cur]) ->
  exists q h',
    addNewLinkedPolygon (Some cur) h = Ok (Some q) h' /\
    chain lgp_next (polygons h') p ((ps ++ [cur]) ++ [q]).
Proof.
  intros Hch.
  assert (Hin : cur ∈ ps ++ [cur]) by (apply elem_of_app; right; left).
  destruct (chain_allocated _ _ _ _ _ Hch Hin) as [g Hg].
  pose proof (chain_last_next _ _ _ _ _ _ Hch (last_snoc _ _) Hg) as Hnext.
  pose proof (fresh_ne_allocated (polygons h) cur (mk_is_Some _ _ Hg)) as Hne.
  eexists. eexists. split; [apply (addNewLinkedPolygon_Ok h cur g Hg Hnext)|].
  simpl. eapply chain_append.
  - exact Hch.
  - apply last_snoc.
  - intros a Ha Hac. rewrite lookup_insert_ne by congruence.
    apply lookup_insert_ne.
    intros <-. apply (chain_allocated _ _ _ _ _ Hch) in Ha.
    rewrite fresh_not_allocated in Ha. now destruct Ha.
  - eexists. split; [apply lookup_insert_eq | reflexivity].
  - simpl. split; [reflexivity|]. eexists.
    split; [rewrite lookup_insert_ne by congruence; apply lookup_insert_eq|].
    reflexivity.
Qed.

Lemma addNewLinkedPolygons_chain k :
  forall h p ps cur,
    chain lgp_next (polygons h) p (ps ++ [cur]) ->
    exists q h' qs,
      addNewLinkedPolygons k (Some cur) h = Ok (Some q) h' /\
      chain lgp_next (polygons h') p (ps ++ cur :: qs) /\
      length qs = k /\ last (cur :: qs) = Some q.
Proof.
  induction k as [|k IH]; intros h p ps cur Hch.
  - exists cur, h, []. simpl. auto.
  - destruct (addNewLinkedPolygon_chain h p ps cur Hch)
      as (q & h1 & Hrun & Hch1).
    destruct (IH h1 p (ps ++ [cur]) q Hch1) as (r & h' & qs & Hrun' & Hch' & Hlen & Hlast).
    exists r, h', (q :: qs). simpl addNewLinkedPolygons.
    rewrite (bind_Ok _ _ _ _ _ Hrun). split; [exact Hrun'|].
    rewrite <- app_assoc in Hch'. simpl in Hch'. split; [exact Hch'|].
    split; [simpl; lia|]. rewrite last_cons_cons. exact Hlast.
Qed.

(** C6: [k] calls of [addNewLinkedPolygon], the first on a polygon [p]
    allocated by the caller (its [next] is NULL) and each later one on the
    polygon the call before returned, all complete, and
    [countLinkedPolygons] on [p] then returns [k + 1].  The count is a C
    [int], so the statement is for [k + 1 <= INT_MAX]. *)
Theorem C6_countLinkedPolygons_after_k_adds (k fuel : nat) (h : heap)
    (p : loc) (g : LinkedGeoPolygon) :
  polygons h !! p = Some g -> lgp_next g = None ->
  Z.of_nat k + 1 <= INT_MAX -> (k + 1 <= fuel)%nat ->
  exists q h',
    addNewLinkedPolygons k (Some p) h = Ok q h' /\
    countLinkedPolygons fuel (Some p) h' = Ok (Z.of_nat k + 1) h'.
Proof.
  intros Hp Hnext Hmax Hfuel.
  assert (Hch : chain lgp_next (polygons h) (Some p) ([] ++ [p])).
  { simpl. split; [reflexivity|]. exists g. auto. }
  destruct (addNewLinkedPolygons_chain k h (Some p) [] p Hch)
    as (q & h' & qs & Hrun & Hch' & Hlen & _).
  exists (Some q), h'. split; [exact Hrun|].
  rewrite (countLinkedPolygons_chain h' (Some p) _ fuel Hch');
    simpl length; rewrite ?Hlen; try lia.
  f_equal. lia.
Qed.

Lemma C6_witness :
  polygons heap_fresh !! 1%positive = Some zero_polygon /\
  exists q h',
    addNewLinkedPolygons 3 (Some 1%positive) heap_fresh = Ok q h' /\
    countLinkedPolygons 4 (Some 1%positive) h' = Ok 4 h'.
Proof.
  split; [reflexivity|].
  apply (C6_countLinkedPolygons_after_k_adds 3 4 heap_fresh 1%positive
           zero_polygon eq_refl eq_refl); [unfold INT_MAX|]; simpl; lia.
Defined.

Lemma addLinkedCoord_loop_holds h a cs vs v :
  loop_holds h a cs vs ->
  exists c h',
    addLinkedCoord (Some a) v h = Ok (Some c) h' /\
    loop_holds h' a (cs ++ [c]) (vs ++ [v]).
Proof.
  intros (l & Ha & Hch & Hlast & Hvs).
  pose proof (fresh_not_allocated (coords h)) as Hfresh.
  assert (Hkeep : forall c' v',
    lgc_vertex <$> coords h !! c' = Some v' ->
    c' <> fresh (dom (coords h))).
  { intros c' v' Hc' ->. rewrite Hfresh in Hc'. discriminate. }
  destruct (last cs) as [b|] eqn:Hb.
  - assert (Hin : b ∈ cs) by now apply last_Some_elem_of.
    destruct (chain_allocated _ _ _ _ _ Hch Hin) as [cb Hcb].
    pose proof (fresh_ne_allocated (coords h) b (mk_is_Some _ _ Hcb)) as Hne.
    eexists. eexists.
    split; [apply (addLinkedCoord_next_Ok h a l b cb v Ha Hlast Hcb)|].
    eexists. simpl. split; [apply lookup_insert_eq|]. simpl.
    split; [|split].
    + eapply chain_append.
      * exact Hch.
      * exact Hb.
      * intros a' Ha' Hne'. rewrite lookup_insert_ne by congruence.
        apply lookup_insert_ne. intros <-.
        apply (chain_allocated _ _ _ _ _ Hch) in Ha'.
        rewrite Hfresh in Ha'. now destruct Ha'.
      * eexists. split; [apply lookup_insert_eq | reflexivity].
      * simpl. split; [reflexivity|]. eexists.
        split; [rewrite lookup_insert_ne by congruence;
                apply lookup_insert_eq|].
        reflexivity.
    + now rewrite last_snoc.
    + apply Forall2_app.
      * eapply Forall2_impl; [exact Hvs|]. intros c' v' Hc'.
        pose proof (Hkeep _ _ Hc') as Hc'ne.
        destruct (decide (c' = b)) as [->|Hcb'].
        -- rewrite lookup_insert_eq. simpl. rewrite Hcb in Hc'. exact Hc'.
        -- rewrite !lookup_insert_ne by congruence. exact Hc'.
      * constructor; [|constructor].
        rewrite lookup_insert_ne by congruence.
        now rewrite lookup_insert_eq.
  - apply last_None in Hb. subst cs. simpl in Hch.
    apply Forall2_nil_inv_l in Hvs. subst vs.
    eexists. eexists.
    split; [apply (addLinkedCoord_first_Ok h a l v Ha Hlast Hch)|].
    eexists. simpl. split; [apply lookup_insert_eq|]. simpl.
    split; [|split].
    + split; [reflexivity|]. eexists.
      split; [apply lookup_insert_eq | reflexivity].
    + reflexivity.
    + constructor; [|constructor]. now rewrite lookup_insert_eq.
Qed.

Lemma addLinkedCoords_loop_holds vs' :
  forall h a cs vs,
    loop_holds h a cs vs ->
    exists h' cs',
      addLinkedCoords (Some a) vs' h = Ok tt h' /\
      loop_holds h' a cs' (vs ++ vs').
Proof.
  induction vs' as [|v vs' IH]; intros h a cs vs Hrep.
  - exists h, cs. rewrite app_nil_r. split; [reflexivity | exact Hrep].
  - destruct (addLinkedCoord_loop_holds h a cs vs v Hrep)
      as (c & h1 & Hrun & Hrep1).
    destruct (IH h1 a _ _ Hrep1) as (h' & cs' & Hrun' & Hrep').
    exists h', cs'. simpl. rewrite (bind_Ok _ _ _ _ _ Hrun).
    rewrite <- app_assoc in Hrep'. auto.
Qed.

Lemma readLinkedCoords_while_chain h cs :
  forall p vs fuel,
    chain lgc_next (coords h) p cs ->
    Forall2 (fun c v => lgc_vertex <$> coords h !! c = Some v) cs vs ->
    (length cs <= fuel)%nat ->
    readLinkedCoords_while fuel p h = Ok vs h.
Proof.
  induction cs as [|a cs IH]; intros p vs fuel Hch Hvs Hfuel.
  - simpl in Hch. subst p. apply Forall2_nil_inv_l in Hvs. subst vs.
    destruct fuel; reflexivity.
  - destruct Hch as [-> (c & Hc & Hch)].
    apply Forall2_cons_inv_l in Hvs as (v & vs' & Hv & Hvs & ->).
    simpl in Hfuel. destruct fuel as [|fuel]; [lia|]. simpl.
    rewrite (bind_Ok _ _ _ _ _ (load_coord_Ok _ _ _ Hc)).
    rewrite (bind_Ok _ _ _ _ _ (IH _ vs' fuel Hch Hvs ltac:(lia))).
    rewrite Hc in Hv. simpl in Hv. injection Hv as ->. reflexivity.
Qed.

(** C1: [N] calls of [addLinkedCoord] on a fresh loop (its [first] and
    [last] are NULL) with the points [vs] all complete; afterwards a forward
    read of the chain from [first] through [next] yields exactly [vs], in
    the order of the calls, and [countLinkedCoords] returns [N].  The count
    is a C [int], so that part is for [N <= INT_MAX]. *)
Theorem C1_append_then_count_and_read (h : heap) (a : loc)
    (l : LinkedGeoLoop) (vs : list GeoCoord) (fuel : nat) :
  loops h !! a = Some l -> lgl_first l = None -> lgl_last l = None ->
  (length vs <= fuel)%nat ->
  exists h',
    addLinkedCoords (Some a) vs h = Ok tt h' /\
    readLinkedCoords fuel (Some a) h' = Ok vs h' /\
    (Z.of_nat (length vs) <= INT_MAX ->
     countLinkedCoords fuel (Some a) h' = Ok (Z.of_nat (length vs)) h').
Proof.
  intros Ha Hfirst Hlast Hfuel.
  assert (Hrep : loop_holds h a [] []).
  { exists l. simpl. repeat split; auto. }
  destruct (addLinkedCoords_loop_holds vs h a [] [] Hrep)
    as (h' & cs & Hrun & (l' & Ha' & Hch & _ & Hvs)).
  simpl in Hvs. pose proof (Forall2_length _ _ _ Hvs) as Hlen.
  exists h'. split; [exact Hrun|]. split.
  - unfold readLinkedCoords.
    rewrite (bind_Ok _ _ _ _ _ (load_loop_Ok _ _ _ Ha')).
    apply readLinkedCoords_while_chain with (cs := cs); auto. lia.
  - intros Hmax. rewrite <- Hlen.
    apply (countLinkedCoords_chain h' a l' cs fuel Ha' Hch); lia.
Qed.

Lemma C1_witness :
  loops heap_fresh !! 1%positive = Some zero_loop /\
  exists h',
    addLinkedCoords (Some 1%positive) [pt 0 0; pt 1 0; pt 1 1] heap_fresh
      = Ok tt h' /\
    readLinkedCoords 3 (Some 1%positive) h'
      = Ok [pt 0 0; pt 1 0; pt 1 1] h' /\
    countLinkedCoords 3 (Some 1%positive) h' = Ok 3 h'.
Proof.
  split; [reflexivity|].
  destruct (C1_append_then_count_and_read heap_fresh 1%positive zero_loop
              [pt 0 0; pt 1 0; pt 1 1] 3 eq_refl eq_refl eq_refl)
    as (h' & Hrun & Hread & Hcount); [simpl; lia|].
  exists h'. split; [exact Hrun|]. split; [exact Hread|].
  apply Hcount. unfold INT_MAX. simpl. lia.
Defined.

(** ** Emptiness of fresh list heads *)

Lemma addNewLinkedLoop_Ok h p g :
  polygons h !! p = Some g -> polygon_head_ok h g ->
  exists h',
    addNewLinkedLoop (Some p) h = Ok (Some (fresh (dom (loops h)))) h' /\
    loops h' !! fresh (dom (loops h)) = Some (mkLoop None None None) /\
    polygons h' !! p
      = Some (mkPolygon
                (match lgp_last g with
                 | None => Some (fresh (dom (loops h)))
                 | Some _ => lgp_first g
                 end)
                (Some (fresh (dom (loops h)))) (lgp_next g)).
Proof.
  intros Hp Hok. rewrite addNewLinkedLoop_unfold. unfold polygon_head_ok in Hok.
  destruct (lgp_last g) as [b|] eqn:Hlast.
  - destruct Hok as [lb Hb].
    pose proof (fresh_ne_allocated (loops h) b (mk_is_Some _ _ Hb)) as Hne.
    eexists. split.
    + eapply addLinkedLoop_next_Ok; simpl; try eassumption.
      rewrite lookup_insert_ne by congruence. exact Hb.
    + simpl. split; [|apply lookup_insert_eq].
      rewrite lookup_insert_ne by congruence. apply lookup_insert_eq.
  - eexists. split.
    + eapply addLinkedLoop_first_Ok; simpl; eassumption.
    + simpl. split; [apply lookup_insert_eq|apply lookup_insert_eq].
Qed.



(** ** The tail pointer after an append *)

Lemma addLinkedLoop_Ok h p g loop :
  polygons h !! p = Some g -> polygon_head_ok h g ->
  exists h' g',
    addLinkedLoop (Some p) loop h = Ok loop h' /\
    polygons h' !! p = Some g' /\ lgp_last g' = loop /\
    lgp_first g' = match lgp_last g with
                   | None => loop
                   | Some _ => lgp_first g
                   end /\
    (forall x, lgp_last g <> Some x -> loops h' !! x = loops h !! x) /\
    (forall x lx, lgp_last g = Some x -> loops h !! x = Some lx ->
                  loops h' !! x = Some (with_lgl_next loop lx)).
Proof.
  intros Hp Hok. unfold polygon_head_ok in Hok.
  destruct (lgp_last g) as [b|] eqn:Hlast.
  - destruct Hok as [lb Hb]. eexists. eexists.
    split; [apply (addLinkedLoop_next_Ok h p g b lb loop Hp Hlast Hb)|].
    simpl. split; [apply lookup_insert_eq|]. simpl.
    split; [reflexivity|]. split; [reflexivity|]. split.
    + intros x Hx. apply lookup_insert_ne. congruence.
    + intros x lx [= <-] Hlx. rewrite Hb in Hlx. injection Hlx as <-.
      apply lookup_insert_eq.
  - eexists. eexists.
    split; [apply (addLinkedLoop_first_Ok h p g loop Hp Hlast Hok)|].
    simpl. split; [apply lookup_insert_eq|]. simpl.
    split; [reflexivity|]. split; [reflexivity|]. split.
    + reflexivity.
    + discriminate.
Qed.

(** C7, the claim as stated fails: attaching the loop at 1, whose [next]
    points to the loop at 2, to the empty polygon leaves [last] pointing to
    a loop whose [next] is not NULL. *)
Lemma C7_counterexample :
  ~ addLinkedLoop_last_next_null heap_chain 1%positive (Some 1%positive).
Proof.
  intros Hclaim.
  destruct (Hclaim (Some 1%positive)
              (mkHeap ∅ (loops heap_chain)
                 {[ 1%positive := mkPolygon (Some 1%positive)
                                    (Some 1%positive) None ]})
              eq_refl)
    as (g & b & lb & Hg & Hlast & Hb & Hnext).
  vm_compute in Hg. injection Hg as <-.
  simpl in Hlast. injection Hlast as <-.
  vm_compute in Hb. injection Hb as <-.
  discriminate Hnext.
Qed.

(** C7, as amended: after [addLinkedCoord] and after [addNewLinkedLoop] the
    head's [last] pointer points to the node that the call allocated and
    returned, and the [next] of that node is NULL.  After [addLinkedLoop] of
    an allocated loop [b] that is not already the polygon's last loop,
    [last] points to [b] and [b] is as it was at the call: its [next] is
    NULL after the call exactly when it was NULL before. *)
Theorem C7_last_next_after_append (h : heap) :
  (forall a l v,
     loops h !! a = Some l -> loop_head_ok h l ->
     exists c h' l',
       addLinkedCoord (Some a) v h = Ok (Some c) h' /\
       coords h !! c = None /\
       loops h' !! a = Some l' /\ lgl_last l' = Some c /\
       coords h' !! c = Some (mkCoord v None) /\
       loop_last_next_null h' a) /\
  (forall p g,
     polygons h !! p = Some g -> polygon_head_ok h g ->
     exists a h' g',
       addNewLinkedLoop (Some p) h = Ok (Some a) h' /\
       loops h !! a = None /\
       polygons h' !! p = Some g' /\ lgp_last g' = Some a /\
       loops h' !! a = Some (mkLoop None None None) /\
       polygon_last_next_null h' p) /\
  (forall p g b lb,
     polygons h !! p = Some g -> polygon_head_ok h g ->
     loops h !! b = Some lb -> lgp_last g <> Some b ->
     exists h' g',
       addLinkedLoop (Some p) (Some b) h = Ok (Some b) h' /\
       polygons h' !! p = Some g' /\ lgp_last g' = Some b /\
       loops h' !! b = Some lb /\
       (polygon_last_next_null h' p <-> lgl_next lb = None)).
Proof.
  repeat apply conj.
  - intros a l v Ha Hok. unfold loop_head_ok in Hok.
    pose proof (fresh_not_allocated (coords h)) as Hfresh.
    destruct (lgl_last l) as [b|] eqn:Hlast.
    + destruct Hok as [cb Hb].
      pose proof (fresh_ne_allocated (coords h) b (mk_is_Some _ _ Hb)) as Hne.
      assert (Hc : forall m : gmap loc LinkedGeoCoord,
                <[b := mkCoord (lgc_vertex cb)
                         (Some (fresh (dom (coords h))))]>
                  (<[fresh (dom (coords h)) := mkCoord v None]> m)
                  !! fresh (dom (coords h)) = Some (mkCoord v None)).
      { intros m. rewrite lookup_insert_ne by congruence.
        apply lookup_insert_eq. }
      eexists. eexists. eexists.
      split; [apply (addLinkedCoord_next_Ok h a l b cb v Ha Hlast Hb)|].
      simpl. split; [exact Hfresh|].
      split; [apply lookup_insert_eq|]. split; [reflexivity|].
      split; [apply Hc|].
      eexists. eexists. eexists. simpl.
      split; [apply lookup_insert_eq|]. simpl. split; [reflexivity|].
      split; [apply Hc|]. reflexivity.
    + eexists. eexists. eexists.
      split; [apply (addLinkedCoord_first_Ok h a l v Ha Hlast Hok)|].
      simpl. split; [exact Hfresh|].
      split; [apply lookup_insert_eq|]. split; [reflexivity|].
      split; [apply lookup_insert_eq|].
      eexists. eexists. eexists. simpl.
      split; [apply lookup_insert_eq|]. simpl. split; [reflexivity|].
      split; [apply lookup_insert_eq|]. reflexivity.
  - intros p g Hp Hok.
    destruct (addNewLinkedLoop_Ok h p g Hp Hok) as (h' & Hrun & Ha & Hp').
    eexists. exists h'. eexists. split; [exact Hrun|].
    split; [apply fresh_not_allocated|].
    split; [exact Hp'|]. split; [reflexivity|]. split; [exact Ha|].
    eexists. eexists. eexists. split; [exact Hp'|]. simpl.
    split; [reflexivity|]. split; [exact Ha|]. reflexivity.
  - intros p g b lb Hp Hok Hb Hne.
    destruct (addLinkedLoop_Ok h p g (Some b) Hp Hok)
      as (h' & g' & Hrun & Hp' & Hlast' & _ & Hframe & _).
    exists h', g'. split; [exact Hrun|]. split; [exact Hp'|].
    split; [exact Hlast'|].
    assert (Hb' : loops h' !! b = Some lb) by (rewrite Hframe; assumption).
    split; [exact Hb'|]. split.
    + intros (g2 & b2 & lb2 & Hg2 & Hl2 & Hb2 & Hn2).
      rewrite Hp' in Hg2. injection Hg2 as <-.
      rewrite Hlast' in Hl2. injection Hl2 as <-.
      rewrite Hb' in Hb2. injection Hb2 as <-. exact Hn2.
    + intros Hnext. exists g', b, lb. auto.
Qed.

Lemma C7_witness :
  polygons heap_one !! 1%positive
    = Some (mkPolygon (Some 1%positive) (Some 1%positive) None) /\
  polygon_head_ok heap_one
    (mkPolygon (Some 1%positive) (Some 1%positive) None) /\
  loops heap_one !! 1%positive
    = Some (mkLoop (Some 1%positive) (Some 1%positive) None) /\
  loop_head_ok heap_one (mkLoop (Some 1%positive) (Some 1%positive) None) /\
  (exists a h' g',
     addNewLinkedLoop (Some 1%positive) heap_one = Ok (Some a) h' /\
     loops heap_one !! a = None /\
     polygons h' !! 1%positive = Some g' /\ lgp_last g' = Some a /\
     loops h' !! a = Some (mkLoop None None None) /\
     polygon_last_next_null h' 1%positive) /\
  (exists c h' l',
     addLinkedCoord (Some 1%positive) (pt 1 0) heap_one = Ok (Some c) h' /\
     coords heap_one !! c = None /\
     loops h' !! 1%positive = Some l' /\ lgl_last l' = Some c /\
     coords h' !! c = Some (mkCoord (pt 1 0) None) /\
     loop_last_next_null h' 1%positive).
Proof.
  assert (Hok : polygon_head_ok heap_one
                  (mkPolygon (Some 1%positive) (Some 1%positive) None)).
  { unfold polygon_head_ok. simpl. eexists. reflexivity. }
  assert (Hlok : loop_head_ok heap_one
                   (mkLoop (Some 1%positive) (Some 1%positive) None)).
  { unfold loop_head_ok. simpl. eexists. reflexivity. }
  split; [reflexivity|]. split; [exact Hok|].
  split; [reflexivity|]. split; [exact Hlok|].
  destruct (C7_last_next_after_append heap_one) as (Hcoord & Hnew & _).
  split.
  - exact (Hnew 1%positive _ eq_refl Hok).
  - exact (Hcoord 1%positive _ (pt 1 0) eq_refl Hlok).
Defined.

(** ** [addLinkedLoop] and the [next] field of the loop it attaches *)

(** C10, the claim as stated fails: when the loop attached is already the
    polygon's last loop, the assignment [last->next = loop] writes the
    loop's own [next] field.  Here the loop at 1 heads the chain 1, 2 and is
    the last loop of the polygon; attaching it again makes it its own
    successor, and the loop at 2 is no longer on its chain. *)
Lemma C10_counterexample :
  ~ addLinkedLoop_keeps_next heap_attached 1%positive 1%positive.
Proof.
  intros Hclaim.
  destruct (Hclaim (mkLoop None None (Some 2%positive))
              (Some 1%positive)
              (mkHeap ∅
                 {[ 1%positive := mkLoop None None (Some 1%positive);
                    2%positive := zero_loop ]}
                 (polygons heap_attached))
              eq_refl ltac:(discriminate) eq_refl)
    as (lb' & Hb & Hnext).
  vm_compute in Hb. injection Hb as <-. discriminate Hnext.
Qed.

(** C10, as amended: [addLinkedLoop] writes one loop object at most, the
    one the polygon's [last] pointed to at the call, and never reads the
    loop it attaches.  So for every polygon [p] that is a usable list head
    and every loop pointer [loop]: [p->last] ends up equal to [loop]; the
    [next] of the old last loop, or [p->first] when there was no last loop,
    ends up equal to [loop]; and every loop other than the old last is as
    it was.  When the old last is not a node of the chain [ls] that starts
    at [loop], that chain is unchanged after the call, and [p->last] is its
    head, which is not its tail when the head's [next] is not NULL.  When
    in addition the loop chain of [p] from [p->first] ends in NULL with
    [p->last] pointing to its last loop, the chain read from [p->first]
    after the call is the old chain of [p] followed by [ls]. *)
Theorem C10_addLinkedLoop_ignores_loop_next (h : heap) (p : loc)
    (g : LinkedGeoPolygon) (loop : ptr) :
  polygons h !! p = Some g -> polygon_head_ok h g ->
  exists h' g',
    addLinkedLoop (Some p) loop h = Ok loop h' /\
    polygons h' !! p = Some g' /\ lgp_last g' = loop /\
    (forall x, lgp_last g <> Some x -> loops h' !! x = loops h !! x) /\
    (lgp_last g = None -> lgp_first g' = loop) /\
    (forall x lx,
       lgp_last g = Some x -> loops h !! x = Some lx ->
       lgp_first g' = lgp_first g /\
       loops h' !! x = Some (mkLoop (lgl_first lx) (lgl_last lx) loop)) /\
    (forall b ls,
       loop = Some b ->
       chain lgl_next (loops h) (Some b) ls ->
       (forall x, lgp_last g = Some x -> x ∉ ls) ->
       (forall x, x ∈ ls -> loops h' !! x = loops h !! x) /\
       chain lgl_next (loops h') (Some b) ls /\
       (forall ps,
          chain lgl_next (loops h) (lgp_first g) ps ->
          lgp_last g = last ps ->
          chain lgl_next (loops h') (lgp_first g') (ps ++ ls)) /\
       (forall lb,
          loops h !! b = Some lb -> lgl_next lb <> None ->
          last ls <> Some b)).
Proof.
  intros Hp Hok.
  destruct (addLinkedLoop_Ok h p g loop Hp Hok)
    as (h' & g' & Hrun & Hp' & Hlast' & Hfirst' & Hframe & Hlink).
  exists h', g'. split; [exact Hrun|]. split; [exact Hp'|].
  split; [exact Hlast'|]. split; [exact Hframe|].
  split; [intros Hnone; now rewrite Hfirst', Hnone|].
  split.
  { intros x lx Hx Hlx. split; [now rewrite Hfirst', Hx|].
    exact (Hlink x lx Hx Hlx). }
  intros b ls -> Hls Hnotin.
  assert (Hsame : forall x, x ∈ ls -> loops h' !! x = loops h !! x).
  { intros x Hx. apply Hframe. intros Hl. exact (Hnotin x Hl Hx). }
  assert (Hls' : chain lgl_next (loops h') (Some b) ls).
  { eapply chain_agree; [|exact Hls]. exact Hsame. }
  split; [exact Hsame|]. split; [exact Hls'|]. split.
  - intros ps Hps Hlast. rewrite Hfirst'.
    destruct (lgp_last g) as [x|] eqn:Hx.
    + assert (Hin : x ∈ ps) by (apply last_Some_elem_of; congruence).
      destruct (chain_allocated _ _ _ _ _ Hps Hin) as [lx Hlx].
      eapply chain_append.
      * exact Hps.
      * symmetry. exact Hlast.
      * intros a _ Hne. apply Hframe. congruence.
      * exists (with_lgl_next (Some b) lx).
        split; [apply (Hlink x lx eq_refl Hlx) | reflexivity].
      * exact Hls'.
    + symmetry in Hlast. apply last_None in Hlast. subst ps. exact Hls'.
  - intros lb Hb Hnext Hlast.
    apply Hnext. exact (chain_last_next _ _ _ _ _ _ Hls Hlast Hb).
Qed.

Lemma C10_witness :
  polygons heap_chain_after_one !! 1%positive
    = Some (mkPolygon (Some 1%positive) (Some 1%positive) None) /\
  polygon_head_ok heap_chain_after_one
    (mkPolygon (Some 1%positive) (Some 1%positive) None) /\
  chain lgl_next (loops heap_chain_after_one) (Some 2%positive)
    [2%positive; 3%positive] /\
  exists h' g',
    addLinkedLoop (Some 1%positive) (Some 2%positive) heap_chain_after_one
      = Ok (Some 2%positive) h' /\
    polygons h' !! 1%positive = Some g' /\
    lgp_last g' = Some 2%positive /\
    loops h' !! 1%positive
      = Some (mkLoop None None (Some 2%positive)) /\
    loops h' !! 2%positive = loops heap_chain_after_one !! 2%positive /\
    chain lgl_next (loops h') (lgp_first g')
      [1%positive; 2%positive; 3%positive] /\
    last [2%positive; 3%positive] <> Some 2%positive.
Proof.
  assert (Hok' : polygon_head_ok heap_chain_after_one
                   (mkPolygon (Some 1%positive) (Some 1%positive) None)).
  { unfold polygon_head_ok. simpl. eexists. reflexivity. }
  assert (Hls : chain lgl_next (loops heap_chain_after_one)
                  (Some 2%positive) [2%positive; 3%positive]).
  { simpl. split; [reflexivity|]. eexists. split; [reflexivity|]. simpl.
    split; [reflexivity|]. eexists. split; reflexivity. }
  split; [reflexivity|]. split; [exact Hok'|]. split; [exact Hls|].
  destruct (C10_addLinkedLoop_ignores_loop_next heap_chain_after_one
              1%positive _ (Some 2%positive) eq_refl Hok')
    as (h' & g' & Hrun & Hp' & Hlast' & _ & _ & Hlink & Hchain).
  destruct (Hlink 1%positive _ eq_refl eq_refl) as [_ Hold].
  destruct (Hchain 2%positive [2%positive; 3%positive] eq_refl Hls)
    as (Hsame & _ & Happ & Htail).
  { intros x [= <-] Hx.
    repeat (apply elem_of_cons in Hx as [Hx|Hx]; [discriminate|]).
    now apply not_elem_of_nil in Hx. }
  exists h', g'. split; [exact Hrun|]. split; [exact Hp'|].
  split; [exact Hlast'|]. split; [exact Hold|].
  split; [apply Hsame; left|]. split.
  - apply (Happ [1%positive]); [|reflexivity].
    simpl. split; [reflexivity|]. eexists. split; reflexivity.
  - apply (Htail _ eq_refl). discriminate.
Defined.

(** ** Destruction *)

Lemma destroyLinkedGeoLoop_for_chain cs :
  forall h p fuel,
    chain lgc_next (coords h) p cs -> (length cs <= fuel)%nat ->
    destroyLinkedGeoLoop_for fuel p h
      = Ok tt (mkHeap (delete_all cs (coords h)) (loops h) (polygons h)).
Proof.
  induction cs as [|a cs IH]; intros h p fuel Hch Hfuel.
  - simpl in Hch. subst p. destruct h. destruct fuel; reflexivity.
  - pose proof (chain_NoDup _ _ _ _ Hch) as Hnd.
    apply NoDup_cons in Hnd as [Hnotin _].
    destruct Hch as [-> (c & Hc & Hch)].
    simpl in Hfuel. destruct fuel as [|fuel]; [lia|]. simpl.
    rewrite (bind_Ok _ _ _ _ _ (load_coord_Ok _ _ _ Hc)).
    rewrite (bind_Ok _ _ _ _ _ (free_coord_Ok _ _ _ Hc)).
    rewrite (IH (set_coords (delete a) h) (lgc_next c) fuel);
      [reflexivity | | lia].
    simpl. eapply chain_agree; [|exact Hch].
    intros b Hb. apply lookup_delete_ne. congruence.
Qed.

Lemma loop_ok_agree h h' lc :
  loops h' !! fst lc = loops h !! fst lc ->
  (forall c, c ∈ snd lc -> coords h' !! c = coords h !! c) ->
  loop_ok h lc -> loop_ok h' lc.
Proof.
  intros Hl Hc (l & Hlc & Hch). exists l. split; [congruence|].
  eapply chain_agree; eassumption.
Qed.

Lemma elem_of_loops_coords c ls :
  c ∈ loops_coords ls <-> exists lc, lc ∈ ls /\ c ∈ snd lc.
Proof.
  unfold loops_coords. rewrite list_elem_of_bind.
  split; intros (lc & H1 & H2); exists lc; auto.
Qed.

Lemma polygon_ok_agree h h' pg :
  polygons h' !! fst pg = polygons h !! fst pg ->
  (forall b, b ∈ polygon_loops pg -> loops h' !! b = loops h !! b) ->
  (forall c, c ∈ loops_coords (snd pg) -> coords h' !! c = coords h !! c) ->
  polygon_ok h pg -> polygon_ok h' pg.
Proof.
  intros Hp Hl Hc (g & Hg & Hch & Hall). exists g. split; [congruence|].
  split; [eapply chain_agree; eassumption|].
  apply Forall_forall. intros lc Hlc.
  rewrite Forall_forall in Hall.
  apply (loop_ok_agree h); [| |auto].
  - apply Hl. unfold polygon_loops. apply list_elem_of_fmap. now exists lc.
  - intros c Hin. apply Hc. apply elem_of_loops_coords. now exists lc.
Qed.

Lemma destroyLinkedPolygon_loops_chain fuel ls :
  forall h p n,
    chain lgl_next (loops h) p (ls.*1) ->
    Forall (loop_ok h) ls ->
    NoDup (loops_coords ls) ->
    (length ls <= n)%nat -> (length (loops_coords ls) <= fuel)%nat ->
    destroyLinkedPolygon_loops fuel n p h
      = Ok tt (mkHeap (delete_all (loops_coords ls) (coords h))
                 (delete_all (ls.*1) (loops h)) (polygons h)).
Proof.
  induction ls as [|[a cs] ls IH]; intros h p n Hch Hall Hnd Hn Hfuel.
  - simpl in Hch. subst p. destruct h. destruct n; reflexivity.
  - pose proof (chain_NoDup _ _ _ _ Hch) as Hndl.
    simpl in Hndl. apply NoDup_cons in Hndl as [Hnotin _].
    destruct Hch as [-> (l & Hl & Hch)].
    apply Forall_cons in Hall as [(l' & Hl' & Hcs) Hall].
    simpl in Hl, Hl', Hcs. rewrite Hl in Hl'. injection Hl' as <-.
    unfold loops_coords in Hnd, Hfuel. rewrite bind_cons in Hnd, Hfuel.
    simpl in Hnd, Hfuel. fold (loops_coords ls) in Hnd, Hfuel.
    apply NoDup_app in Hnd as (_ & Hdisj & Hnd).
    rewrite length_app in Hfuel.
    simpl in Hn. destruct n as [|n]; [lia|]. simpl.
    assert (Hdl : destroyLinkedGeoLoop fuel (Some a) h
                  = Ok tt (mkHeap (delete_all cs (coords h)) (loops h)
                             (polygons h))).
    { unfold destroyLinkedGeoLoop.
      rewrite (bind_Ok _ _ _ _ _ (load_loop_Ok _ _ _ Hl)).
      apply destroyLinkedGeoLoop_for_chain; [exact Hcs | lia]. }
    rewrite (bind_Ok _ _ _ _ _ Hdl).
    erewrite bind_Ok; [|apply load_loop_Ok; exact Hl].
    erewrite bind_Ok; [|apply free_loop_Ok with (l := l); exact Hl].
    rewrite (IH _ (lgl_next l) n); simpl.
    + now rewrite delete_all_app.
    + eapply chain_agree; [|exact Hch].
      intros b Hb. apply lookup_delete_ne. intros ->. exact (Hnotin Hb).
    + apply Forall_forall. intros lc Hlc. rewrite Forall_forall in Hall.
      apply (loop_ok_agree h); [| |auto]; simpl.
      * apply lookup_delete_ne. intros ->. apply Hnotin.
        apply list_elem_of_fmap. now exists lc.
      * intros c Hc. rewrite lookup_delete_all.
        rewrite decide_False; [reflexivity|].
        intros Hin. apply (Hdisj c Hin).
        apply elem_of_loops_coords. now exists lc.
    + exact Hnd.
    + lia.
    + lia.
Qed.

Lemma destroyLinkedPolygon_for_structure fuel st :
  forall h p n skip,
    structure h p st ->
    (length st <= n)%nat ->
    (length (structure_loops st) <= fuel)%nat ->
    (length (structure_coords st) <= fuel)%nat ->
    destroyLinkedPolygon_for fuel n p skip h
      = Ok tt (mkHeap (delete_all (structure_coords st) (coords h))
                 (delete_all (structure_loops st) (loops h))
                 (delete_all (if skip then tail (structure_polygons st)
                              else structure_polygons st) (polygons h))).
Proof.
  induction st as [|[a ls] st IH];
    intros h p n skip (Hch & Hall & Hndl & Hndc) Hn Hfl Hfc.
  - simpl in Hch. subst p. destruct h. destruct n, skip; reflexivity.
  - pose proof (chain_NoDup _ _ _ _ Hch) as Hndp.
    simpl in Hndp. apply NoDup_cons in Hndp as [Hnotin _].
    destruct Hch as [-> (g & Hg & Hch)]. simpl in Hg.
    apply Forall_cons in Hall as [(g' & Hg' & Hls & Hlsok) Hall].
    simpl in Hg', Hls, Hlsok. rewrite Hg in Hg'. injection Hg' as <-.
    unfold structure_loops, structure_coords in Hndl, Hndc, Hfl, Hfc.
    rewrite bind_cons in Hndl, Hndc, Hfl, Hfc.
    fold (structure_loops st) in Hndl, Hfl.
    fold (structure_coords st) in Hndc, Hfc.
    simpl in Hndc, Hfc. unfold polygon_loops in Hndl, Hfl, Hls.
    simpl in Hndl, Hfl, Hls.
    apply NoDup_app in Hndl as (_ & Hdisjl & Hndl).
    apply NoDup_app in Hndc as (Hndc0 & Hdisjc & Hndc).
    rewrite length_app in Hfl, Hfc. rewrite length_fmap in Hfl.
    simpl in Hn. destruct n as [|n]; [lia|].
    simpl destroyLinkedPolygon_for.
    rewrite (bind_Ok _ _ _ _ _ (load_polygon_Ok _ _ _ Hg)).
    rewrite (bind_Ok _ _ _ _ _
               (destroyLinkedPolygon_loops_chain fuel ls h _ fuel Hls Hlsok
                  Hndc0 ltac:(lia) ltac:(lia))).
    erewrite bind_Ok; [|apply load_polygon_Ok; exact Hg].
    set (h1 := mkHeap (delete_all (loops_coords ls) (coords h))
                 (delete_all (ls.*1) (loops h)) (polygons h)).
    assert (Hstep : forall h2,
      coords h2 = coords h1 -> loops h2 = loops h1 ->
      (forall q, q <> a -> polygons h2 !! q = polygons h !! q) ->
      structure h2 (lgp_next g) st).
    { intros h2 Hc2 Hl2 Hp2. split; [|split; [|split]].
      - eapply chain_agree; [|exact Hch]. intros q Hq. apply Hp2.
        intros ->. exact (Hnotin Hq).
      - apply Forall_forall. intros pg Hpg. rewrite Forall_forall in Hall.
        apply (polygon_ok_agree h); [| | |auto].
        + apply Hp2. intros <-. apply Hnotin.
          apply list_elem_of_fmap. now exists pg.
        + intros b Hb. rewrite Hl2. simpl. rewrite lookup_delete_all.
          rewrite decide_False; [reflexivity|].
          intros Hin. apply (Hdisjl b Hin).
          apply list_elem_of_bind. now exists pg.
        + intros c Hc. rewrite Hc2. simpl. rewrite lookup_delete_all.
          rewrite decide_False; [reflexivity|].
          intros Hin. apply (Hdisjc c Hin).
          apply list_elem_of_bind. now exists pg.
      - exact Hndl.
      - exact Hndc. }
    destruct skip.
    + erewrite bind_Ok; [|reflexivity].
      rewrite (IH h1 (lgp_next g) n false); [| |lia|lia|lia].
      * simpl. now rewrite !delete_all_app.
      * apply Hstep; auto.
    + erewrite bind_Ok; [|apply free_polygon_Ok with (g := g); exact Hg].
      rewrite (IH _ (lgp_next g) n false); [| |lia|lia|lia].
      * simpl. now rewrite !delete_all_app.
      * apply Hstep; auto. intros q Hq. simpl.
        apply lookup_delete_ne. congruence.
Qed.

(** After [free], a read through the same pointer is undefined. *)
Lemma load_after_free_coord h a c :
  coords h !! a = Some c ->
  (run free_coord (Some a) then load_coord (Some a)) h = Undef.
Proof.
  intros Ha. rewrite (bind_Ok _ _ _ _ _ (free_coord_Ok _ _ _ Ha)).
  unfold load_coord. simpl. now rewrite lookup_delete_eq.
Qed.

Lemma load_after_free_loop h a l :
  loops h !! a = Some l ->
  (run free_loop (Some a) then load_loop (Some a)) h = Undef.
Proof.
  intros Ha. rewrite (bind_Ok _ _ _ _ _ (free_loop_Ok _ _ _ Ha)).
  unfold load_loop. simpl. now rewrite lookup_delete_eq.
Qed.

Lemma load_after_free_polygon h a g :
  polygons h !! a = Some g ->
  (run free_polygon (Some a) then load_polygon (Some a)) h = Undef.
Proof.
  intros Ha. rewrite (bind_Ok _ _ _ _ _ (free_polygon_Ok _ _ _ Ha)).
  unfold load_polygon. simpl. now rewrite lookup_delete_eq.
Qed.

Lemma structure_loop_allocated h p st b :
  structure h p st -> b ∈ structure_loops st -> is_Some (loops h !! b).
Proof.
  intros (_ & Hall & _ & _) Hb.
  apply list_elem_of_bind in Hb as (pg & Hb & Hpg).
  rewrite Forall_forall in Hall.
  destruct (Hall pg Hpg) as (g & _ & Hch & _).
  eapply chain_allocated; eassumption.
Qed.

Lemma structure_coord_allocated h p st c :
  structure h p st -> c ∈ structure_coords st -> is_Some (coords h !! c).
Proof.
  intros (_ & Hall & _ & _) Hc.
  apply list_elem_of_bind in Hc as (pg & Hc & Hpg).
  apply elem_of_loops_coords in Hc as (lc & Hlc & Hc).
  rewrite Forall_forall in Hall.
  destruct (Hall pg Hpg) as (g & _ & _ & Hloops).
  rewrite Forall_forall in Hloops.
  destruct (Hloops lc Hlc) as (l & _ & Hch).
  eapply chain_allocated; eassumption.
Qed.

(** C2: on a fully built structure (polygon, loop and coordinate chains
    that end in NULL and share no node) [destroyLinkedPolygon] completes
    without ever reading or freeing an object that is not allocated: a
    read of [next] from a node already released is undefined behaviour
    ([load_after_free_coord] and its siblings), so completion shows that
    every [next] was read before its node was released.  Afterwards every coordinate node, every loop and
    every polygon of the structure other than the input polygon has been
    released; the input polygon is still allocated, with its contents as
    they were; and no object outside the structure has been touched. *)
Theorem C2_destroyLinkedPolygon_releases (h : heap) (p : loc)
    (st : list polygon_desc) (fuel : nat) :
  structure h (Some p) st ->
  (length (structure_polygons st) <= fuel)%nat ->
  (length (structure_loops st) <= fuel)%nat ->
  (length (structure_coords st) <= fuel)%nat ->
  exists h',
    destroyLinkedPolygon fuel (Some p) h = Ok tt h' /\
    (forall c, c ∈ structure_coords st ->
               is_Some (coords h !! c) /\ coords h' !! c = None) /\
    (forall b, b ∈ structure_loops st ->
               is_Some (loops h !! b) /\ loops h' !! b = None) /\
    (forall q, q ∈ structure_polygons st -> q <> p ->
               is_Some (polygons h !! q) /\ polygons h' !! q = None) /\
    (p ∈ structure_polygons st /\ is_Some (polygons h !! p) /\
     polygons h' !! p = polygons h !! p) /\
    (forall c, c ∉ structure_coords st -> coords h' !! c = coords h !! c) /\
    (forall b, b ∉ structure_loops st -> loops h' !! b = loops h !! b) /\
    (forall q, q ∉ structure_polygons st ->
               polygons h' !! q = polygons h !! q).
Proof.
  intros Hst Hfp Hfl Hfc.
  unfold structure_polygons in Hfp. rewrite length_fmap in Hfp.
  eexists. split.
  { unfold destroyLinkedPolygon.
    apply (destroyLinkedPolygon_for_structure fuel st h (Some p) fuel true
             Hst Hfp Hfl Hfc). }
  simpl.
  pose proof Hst as (Hch & _).
  pose proof (chain_NoDup _ _ _ _ Hch) as Hnd.
  destruct st as [|[a ls] st]; [discriminate Hch|].
  unfold structure_polygons in *. simpl in Hch, Hnd |- *.
  destruct Hch as [[= <-] (g & Hg & Hch)].
  apply NoDup_cons in Hnd as [Hnotin _].
  repeat apply conj.
  - intros c Hc. split; [eapply structure_coord_allocated; eassumption|].
    rewrite lookup_delete_all. now rewrite decide_True.
  - intros b Hb. split; [eapply structure_loop_allocated; eassumption|].
    rewrite lookup_delete_all. now rewrite decide_True.
  - intros q Hq Hne. apply elem_of_cons in Hq as [->|Hq]; [congruence|].
    split; [eapply chain_allocated; eassumption|].
    rewrite lookup_delete_all. now rewrite decide_True.
  - left.
  - now exists g.
  - rewrite lookup_delete_all. now rewrite decide_False.
  - intros c Hc. rewrite lookup_delete_all. now rewrite decide_False.
  - intros b Hb. rewrite lookup_delete_all. now rewrite decide_False.
  - intros q Hq. rewrite lookup_delete_all. rewrite decide_False; [reflexivity|].
    intros Hin. apply Hq. now right.
Qed.

Lemma structure_two_polygons :
  structure heap_two_polygons (Some 1%positive) desc_two_polygons.
Proof.
  split; [|split; [|split]].
  - simpl. split; [reflexivity|]. eexists. split; [reflexivity|]. simpl.
    split; [reflexivity|]. eexists. split; reflexivity.
  - repeat constructor.
    + eexists. split; [reflexivity|]. simpl. split.
      * split; [reflexivity|]. eexists. split; reflexivity.
      * repeat constructor. eexists. split; [reflexivity|]. simpl.
        split; [reflexivity|]. eexists. split; [reflexivity|]. simpl.
        split; [reflexivity|]. eexists. split; [reflexivity|]. simpl.
        split; [reflexivity|]. eexists. split; reflexivity.
    + eexists. split; [reflexivity|]. simpl. split.
      * split; [reflexivity|]. eexists. split; reflexivity.
      * repeat constructor. eexists. split; [reflexivity|]. simpl.
        split; [reflexivity|]. eexists. split; reflexivity.
  - apply (bool_decide_unpack _). vm_compute. reflexivity.
  - apply (bool_decide_unpack _). vm_compute. reflexivity.
Defined.

Lemma C2_witness :
  structure heap_two_polygons (Some 1%positive) desc_two_polygons /\
  exists h',
    destroyLinkedPolygon 4 (Some 1%positive) heap_two_polygons = Ok tt h' /\
    polygons h' !! 1%positive = polygons heap_two_polygons !! 1%positive /\
    polygons h' !! 2%positive = None /\
    loops h' !! 1%positive = None /\ loops h' !! 2%positive = None /\
    coords h' !! 1%positive = None /\ coords h' !! 4%positive = None.
Proof.
  split; [exact structure_two_polygons|].
  destruct (C2_destroyLinkedPolygon_releases heap_two_polygons 1%positive
              desc_two_polygons 4 structure_two_polygons)
    as (h' & Hrun & Hc & Hl & Hp & (_ & _ & Hkeep) & _);
    [simpl; lia | simpl; lia | simpl; lia |].
  exists h'. split; [exact Hrun|]. split; [exact Hkeep|].
  split; [apply Hp; [right; left | discriminate]|].
  split; [apply Hl; left|]. split; [apply Hl; right; left|].
  split; [apply Hc; left|]. apply Hc. do 3 right. left.
Defined.

(** ** Appends on list heads that already hold nodes *)

Lemma addLinkedLoop_polygon_holds h p ls b lb :
  polygon_holds h p ls ->
  loops h !! b = Some lb -> lgl_next lb = None -> b ∉ ls ->
  exists h',
    addLinkedLoop (Some p) (Some b) h = Ok (Some b) h' /\
    polygon_holds h' p (ls ++ [b]) /\
    loops h' !! b = Some lb /\
    coords h' = coords h /\
    (forall q, q <> p -> polygons h' !! q = polygons h !! q) /\
    (forall a, a ∉ ls -> loops h' !! a = loops h !! a).
Proof.
  intros (g & Hp & Hch & Hlast) Hb Hnext Hnotin.
  destruct (last ls) as [x|] eqn:Hx.
  - assert (Hin : x ∈ ls) by now apply last_Some_elem_of.
    destruct (chain_allocated _ _ _ _ _ Hch Hin) as [lx Hlx].
    assert (Hxb : x <> b) by (intros ->; contradiction).
    eexists.
    split; [apply (addLinkedLoop_next_Ok h p g x lx (Some b) Hp Hlast Hlx)|].
    simpl. split; [|split; [|split; [|split]]].
    + eexists. split; [apply lookup_insert_eq|]. simpl. split.
      * eapply chain_append.
        -- exact Hch.
        -- exact Hx.
        -- intros a _ Hne. apply lookup_insert_ne. congruence.
        -- eexists. split; [apply lookup_insert_eq | reflexivity].
        -- simpl. split; [reflexivity|]. exists lb.
           split; [rewrite lookup_insert_ne by congruence; exact Hb|].
           exact Hnext.
      * now rewrite last_snoc.
    + rewrite lookup_insert_ne by congruence. exact Hb.
    + reflexivity.
    + intros q Hq. apply lookup_insert_ne. congruence.
    + intros a Ha. apply lookup_insert_ne. intros <-. contradiction.
  - apply last_None in Hx. subst ls. simpl in Hch.
    eexists.
    split; [apply (addLinkedLoop_first_Ok h p g (Some b) Hp Hlast Hch)|].
    simpl. split; [|split; [|split; [|split]]].
    + eexists. split; [apply lookup_insert_eq|]. simpl. split.
      * split; [reflexivity|]. exists lb. auto.
      * reflexivity.
    + exact Hb.
    + reflexivity.
    + intros q Hq. apply lookup_insert_ne. congruence.
    + reflexivity.
Qed.

Lemma addNewLinkedLoop_polygon_holds h p ls :
  polygon_holds h p ls ->
  exists a h',
    addNewLinkedLoop (Some p) h = Ok (Some a) h' /\
    loops h !! a = None /\
    polygon_holds h' p (ls ++ [a]) /\
    loops h' !! a = Some (mkLoop None None None) /\
    coords h' = coords h /\
    (forall q, q <> p -> polygons h' !! q = polygons h !! q) /\
    (forall b, b ∉ ls -> b <> a -> loops h' !! b = loops h !! b).
Proof.
  intros (g & Hp & Hch & Hlast).
  pose proof (fresh_not_allocated (loops h)) as Hfresh.
  set (a := fresh (dom (loops h))) in *.
  assert (Hnotin : a ∉ ls).
  { intros Hin. apply (chain_allocated _ _ _ _ _ Hch) in Hin.
    rewrite Hfresh in Hin. now destruct Hin. }
  set (h1 := mkHeap (coords h) (<[a := mkLoop None None None]> (loops h))
               (polygons h)).
  assert (Hholds : polygon_holds h1 p ls).
  { exists g. split; [exact Hp|]. split; [|exact Hlast].
    eapply chain_agree; [|exact Hch]. intros b Hb. simpl.
    apply lookup_insert_ne. intros <-. contradiction. }
  destruct (addLinkedLoop_polygon_holds h1 p ls a (mkLoop None None None)
              Hholds (lookup_insert_eq _ _ _) eq_refl Hnotin)
    as (h' & Hrun & Hholds' & Ha & Hc & Hpoly & Hloops).
  exists a, h'. rewrite addNewLinkedLoop_unfold. fold a. fold h1.
  split; [exact Hrun|]. split; [exact Hfresh|]. split; [exact Hholds'|].
  split; [exact Ha|]. split; [exact Hc|]. split; [exact Hpoly|].
  intros b Hb Hne. rewrite (Hloops b Hb). simpl.
  apply lookup_insert_ne. congruence.
Qed.

Lemma addNewLinkedLoops_polygon_holds m :
  forall h p ls,
    polygon_holds h p ls ->
    exists new h',
      addNewLinkedLoops m (Some p) h = Ok (Some <$> new) h' /\
      length new = m /\
      polygon_holds h' p (ls ++ new).
Proof.
  induction m as [|m IH]; intros h p ls Hholds.
  - exists [], h. rewrite app_nil_r. auto.
  - destruct (addNewLinkedLoop_polygon_holds h p ls Hholds)
      as (a & h1 & Hrun & _ & Hholds1 & _).
    destruct (IH h1 p _ Hholds1) as (new & h' & Hrun' & Hlen & Hholds').
    exists (a :: new), h'. simpl addNewLinkedLoops.
    rewrite (bind_Ok _ _ _ _ _ Hrun). rewrite (bind_Ok _ _ _ _ _ Hrun').
    rewrite <- app_assoc in Hholds'. simpl. auto.
Qed.

(** X1: on a polygon that is a well-formed list head with the loops [ls],
    [m] calls of [addNewLinkedLoop] all complete; the loops they return
    follow [ls] on the polygon's chain in the order of the calls, the head
    stays well formed, and [countLinkedLoops] then returns the old number
    of loops plus [m] (a C [int]: for a total of at most [INT_MAX]). *)
Theorem X1_addNewLinkedLoops_in_call_order (h : heap) (p : loc)
    (ls : list loc) (m fuel : nat) :
  polygon_holds h p ls ->
  (length ls + m <= fuel)%nat ->
  exists new h',
    addNewLinkedLoops m (Some p) h = Ok (Some <$> new) h' /\
    length new = m /\
    polygon_holds h' p (ls ++ new) /\
    (Z.of_nat (length ls + m) <= INT_MAX ->
     countLinkedLoops fuel (Some p) h' = Ok (Z.of_nat (length ls + m)) h').
Proof.
  intros Hholds Hfuel.
  destruct (addNewLinkedLoops_polygon_holds m h p ls Hholds)
    as (new & h' & Hrun & Hlen & Hholds').
  exists new, h'. split; [exact Hrun|]. split; [exact Hlen|].
  split; [exact Hholds'|]. intros Hmax.
  destruct Hholds' as (g & Hp & Hch & _).
  rewrite (countLinkedLoops_chain h' p g _ fuel Hp Hch);
    rewrite ?length_app, ?Hlen; [reflexivity | lia | lia].
Qed.

Lemma X1_witness :
  polygon_holds heap_one 1%positive [1%positive] /\
  exists new h',
    addNewLinkedLoops 2 (Some 1%positive) heap_one = Ok (Some <$> new) h' /\
    length new = 2%nat /\
    polygon_holds h' 1%positive ([1%positive] ++ new) /\
    countLinkedLoops 3 (Some 1%positive) h' = Ok 3 h'.
Proof.
  assert (Hholds : polygon_holds heap_one 1%positive [1%positive]).
  { eexists. split; [reflexivity|]. simpl. split; [|reflexivity].
    split; [reflexivity|]. eexists. split; reflexivity. }
  split; [exact Hholds|].
  destruct (X1_addNewLinkedLoops_in_call_order heap_one 1%positive
              [1%positive] 2 3 Hholds)
    as (new & h' & Hrun & Hlen & Hholds' & Hcount); [simpl; lia|].
  exists new, h'. split; [exact Hrun|]. split; [exact Hlen|].
  split; [exact Hholds'|]. apply Hcount. unfold INT_MAX. simpl. lia.
Defined.

(** X2: [addLinkedLoop] used as intended.  Attaching an allocated loop
    whose [next] is NULL and that is not yet on the polygon's chain puts it
    at the tail of the chain, keeps the polygon a well-formed list head,
    and changes neither the loop attached nor any coordinate. *)
Theorem X2_addLinkedLoop_appends_unattached_loop (h : heap) (p : loc)
    (ls : list loc) (b : loc) (lb : LinkedGeoLoop) :
  polygon_holds h p ls ->
  loops h !! b = Some lb -> lgl_next lb = None -> b ∉ ls ->
  exists h',
    addLinkedLoop (Some p) (Some b) h = Ok (Some b) h' /\
    polygon_holds h' p (ls ++ [b]) /\
    loops h' !! b = Some lb /\
    coords h' = coords h.
Proof.
  intros Hholds Hb Hnext Hnotin.
  destruct (addLinkedLoop_polygon_holds h p ls b lb Hholds Hb Hnext Hnotin)
    as (h' & Hrun & Hholds' & Hb' & Hc & _).
  exists h'. auto.
Qed.

Lemma X2_witness :
  polygon_holds heap_fresh 1%positive [] /\
  exists h',
    addLinkedLoop (Some 1%positive) (Some 1%positive) heap_fresh
      = Ok (Some 1%positive) h' /\
    polygon_holds h' 1%positive [1%positive] /\
    loops h' !! 1%positive = Some zero_loop.
Proof.
  assert (Hholds : polygon_holds heap_fresh 1%positive []).
  { eexists. split; [reflexivity|]. split; reflexivity. }
  split; [exact Hholds|].
  destruct (X2_addLinkedLoop_appends_unattached_loop heap_fresh 1%positive
              [] 1%positive zero_loop Hholds eq_refl eq_refl)
    as (h' & Hrun & Hholds' & Hb & _).
  { apply not_elem_of_nil. }
  exists h'. auto.
Defined.

(** X3: on every loop that is a well-formed list head holding the points
    [vs], [addLinkedCoord] completes, the node it returns is new to the
    chain and becomes its tail, the head stays well formed, a forward read
    returns [vs] followed by the new point, and [countLinkedCoords] returns
    one more than the number of nodes before (a C [int]: up to
    [INT_MAX]). *)
Theorem X3_addLinkedCoord_appends_at_tail (h : heap) (a : loc)
    (cs : list loc) (vs : list GeoCoord) (v : GeoCoord) (fuel : nat) :
  loop_holds h a cs vs ->
  (length cs + 1 <= fuel)%nat ->
  exists c h',
    addLinkedCoord (Some a) v h = Ok (Some c) h' /\
    (c ∉ cs) /\
    loop_holds h' a (cs ++ [c]) (vs ++ [v]) /\
    readLinkedCoords fuel (Some a) h' = Ok (vs ++ [v]) h' /\
    (Z.of_nat (length cs) + 1 <= INT_MAX ->
     countLinkedCoords fuel (Some a) h' = Ok (Z.of_nat (length cs) + 1) h').
Proof.
  intros Hholds Hfuel.
  destruct (addLinkedCoord_loop_holds h a cs vs v Hholds)
    as (c & h' & Hrun & Hholds').
  exists c, h'. split; [exact Hrun|].
  pose proof Hholds' as (l' & Ha' & Hch & _ & Hvs).
  split; [|split; [exact Hholds'|split]].
  - pose proof (chain_NoDup _ _ _ _ Hch) as Hnd.
    apply NoDup_app in Hnd as (_ & Hdisj & _).
    intros Hin. apply (Hdisj c Hin). left.
  - unfold readLinkedCoords.
    rewrite (bind_Ok _ _ _ _ _ (load_loop_Ok _ _ _ Ha')).
    apply readLinkedCoords_while_chain with (cs := cs ++ [c]); auto.
    rewrite length_app. simpl. lia.
  - intros Hmax.
    rewrite (countLinkedCoords_chain h' a l' _ fuel Ha' Hch);
      rewrite ?length_app; simpl length; [f_equal; lia | lia | lia].
Qed.

Lemma X3_witness :
  loop_holds heap_one 1%positive [1%positive] [pt 0 0] /\
  exists c h',
    addLinkedCoord (Some 1%positive) (pt 1 0) heap_one = Ok (Some c) h' /\
    readLinkedCoords 2 (Some 1%positive) h' = Ok [pt 0 0; pt 1 0] h' /\
    countLinkedCoords 2 (Some 1%positive) h' = Ok 2 h'.
Proof.
  assert (Hholds : loop_holds heap_one 1%positive [1%positive] [pt 0 0]).
  { eexists. split; [reflexivity|]. simpl. split; [|split].
    - split; [reflexivity|]. eexists. split; reflexivity.
    - reflexivity.
    - repeat constructor. }
  split; [exact Hholds|].
  destruct (X3_addLinkedCoord_appends_at_tail heap_one 1%positive
              [1%positive] [pt 0 0] (pt 1 0) 2 Hholds)
    as (c & h' & Hrun & _ & _ & Hread & Hcount); [simpl; lia|].
  exists c, h'. split; [exact Hrun|]. split; [exact Hread|].
  apply Hcount. unfold INT_MAX. simpl. lia.
Defined.

(** ** [destroyLinkedGeoLoop] on its own *)

(** X4: [destroyLinkedGeoLoop] releases exactly the coordinate nodes of the
    loop's chain and nothing else: the loop struct itself stays allocated
    and is not even written, so its [first] and [last] are left pointing to
    released nodes, and a second call on a loop that held a node reads
    released memory. *)
Theorem X4_destroyLinkedGeoLoop_frees_only_coords (h : heap) (a : loc)
    (l : LinkedGeoLoop) (cs : list loc) (fuel : nat) :
  loops h !! a = Some l ->
  chain lgc_next (coords h) (lgl_first l) cs ->
  (length cs <= fuel)%nat ->
  exists h',
    destroyLinkedGeoLoop fuel (Some a) h = Ok tt h' /\
    (forall c, c ∈ cs -> coords h' !! c = None) /\
    (forall c, c ∉ cs -> coords h' !! c = coords h !! c) /\
    loops h' = loops h /\ polygons h' = polygons h /\
    (cs <> [] -> destroyLinkedGeoLoop fuel (Some a) h' = Undef).
Proof.
  intros Ha Hch Hfuel. eexists. split.
  { unfold destroyLinkedGeoLoop.
    rewrite (bind_Ok _ _ _ _ _ (load_loop_Ok _ _ _ Ha)).
    apply destroyLinkedGeoLoop_for_chain; eassumption. }
  simpl. repeat apply conj; try reflexivity.
  - intros c Hc. rewrite lookup_delete_all. now rewrite decide_True.
  - intros c Hc. rewrite lookup_delete_all. now rewrite decide_False.
  - intros Hne. unfold destroyLinkedGeoLoop.
    erewrite bind_Ok; [|apply load_loop_Ok; simpl; exact Ha].
    destruct cs as [|c cs]; [congruence|].
    destruct Hch as [Hfirst _]. rewrite Hfirst.
    assert (Hgone : delete_all (c :: cs) (coords h) !! c = None).
    { rewrite lookup_delete_all. now rewrite decide_True by left. }
    simpl in Hfuel. destruct fuel as [|fuel]; [lia|].
    unfold destroyLinkedGeoLoop_for, bind, load_coord. cbn [coords].
    now rewrite Hgone.
Qed.

Lemma X4_witness :
  loops heap_two_polygons !! 1%positive
    = Some (mkLoop (Some 1%positive) (Some 3%positive) None) /\
  exists h',
    destroyLinkedGeoLoop 3 (Some 1%positive) heap_two_polygons = Ok tt h' /\
    coords h' !! 1%positive = None /\
    coords h' !! 4%positive = coords heap_two_polygons !! 4%positive /\
    loops h' = loops heap_two_polygons /\
    destroyLinkedGeoLoop 3 (Some 1%positive) h' = Undef.
Proof.
  split; [reflexivity|].
  destruct (X4_destroyLinkedGeoLoop_frees_only_coords heap_two_polygons
              1%positive _ [1%positive; 2%positive; 3%positive] 3 eq_refl)
    as (h' & Hrun & Hin & Hout & Hl & _ & Hagain).
  { simpl. split; [reflexivity|]. eexists. split; [reflexivity|]. simpl.
    split; [reflexivity|]. eexists. split; [reflexivity|]. simpl.
    split; [reflexivity|]. eexists. split; reflexivity. }
  { simpl. lia. }
  exists h'. split; [exact Hrun|]. split; [apply Hin; left|].
  split; [|split; [exact Hl|apply Hagain; discriminate]].
  apply Hout. intros Hc.
  repeat (apply elem_of_cons in Hc as [Hc|Hc]; [discriminate|]).
  now apply not_elem_of_nil in Hc.
Defined.

(** ** What one append does to a whole structure *)

Section ChainUpdates.
Context {T : Type} (next : T -> ptr).

(** A chain survives every update that keeps the [next] fields of its
    nodes. *)
Lemma chain_keep_next (m m' : gmap loc T) p ls :
  (forall a x, a ∈ ls -> m !! a = Some x ->
               exists x', m' !! a = Some x' /\ next x' = next x) ->
  chain next m p ls -> chain next m' p ls.
Proof.
  revert p. induction ls as [|a ls IH]; intros p Hkeep; simpl; [auto|].
  intros [-> (x & Hx & Hch)]. split; [reflexivity|].
  destruct (Hkeep a x ltac:(left) Hx) as (x' & Hx' & Hnext).
  exists x'. split; [exact Hx'|]. rewrite Hnext.
  apply IH; [|exact Hch]. intros b y Hb. apply Hkeep. now right.
Qed.

(** On a chain, only the last node has a NULL [next]. *)
Lemma chain_next_None_last (m : gmap loc T) p ls q x :
  chain next m p ls -> q ∈ ls -> m !! q = Some x -> next x = None ->
  last ls = Some q.
Proof.
  revert p. induction ls as [|a ls IH]; intros p Hch Hq Hx Hnext.
  - now apply not_elem_of_nil in Hq.
  - pose proof (chain_NoDup _ _ _ _ Hch) as Hnd.
    apply NoDup_cons in Hnd as [Hnotin _].
    destruct Hch as [-> (y & Hy & Hch)].
    apply elem_of_cons in Hq as [->|Hq].
    + rewrite Hx in Hy. injection Hy as <-. rewrite Hnext in Hch.
      destruct ls as [|b ls]; [reflexivity|]. destruct Hch; discriminate.
    + destruct ls as [|b ls]; [now apply not_elem_of_nil in Hq|].
      rewrite last_cons_cons. eapply IH; eassumption.
Qed.
End ChainUpdates.

Lemma addLinkedCoord_local h a cs v :
  loop_wf h a cs ->
  exists c h' l l',
    addLinkedCoord (Some a) v h = Ok (Some c) h' /\
    coords h !! c = None /\
    loops h !! a = Some l /\
    loops h' = <[a := l']> (loops h) /\
    lgl_next l' = lgl_next l /\
    polygons h' = polygons h /\
    loop_wf h' a (cs ++ [c]) /\
    (forall x, x <> c -> x ∉ cs -> coords h' !! x = coords h !! x) /\
    (forall x, is_Some (coords h' !! x) <-> x = c \/ is_Some (coords h !! x)).
Proof.
  intros (l & Ha & Hch & Hlast).
  pose proof (fresh_not_allocated (coords h)) as Hfresh.
  set (c := fresh (dom (coords h))) in *.
  destruct (last cs) as [b|] eqn:Hb.
  - assert (Hin : b ∈ cs) by now apply last_Some_elem_of.
    destruct (chain_allocated _ _ _ _ _ Hch Hin) as [cb Hcb].
    assert (Hne : b <> c) by (intros ->; rewrite Hfresh in Hcb; discriminate).
    exists c. eexists. exists l. eexists.
    split; [apply (addLinkedCoord_next_Ok h a l b cb v Ha Hlast Hcb)|].
    fold c. simpl. split; [exact Hfresh|]. split; [exact Ha|].
    split; [reflexivity|]. split; [reflexivity|]. split; [reflexivity|].
    split; [|split].
    + eexists. simpl. split; [apply lookup_insert_eq|]. simpl. split.
      * eapply chain_append.
        -- exact Hch.
        -- exact Hb.
        -- intros x Hx Hxb. rewrite lookup_insert_ne by congruence.
           apply lookup_insert_ne. intros <-.
           apply (chain_allocated _ _ _ _ _ Hch) in Hx.
           rewrite Hfresh in Hx. now destruct Hx.
        -- eexists. split; [apply lookup_insert_eq | reflexivity].
        -- simpl. split; [reflexivity|]. eexists.
           split; [rewrite lookup_insert_ne by congruence;
                   apply lookup_insert_eq|].
           reflexivity.
      * now rewrite last_snoc.
    + intros x Hxc Hx. rewrite lookup_insert_ne by (intros <-; contradiction).
      apply lookup_insert_ne. congruence.
    + intros x. destruct (decide (x = b)) as [->|Hxb].
      * rewrite lookup_insert_eq. split; [intros _; right; now exists cb|].
        intros _. eexists. reflexivity.
      * rewrite lookup_insert_ne by congruence.
        destruct (decide (x = c)) as [->|Hxc].
        -- rewrite lookup_insert_eq. split; [now left|]. intros _.
           eexists. reflexivity.
        -- rewrite lookup_insert_ne by congruence.
           split; [now right|]. intros [?|?]; [congruence|assumption].
  - apply last_None in Hb. subst cs. simpl in Hch.
    exists c. eexists. exists l. eexists.
    split; [apply (addLinkedCoord_first_Ok h a l v Ha Hlast Hch)|].
    fold c. simpl. split; [exact Hfresh|]. split; [exact Ha|].
    split; [reflexivity|]. split; [reflexivity|]. split; [reflexivity|].
    split; [|split].
    + eexists. simpl. split; [apply lookup_insert_eq|]. simpl. split.
      * split; [reflexivity|]. eexists.
        split; [apply lookup_insert_eq | reflexivity].
      * reflexivity.
    + intros x Hxc _. apply lookup_insert_ne. congruence.
    + intros x. destruct (decide (x = c)) as [->|Hxc].
      * rewrite lookup_insert_eq. split; [now left|]. intros _.
        eexists. reflexivity.
      * rewrite lookup_insert_ne by congruence.
        split; [now right|]. intros [?|?]; [congruence|assumption].
Qed.

Lemma elem_of_layout_loops L a :
  a ∈ layout_loops L <-> exists q, q ∈ lay_polygons L /\ a ∈ lay_loops L q.
Proof.
  unfold layout_loops. rewrite list_elem_of_bind.
  split; intros (q & H1 & H2); exists q; auto.
Qed.

Lemma elem_of_layout_coords L c :
  c ∈ layout_coords L <-> exists a, a ∈ layout_loops L /\ c ∈ lay_coords L a.
Proof.
  unfold layout_coords. rewrite list_elem_of_bind.
  split; intros (a & H1 & H2); exists a; auto.
Qed.

Lemma built_coord_allocated h p L a c :
  built h p L -> a ∈ layout_loops L -> c ∈ lay_coords L a ->
  is_Some (coords h !! c).
Proof.
  intros (_ & _ & Hloops & _) Ha Hc.
  destruct (Hloops a Ha) as (l & _ & Hch & _).
  eapply chain_allocated; eassumption.
Qed.

Lemma built_loop_allocated h p L q a :
  built h p L -> q ∈ lay_polygons L -> a ∈ lay_loops L q ->
  is_Some (loops h !! a).
Proof.
  intros (_ & Hpolys & _) Hq Ha.
  destruct (Hpolys q Hq) as (g & _ & Hch & _).
  eapply chain_allocated; eassumption.
Qed.

Lemma addLinkedCoord_built h p L a v :
  built h p L -> a ∈ layout_loops L ->
  exists c h',
    addLinkedCoord (Some a) v h = Ok (Some c) h' /\
    coords h !! c = None /\
    built h' p (layout_add_coord a c L) /\
    (tight h L -> tight h' (layout_add_coord a c L)).
Proof.
  intros Hbuilt Ha.
  pose proof Hbuilt as (Hchain & Hpolys & Hloops & Hdl & Hdc).
  destruct (addLinkedCoord_local h a (lay_coords L a) v (Hloops a Ha))
    as (c & h' & l & l' & Hrun & Hfresh & Hl & Hloops' & Hnext & Hpoly'
        & Hwf & Hframe & Hdom).
  exists c, h'. split; [exact Hrun|]. split; [exact Hfresh|].
  assert (Hcnew : forall a', a' ∈ layout_loops L -> c ∉ lay_coords L a').
  { intros a' Ha' Hc.
    destruct (built_coord_allocated h p L a' c Hbuilt Ha' Hc) as [x Hx].
    rewrite Hfresh in Hx. discriminate. }
  split.
  - split; [|split; [|split; [|split]]]; simpl.
    + rewrite Hpoly'. exact Hchain.
    + intros q Hq. destruct (Hpolys q Hq) as (g & Hg & Hch & Hlast).
      exists g. rewrite Hpoly'. split; [exact Hg|]. split; [|exact Hlast].
      eapply chain_keep_next; [|exact Hch].
      intros x lx _ Hx. rewrite Hloops'.
      destruct (decide (x = a)) as [->|Hxa].
      * rewrite lookup_insert_eq. exists l'. split; [reflexivity|].
        rewrite Hl in Hx. injection Hx as <-. exact Hnext.
      * rewrite lookup_insert_ne by congruence. now exists lx.
    + intros a' Ha'. change (a' ∈ layout_loops L) in Ha'.
      destruct (decide (a' = a)) as [->|Hne].
      * rewrite fn_lookup_insert. exact Hwf.
      * rewrite fn_lookup_insert_ne by congruence.
        destruct (Hloops a' Ha') as (la & Hla & Hch & Hlast).
        exists la. rewrite Hloops'.
        rewrite lookup_insert_ne by congruence.
        split; [exact Hla|]. split; [|exact Hlast].
        eapply chain_agree; [|exact Hch].
        intros x Hx. apply Hframe.
        -- intros ->. exact (Hcnew a' Ha' Hx).
        -- intros Hxa. apply Hne. exact (Hdc a' a x Ha' Ha Hx Hxa).
    + exact Hdl.
    + intros a1 a2 x Ha1 Ha2. change (a1 ∈ layout_loops L) in Ha1.
      change (a2 ∈ layout_loops L) in Ha2.
      destruct (decide (a1 = a)) as [->|Hne1];
        destruct (decide (a2 = a)) as [->|Hne2]; try reflexivity;
        rewrite ?fn_lookup_insert, ?fn_lookup_insert_ne by congruence;
        intros Hx1 Hx2.
      * apply elem_of_app in Hx1 as [Hx1|Hx1].
        -- exact (Hdc a a2 x Ha Ha2 Hx1 Hx2).
        -- apply list_elem_of_singleton in Hx1. subst x.
           destruct (Hcnew a2 Ha2 Hx2).
      * apply elem_of_app in Hx2 as [Hx2|Hx2].
        -- exact (Hdc a1 a x Ha1 Ha Hx1 Hx2).
        -- apply list_elem_of_singleton in Hx2. subst x.
           destruct (Hcnew a1 Ha1 Hx1).
      * exact (Hdc a1 a2 x Ha1 Ha2 Hx1 Hx2).
  - intros (Htp & Htl & Htc). split; [|split]; simpl.
    + intros q Hq. apply Htp. now rewrite <- Hpoly'.
    + intros x Hx. change (x ∈ layout_loops L). apply Htl.
      rewrite Hloops' in Hx. destruct (decide (x = a)) as [->|Hxa].
      * now exists l.
      * now rewrite lookup_insert_ne in Hx by congruence.
    + intros x Hx. apply elem_of_layout_coords. simpl.
      change (layout_loops (layout_add_coord a c L)) with (layout_loops L).
      apply Hdom in Hx as [->|Hx].
      * exists a. split; [exact Ha|]. simpl. rewrite fn_lookup_insert.
        apply elem_of_app. right. left.
      * apply Htc in Hx. apply elem_of_layout_coords in Hx as (a' & Ha' & Hx).
        exists a'. split; [exact Ha'|]. simpl.
        destruct (decide (a' = a)) as [->|Hne].
        -- rewrite fn_lookup_insert. apply elem_of_app. now left.
        -- now rewrite fn_lookup_insert_ne by congruence.
Qed.

Lemma addNewLinkedLoop_local h p ls :
  polygon_holds h p ls ->
  exists a h' g g',
    addNewLinkedLoop (Some p) h = Ok (Some a) h' /\
    loops h !! a = None /\
    polygons h !! p = Some g /\
    polygons h' = <[p := g']> (polygons h) /\
    lgp_next g' = lgp_next g /\
    coords h' = coords h /\
    polygon_holds h' p (ls ++ [a]) /\
    loops h' !! a = Some (mkLoop None None None) /\
    (forall x, x <> a -> x ∉ ls -> loops h' !! x = loops h !! x) /\
    (forall x lx, x <> a -> loops h !! x = Some lx ->
       exists lx', loops h' !! x = Some lx' /\
                   lgl_first lx' = lgl_first lx /\
                   lgl_last lx' = lgl_last lx) /\
    (forall x, is_Some (loops h' !! x) <-> x = a \/ is_Some (loops h !! x)).
Proof.
  intros (g & Hp & Hch & Hlast).
  pose proof (fresh_not_allocated (loops h)) as Hfresh.
  rewrite addNewLinkedLoop_unfold.
  set (a := fresh (dom (loops h))) in *.
  set (h1 := mkHeap (coords h) (<[a := mkLoop None None None]> (loops h))
               (polygons h)).
  destruct (last ls) as [b|] eqn:Hb.
  - assert (Hin : b ∈ ls) by now apply last_Some_elem_of.
    destruct (chain_allocated _ _ _ _ _ Hch Hin) as [lb Hlb].
    assert (Hne : b <> a) by (intros ->; rewrite Hfresh in Hlb; discriminate).
    assert (Hlb1 : loops h1 !! b = Some lb).
    { simpl. rewrite lookup_insert_ne by congruence. exact Hlb. }
    exists a. eexists. exists g. eexists.
    split; [apply (addLinkedLoop_next_Ok h1 p g b lb (Some a) Hp Hlast Hlb1)|].
    simpl. split; [exact Hfresh|]. split; [exact Hp|].
    split; [reflexivity|]. split; [reflexivity|]. split; [reflexivity|].
    split; [|split; [|split; [|split]]].
    + eexists. simpl. split; [apply lookup_insert_eq|]. simpl. split.
      * eapply chain_append.
        -- exact Hch.
        -- exact Hb.
        -- intros x Hx Hxb. rewrite lookup_insert_ne by congruence.
           apply lookup_insert_ne. intros <-.
           apply (chain_allocated _ _ _ _ _ Hch) in Hx.
           rewrite Hfresh in Hx. now destruct Hx.
        -- eexists. split; [apply lookup_insert_eq | reflexivity].
        -- simpl. split; [reflexivity|]. eexists.
           split; [rewrite lookup_insert_ne by congruence;
                   apply lookup_insert_eq|].
           reflexivity.
      * now rewrite last_snoc.
    + rewrite lookup_insert_ne by congruence. apply lookup_insert_eq.
    + intros x Hxa Hx. rewrite lookup_insert_ne by (intros <-; contradiction).
      apply lookup_insert_ne. congruence.
    + intros x lx Hxa Hx. destruct (decide (x = b)) as [->|Hxb].
      * rewrite lookup_insert_eq. eexists. split; [reflexivity|].
        rewrite Hlb in Hx. injection Hx as <-. split; reflexivity.
      * rewrite !lookup_insert_ne by congruence. now exists lx.
    + intros x. destruct (decide (x = b)) as [->|Hxb].
      * rewrite lookup_insert_eq. split; [intros _; right; now exists lb|].
        intros _. eexists. reflexivity.
      * rewrite lookup_insert_ne by congruence.
        destruct (decide (x = a)) as [->|Hxa].
        -- rewrite lookup_insert_eq. split; [now left|]. intros _.
           eexists. reflexivity.
        -- rewrite lookup_insert_ne by congruence.
           split; [now right|]. intros [?|?]; [congruence|assumption].
  - apply last_None in Hb. subst ls. simpl in Hch.
    exists a. eexists. exists g. eexists.
    split; [apply (addLinkedLoop_first_Ok h1 p g (Some a) Hp Hlast Hch)|].
    simpl. split; [exact Hfresh|]. split; [exact Hp|].
    split; [reflexivity|]. split; [reflexivity|]. split; [reflexivity|].
    split; [|split; [|split; [|split]]].
    + eexists. simpl. split; [apply lookup_insert_eq|]. simpl. split.
      * split; [reflexivity|]. eexists.
        split; [apply lookup_insert_eq | reflexivity].
      * reflexivity.
    + apply lookup_insert_eq.
    + intros x Hxa _. apply lookup_insert_ne. congruence.
    + intros x lx Hxa Hx. rewrite lookup_insert_ne by congruence.
      now exists lx.
    + intros x. destruct (decide (x = a)) as [->|Hxa].
      * rewrite lookup_insert_eq. split; [now left|]. intros _.
        eexists. reflexivity.
      * rewrite lookup_insert_ne by congruence.
        split; [now right|]. intros [?|?]; [congruence|assumption].
Qed.

Lemma addNewLinkedLoop_built h p L q :
  built h p L -> q ∈ lay_polygons L ->
  exists a h',
    addNewLinkedLoop (Some q) h = Ok (Some a) h' /\
    loops h !! a = None /\
    built h' p (layout_add_loop q a L) /\
    (tight h L -> tight h' (layout_add_loop q a L)).
Proof.
  intros Hbuilt Hq.
  pose proof Hbuilt as (Hchain & Hpolys & Hloops & Hdl & Hdc).
  destruct (addNewLinkedLoop_local h q (lay_loops L q) (Hpolys q Hq))
    as (a & h' & g & g' & Hrun & Hfresh & Hg & Hpoly' & Hnext & Hcoords'
        & Hholds & Hzero & Hframe & Hkeep & Hdom).
  exists a, h'. split; [exact Hrun|]. split; [exact Hfresh|].
  assert (Hanew : forall q', q' ∈ lay_polygons L -> a ∉ lay_loops L q').
  { intros q' Hq' Ha.
    destruct (built_loop_allocated h p L q' a Hbuilt Hq' Ha) as [x Hx].
    rewrite Hfresh in Hx. discriminate. }
  assert (Hmem : forall x,
    x ∈ layout_loops (layout_add_loop q a L) <-> x = a \/ x ∈ layout_loops L).
  { intros x. rewrite !elem_of_layout_loops. simpl. split.
    - intros (q' & Hq' & Hx). destruct (decide (q = q')) as [<-|Hne].
      + rewrite fn_lookup_insert in Hx. apply elem_of_app in Hx as [Hx|Hx].
        * right. now exists q.
        * left. now apply list_elem_of_singleton in Hx.
      + rewrite fn_lookup_insert_ne in Hx by congruence. right. now exists q'.
    - intros [->|(q' & Hq' & Hx)].
      + exists q. split; [exact Hq|]. rewrite fn_lookup_insert.
        apply elem_of_app. right. left.
      + exists q'. split; [exact Hq'|].
        destruct (decide (q = q')) as [<-|Hne].
        * rewrite fn_lookup_insert. apply elem_of_app. now left.
        * now rewrite fn_lookup_insert_ne by congruence. }
  assert (Hold : forall x, x ∈ layout_loops L -> x <> a).
  { intros x Hx ->. apply elem_of_layout_loops in Hx as (q' & Hq' & Hx).
    exact (Hanew q' Hq' Hx). }
  split.
  - split; [|split; [|split; [|split]]]; simpl.
    + eapply chain_keep_next; [|exact Hchain].
      intros x gx _ Hx. rewrite Hpoly'.
      destruct (decide (x = q)) as [->|Hxq].
      * rewrite lookup_insert_eq. exists g'. split; [reflexivity|].
        rewrite Hg in Hx. injection Hx as <-. exact Hnext.
      * rewrite lookup_insert_ne by congruence. now exists gx.
    + intros q' Hq'. destruct (decide (q = q')) as [<-|Hne].
      * rewrite fn_lookup_insert. exact Hholds.
      * rewrite fn_lookup_insert_ne by congruence.
        destruct (Hpolys q' Hq') as (g1 & Hg1 & Hch1 & Hlast1).
        exists g1. rewrite Hpoly'. rewrite lookup_insert_ne by congruence.
        split; [exact Hg1|]. split; [|exact Hlast1].
        eapply chain_agree; [|exact Hch1]. intros x Hx. apply Hframe.
        -- intros ->. exact (Hanew q' Hq' Hx).
        -- intros Hxq. apply Hne. symmetry.
           exact (Hdl q' q x Hq' Hq Hx Hxq).
    + intros x Hx. apply Hmem in Hx as [->|Hx].
      * rewrite fn_lookup_insert. eexists. split; [exact Hzero|].
        split; reflexivity.
      * rewrite fn_lookup_insert_ne by (intros <-; exact (Hold _ Hx eq_refl)).
        destruct (Hloops x Hx) as (lx & Hlx & Hch & Hlast).
        destruct (Hkeep x lx (Hold x Hx) Hlx) as (lx' & Hlx' & Hf & Hl).
        exists lx'. split; [exact Hlx'|]. rewrite Hf, Hl, Hcoords'. auto.
    + intros q1 q2 x Hq1 Hq2.
      destruct (decide (q = q1)) as [<-|Hne1];
        destruct (decide (q = q2)) as [<-|Hne2]; try reflexivity;
        rewrite ?fn_lookup_insert, ?fn_lookup_insert_ne by congruence;
        intros Hx1 Hx2.
      * apply elem_of_app in Hx1 as [Hx1|Hx1].
        -- exact (Hdl q q2 x Hq Hq2 Hx1 Hx2).
        -- apply list_elem_of_singleton in Hx1. subst x.
           destruct (Hanew q2 Hq2 Hx2).
      * apply elem_of_app in Hx2 as [Hx2|Hx2].
        -- exact (Hdl q1 q x Hq1 Hq Hx1 Hx2).
        -- apply list_elem_of_singleton in Hx2. subst x.
           destruct (Hanew q1 Hq1 Hx1).
      * exact (Hdl q1 q2 x Hq1 Hq2 Hx1 Hx2).
    + intros a1 a2 x Ha1 Ha2.
      apply Hmem in Ha1 as [->|Ha1].
      { rewrite fn_lookup_insert. intros Hx. now apply not_elem_of_nil in Hx. }
      apply Hmem in Ha2 as [->|Ha2].
      { rewrite fn_lookup_insert. intros _ Hx.
        now apply not_elem_of_nil in Hx. }
      pose proof (Hold a1 Ha1) as Hne1. pose proof (Hold a2 Ha2) as Hne2.
      rewrite !fn_lookup_insert_ne by congruence.
      apply Hdc; assumption.
  - intros (Htp & Htl & Htc). split; [|split]; simpl.
    + intros x Hx. apply Htp. rewrite Hpoly' in Hx.
      destruct (decide (x = q)) as [->|Hxq].
      * now exists g.
      * now rewrite lookup_insert_ne in Hx by congruence.
    + intros x Hx. apply Hmem. apply Hdom in Hx as [->|Hx]; auto.
    + intros x Hx. rewrite Hcoords' in Hx. apply Htc in Hx.
      apply elem_of_layout_coords in Hx as (a' & Ha' & Hx).
      apply elem_of_layout_coords. exists a'. split.
      * apply Hmem. now right.
      * simpl. now rewrite fn_lookup_insert_ne
          by (intros <-; exact (Hold _ Ha' eq_refl)).
Qed.

Lemma addNewLinkedPolygon_built h p L q :
  built h p L -> last (lay_polygons L) = Some q ->
  exists r h',
    addNewLinkedPolygon (Some q) h = Ok (Some r) h' /\
    polygons h !! r = None /\
    built h' p (layout_add_polygon r L) /\
    (tight h L -> tight h' (layout_add_polygon r L)).
Proof.
  intros Hbuilt Hlast.
  pose proof Hbuilt as (Hchain & Hpolys & Hloops & Hdl & Hdc).
  assert (Hq : q ∈ lay_polygons L) by now apply last_Some_elem_of.
  destruct (chain_allocated _ _ _ _ _ Hchain Hq) as [g Hg].
  pose proof (chain_last_next _ _ _ _ _ _ Hchain Hlast Hg) as Hnext.
  pose proof (fresh_not_allocated (polygons h)) as Hfresh.
  set (r := fresh (dom (polygons h))) in *.
  assert (Hrnew : r ∉ lay_polygons L).
  { intros Hr. apply (chain_allocated _ _ _ _ _ Hchain) in Hr.
    rewrite Hfresh in Hr. now destruct Hr. }
  assert (Hqr : q <> r) by (intros ->; contradiction).
  exists r. eexists.
  split; [apply (addNewLinkedPolygon_Ok h q g Hg Hnext)|]. fold r.
  split; [exact Hfresh|].
  assert (Hmem : forall x,
    x ∈ layout_loops (layout_add_polygon r L) <-> x ∈ layout_loops L).
  { intros x. rewrite !elem_of_layout_loops. simpl. split.
    - intros (q' & Hq' & Hx). apply elem_of_app in Hq' as [Hq'|Hq'].
      + exists q'. split; [exact Hq'|].
        now rewrite fn_lookup_insert_ne in Hx by (intros <-; contradiction).
      + apply list_elem_of_singleton in Hq'. subst q'.
        rewrite fn_lookup_insert in Hx. now apply not_elem_of_nil in Hx.
    - intros (q' & Hq' & Hx). exists q'.
      split; [apply elem_of_app; now left|].
      now rewrite fn_lookup_insert_ne by (intros <-; contradiction). }
  split.
  - split; [|split; [|split; [|split]]]; simpl.
    + eapply chain_append.
      * exact Hchain.
      * exact Hlast.
      * intros x Hx Hxq. rewrite lookup_insert_ne by congruence.
        apply lookup_insert_ne. intros <-. contradiction.
      * eexists. split; [apply lookup_insert_eq | reflexivity].
      * simpl. split; [reflexivity|]. eexists.
        split; [rewrite lookup_insert_ne by congruence;
                apply lookup_insert_eq|].
        reflexivity.
    + intros q' Hq'. apply elem_of_app in Hq' as [Hq'|Hq'].
      * rewrite fn_lookup_insert_ne by (intros <-; contradiction).
        destruct (Hpolys q' Hq') as (g1 & Hg1 & Hch1 & Hlast1).
        destruct (decide (q' = q)) as [->|Hne].
        -- rewrite Hg in Hg1. injection Hg1 as <-.
           eexists. split; [apply lookup_insert_eq|]. simpl. auto.
        -- exists g1. split; [|auto]. simpl.
           rewrite lookup_insert_ne by congruence.
           rewrite lookup_insert_ne by (intros <-; contradiction).
           exact Hg1.
      * apply list_elem_of_singleton in Hq'. subst q'.
        rewrite fn_lookup_insert. eexists.
        split; [simpl; rewrite lookup_insert_ne by congruence;
                apply lookup_insert_eq|].
        simpl. split; reflexivity.
    + intros x Hx. apply Hmem in Hx. exact (Hloops x Hx).
    + intros q1 q2 x Hq1 Hq2 Hx1 Hx2.
      apply elem_of_app in Hq1 as [Hq1|Hq1].
      2:{ apply list_elem_of_singleton in Hq1. subst q1.
          rewrite fn_lookup_insert in Hx1. now apply not_elem_of_nil in Hx1. }
      apply elem_of_app in Hq2 as [Hq2|Hq2].
      2:{ apply list_elem_of_singleton in Hq2. subst q2.
          rewrite fn_lookup_insert in Hx2. now apply not_elem_of_nil in Hx2. }
      rewrite fn_lookup_insert_ne in Hx1 by (intros <-; contradiction).
      rewrite fn_lookup_insert_ne in Hx2 by (intros <-; contradiction).
      exact (Hdl q1 q2 x Hq1 Hq2 Hx1 Hx2).
    + intros a1 a2 x Ha1 Ha2. apply Hmem in Ha1. apply Hmem in Ha2.
      apply Hdc; assumption.
  - intros (Htp & Htl & Htc). split; [|split]; simpl.
    + intros x Hx. apply elem_of_app.
      destruct (decide (x = r)) as [->|Hxr]; [right; left|]. left.
      apply Htp. destruct (decide (x = q)) as [->|Hxq]; [now exists g|].
      now rewrite !lookup_insert_ne in Hx by congruence.
    + intros x Hx. apply Hmem. now apply Htl.
    + intros x Hx. apply Htc in Hx.
      apply elem_of_layout_coords in Hx as (a' & Ha' & Hx).
      apply elem_of_layout_coords. exists a'. split; [now apply Hmem|].
      exact Hx.
Qed.

(** ** Layouts as descriptions *)

Lemma fmap_fst_pair {A B : Type} (f : A -> B) (l : list A) :
  ((fun x => (x, f x)) <$> l).*1 = l.
Proof. induction l as [|x l IH]; simpl; [reflexivity | f_equal; exact IH]. Qed.

Lemma bind_bind {A B C : Type} (f : A -> list B) (g : B -> list C)
    (l : list A) :
  (l ≫= f) ≫= g = l ≫= (fun x => f x ≫= g).
Proof.
  induction l as [|x l IH]; [reflexivity|].
  rewrite !bind_cons, bind_app. now rewrite IH.
Qed.

Lemma bind_agree {A B : Type} (f g : A -> list B) (l : list A) :
  (forall x, x ∈ l -> f x = g x) -> l ≫= f = l ≫= g.
Proof.
  induction l as [|x l IH]; intros Hfg; [reflexivity|].
  rewrite !bind_cons. rewrite (Hfg x) by left.
  rewrite IH; [reflexivity|]. intros y Hy. apply Hfg. now right.
Qed.

Lemma structure_polygons_layout L :
  structure_polygons (layout_desc L) = lay_polygons L.
Proof. unfold structure_polygons, layout_desc. apply fmap_fst_pair. Qed.

Lemma structure_loops_layout L :
  structure_loops (layout_desc L) = layout_loops L.
Proof.
  unfold structure_loops, layout_desc, layout_loops.
  rewrite list_fmap_bind. apply bind_agree. intros q _.
  unfold polygon_loops. simpl. apply fmap_fst_pair.
Qed.

Lemma structure_coords_layout L :
  structure_coords (layout_desc L) = layout_coords L.
Proof.
  unfold structure_coords, layout_desc, layout_coords, layout_loops.
  rewrite list_fmap_bind, bind_bind. apply bind_agree. intros q _.
  simpl. unfold loops_coords. rewrite list_fmap_bind. reflexivity.
Qed.

Lemma built_NoDup_loops h p L : built h p L -> NoDup (layout_loops L).
Proof.
  intros (Hchain & Hpolys & _ & Hdl & _). apply NoDup_bind.
  - intros q1 q2 a Hq1 Hq2 H1 H2. exact (Hdl q1 q2 a Hq1 Hq2 H1 H2).
  - intros q Hq. destruct (Hpolys q Hq) as (g & _ & Hch & _).
    exact (chain_NoDup _ _ _ _ Hch).
  - exact (chain_NoDup _ _ _ _ Hchain).
Qed.

Lemma built_NoDup_coords h p L : built h p L -> NoDup (layout_coords L).
Proof.
  intros Hbuilt. pose proof (built_NoDup_loops h p L Hbuilt) as Hnd.
  destruct Hbuilt as (_ & _ & Hloops & _ & Hdc). apply NoDup_bind.
  - intros a1 a2 c Ha1 Ha2 H1 H2. exact (Hdc a1 a2 c Ha1 Ha2 H1 H2).
  - intros a Ha. destruct (Hloops a Ha) as (l & _ & Hch & _).
    exact (chain_NoDup _ _ _ _ Hch).
  - exact Hnd.
Qed.

Lemma built_structure h p L : built h p L -> structure h p (layout_desc L).
Proof.
  intros Hbuilt.
  pose proof (built_NoDup_loops h p L Hbuilt) as Hndl.
  pose proof (built_NoDup_coords h p L Hbuilt) as Hndc.
  destruct Hbuilt as (Hchain & Hpolys & Hloops & _ & _).
  split; [|split; [|split]].
  - rewrite structure_polygons_layout. exact Hchain.
  - unfold layout_desc. apply Forall_fmap. apply Forall_forall.
    intros q Hq. destruct (Hpolys q Hq) as (g & Hg & Hch & _).
    exists g. simpl. split; [exact Hg|]. split.
    + unfold polygon_loops. simpl. rewrite fmap_fst_pair. exact Hch.
    + apply Forall_fmap. apply Forall_forall. intros a Ha.
      destruct (Hloops a) as (l & Hl & Hcs & _).
      { apply elem_of_layout_loops. now exists q. }
      exists l. simpl. auto.
  - rewrite structure_loops_layout. exact Hndl.
  - rewrite structure_coords_layout. exact Hndc.
Qed.

(** Destroying a structure that is all the heap holds leaves the head
    polygon alone in the heap. *)
Lemma destroyLinkedPolygon_built_tight h p L fuel :
  built h (Some p) L -> tight h L ->
  (length (lay_polygons L) <= fuel)%nat ->
  (length (layout_loops L) <= fuel)%nat ->
  (length (layout_coords L) <= fuel)%nat ->
  exists g,
    polygons h !! p = Some g /\
    destroyLinkedPolygon fuel (Some p) h = Ok tt (mkHeap ∅ ∅ {[ p := g ]}).
Proof.
  intros Hbuilt (Htp & Htl & Htc) Hfp Hfl Hfc.
  pose proof (built_structure h (Some p) L Hbuilt) as Hst.
  unfold destroyLinkedPolygon.
  rewrite (destroyLinkedPolygon_for_structure fuel (layout_desc L) h
             (Some p) fuel true Hst).
  2:{ unfold layout_desc. now rewrite length_fmap. }
  2:{ now rewrite structure_loops_layout. }
  2:{ now rewrite structure_coords_layout. }
  rewrite structure_polygons_layout, structure_loops_layout,
    structure_coords_layout.
  destruct Hbuilt as (Hchain & _).
  pose proof (chain_NoDup _ _ _ _ Hchain) as Hnd.
  destruct (lay_polygons L) as [|p0 ps] eqn:HL; [discriminate Hchain|].
  destruct Hchain as [[= <-] (g & Hg & _)].
  apply NoDup_cons in Hnd as [Hnotin _].
  exists g. split; [exact Hg|]. f_equal. f_equal.
  - apply map_eq. intros c. rewrite lookup_delete_all, lookup_empty.
    destruct (decide (c ∈ layout_coords L)) as [|Hc]; [reflexivity|].
    destruct (coords h !! c) eqn:E; [|reflexivity].
    destruct Hc. apply Htc. now rewrite E.
  - apply map_eq. intros a. rewrite lookup_delete_all, lookup_empty.
    destruct (decide (a ∈ layout_loops L)) as [|Ha]; [reflexivity|].
    destruct (loops h !! a) eqn:E; [|reflexivity].
    destruct Ha. apply Htl. now rewrite E.
  - apply map_eq. intros q. simpl. rewrite lookup_delete_all.
    destruct (decide (q ∈ ps)) as [Hq|Hq].
    + rewrite lookup_singleton_ne; [reflexivity|]. intros ->. contradiction.
    + destruct (decide (q = p)) as [->|Hne].
      * now rewrite lookup_singleton_eq.
      * rewrite lookup_singleton_ne by congruence.
        destruct (polygons h !! q) eqn:E; [|reflexivity].
        assert (Hin : q ∈ p :: ps) by (apply Htp; now rewrite E).
        apply elem_of_cons in Hin as [?|?]; [congruence|contradiction].
Qed.

(** ** Sizes of the layouts after an append *)

Lemma bind_insert_notin {A : Type} (l : list loc) (f : loc -> list A) q y :
  q ∉ l -> l ≫= <[q := y]> f = l ≫= f.
Proof.
  intros Hq. apply bind_agree. intros x Hx.
  apply fn_lookup_insert_ne. intros ->. contradiction.
Qed.

Lemma length_bind_insert_snoc {A : Type} (l : list loc) (f : loc -> list A)
    q x :
  NoDup l -> q ∈ l ->
  length (l ≫= <[q := f q ++ [x]]> f) = S (length (l ≫= f)).
Proof.
  induction l as [|b l IH]; intros Hnd Hq.
  - now apply not_elem_of_nil in Hq.
  - apply NoDup_cons in Hnd as [Hb Hnd]. rewrite !bind_cons, !length_app.
    destruct (decide (q = b)) as [->|Hne].
    + rewrite fn_lookup_insert, length_app.
      rewrite bind_insert_notin by exact Hb. simpl. lia.
    + rewrite fn_lookup_insert_ne by congruence.
      apply elem_of_cons in Hq as [?|Hq]; [congruence|].
      rewrite IH by assumption. lia.
Qed.

Lemma layout_coords_add_coord h p L a c :
  built h p L -> a ∈ layout_loops L ->
  length (layout_coords (layout_add_coord a c L))
    = S (length (layout_coords L)).
Proof.
  intros Hbuilt Ha. unfold layout_coords, layout_add_coord, layout_loops.
  simpl. apply length_bind_insert_snoc; [|exact Ha].
  exact (built_NoDup_loops h p L Hbuilt).
Qed.

Lemma layout_loops_add_loop h p L q a :
  built h p L -> q ∈ lay_polygons L ->
  length (layout_loops (layout_add_loop q a L))
    = S (length (layout_loops L)).
Proof.
  intros (Hchain & _) Hq. unfold layout_loops, layout_add_loop. simpl.
  apply length_bind_insert_snoc; [|exact Hq].
  exact (chain_NoDup _ _ _ _ Hchain).
Qed.

Lemma layout_coords_add_loop L q a :
  a ∉ layout_loops L ->
  layout_coords (layout_add_loop q a L) = layout_coords L.
Proof.
  intros Ha. unfold layout_coords, layout_loops, layout_add_loop. simpl.
  rewrite !bind_bind. apply bind_agree. intros q' Hq'.
  assert (Hq'a : a ∉ lay_loops L q').
  { intros Hin. apply Ha. apply elem_of_layout_loops. now exists q'. }
  destruct (decide (q = q')) as [<-|Hne].
  - rewrite fn_lookup_insert, bind_app, bind_singleton, fn_lookup_insert.
    rewrite app_nil_r. now apply bind_insert_notin.
  - rewrite fn_lookup_insert_ne by congruence. now apply bind_insert_notin.
Qed.

Lemma layout_loops_add_polygon L r :
  r ∉ lay_polygons L ->
  layout_loops (layout_add_polygon r L) = layout_loops L.
Proof.
  intros Hr. unfold layout_loops, layout_add_polygon. simpl.
  rewrite bind_app, bind_singleton, fn_lookup_insert, app_nil_r.
  now apply bind_insert_notin.
Qed.

Lemma layout_coords_add_polygon L r :
  r ∉ lay_polygons L ->
  layout_coords (layout_add_polygon r L) = layout_coords L.
Proof.
  intros Hr. unfold layout_coords.
  now rewrite layout_loops_add_polygon.
Qed.

(** ** Lists of commands *)

Lemma addLinkedCoord_Ok_inv h a v r h' :
  addLinkedCoord (Some a) v h = Ok r h' -> is_Some (loops h !! a).
Proof.
  unfold addLinkedCoord. run_op. rewrite lookup_insert_eq. simpl.
  destruct (loops h !! a); [eauto | discriminate].
Qed.

Lemma addNewLinkedLoop_Ok_inv h q r h' :
  addNewLinkedLoop (Some q) h = Ok r h' -> is_Some (polygons h !! q).
Proof.
  rewrite addNewLinkedLoop_unfold. unfold addLinkedLoop. run_op.
  destruct (polygons h !! q); [eauto | discriminate].
Qed.

Lemma addNewLinkedPolygon_Ok_inv h q r h' :
  addNewLinkedPolygon (Some q) h = Ok r h' ->
  exists g, polygons h !! q = Some g /\ lgp_next g = None.
Proof.
  unfold addNewLinkedPolygon. run_op.
  destruct (polygons h !! q) as [g|]; [|discriminate].
  destruct (lgp_next g) eqn:E; [discriminate|]. intros _. now exists g.
Qed.

Lemma addLinkedCoord_wf_vertices h a cs v c h' :
  loop_wf h a cs ->
  addLinkedCoord (Some a) v h = Ok (Some c) h' ->
  lgc_vertex <$> coords h' !! c = Some v /\
  (forall x w, lgc_vertex <$> coords h !! x = Some w ->
               lgc_vertex <$> coords h' !! x = Some w).
Proof.
  intros (l & Hl & Hch & Hlast) Hrun.
  pose proof (fresh_not_allocated (coords h)) as Hfresh.
  assert (Hold : forall x w, lgc_vertex <$> coords h !! x = Some w ->
                             x <> fresh (dom (coords h))).
  { intros x w Hx ->. rewrite Hfresh in Hx. discriminate. }
  destruct (last cs) as [b|] eqn:Hb.
  - assert (Hin : b ∈ cs) by now apply last_Some_elem_of.
    destruct (chain_allocated _ _ _ _ _ Hch Hin) as [cb Hcb].
    rewrite (addLinkedCoord_next_Ok h a l b cb v Hl Hlast Hcb) in Hrun.
    injection Hrun as <- <-. simpl.
    pose proof (fresh_ne_allocated (coords h) b (mk_is_Some _ _ Hcb)) as Hne.
    split.
    + rewrite lookup_insert_ne by congruence. now rewrite lookup_insert_eq.
    + intros x w Hx. pose proof (Hold x w Hx) as Hxc.
      destruct (decide (x = b)) as [->|Hxb].
      * rewrite lookup_insert_eq. simpl. now rewrite Hcb in Hx.
      * now rewrite !lookup_insert_ne by congruence.
  - apply last_None in Hb. subst cs. simpl in Hch.
    rewrite (addLinkedCoord_first_Ok h a l v Hl Hlast Hch) in Hrun.
    injection Hrun as <- <-. simpl. split.
    + now rewrite lookup_insert_eq.
    + intros x w Hx. pose proof (Hold x w Hx) as Hxc.
      now rewrite lookup_insert_ne by congruence.
Qed.

Lemma run_command_built c h p L h' :
  built h (Some p) L -> tight h L ->
  run_command c h = Ok tt h' ->
  exists L',
    built h' (Some p) L' /\ tight h' L' /\
    command_step c h' L L' /\
    (forall x w, lgc_vertex <$> coords h !! x = Some w ->
                 lgc_vertex <$> coords h' !! x = Some w) /\
    length (lay_polygons L')
      = (length (lay_polygons L) + new_polygons [c])%nat /\
    (length (layout_loops L') <= S (length (layout_loops L)))%nat /\
    (length (layout_coords L') <= S (length (layout_coords L)))%nat.
Proof.
  intros Hbuilt Htight Hrun. pose proof Htight as (Htp & Htl & Htc).
  destruct c as [q|q|a v]; simpl in Hrun;
    apply bind_Ok_inv in Hrun as (r & h1 & Hop & Hret);
    unfold ret in Hret; injection Hret as <-.
  - destruct (addNewLinkedPolygon_Ok_inv _ _ _ _ Hop) as (g & Hg & Hnext).
    assert (Hq : q ∈ lay_polygons L) by (apply Htp; now exists g).
    destruct Hbuilt as (Hchain & Hrest).
    pose proof (chain_next_None_last _ _ _ _ _ _ Hchain Hq Hg Hnext) as Hlast.
    destruct (addNewLinkedPolygon_built h (Some p) L q (conj Hchain Hrest)
                Hlast) as (r' & h2 & Hop' & Hfresh & Hbuilt' & Htight').
    pose proof Hop' as Hheap.
    rewrite (addNewLinkedPolygon_Ok h q g Hg Hnext) in Hheap.
    rewrite Hop in Hop'. injection Hop' as -> ->.
    assert (Hr : r' ∉ lay_polygons L).
    { intros Hr. apply (chain_allocated _ _ _ _ _ Hchain) in Hr.
      rewrite Hfresh in Hr. now destruct Hr. }
    exists (layout_add_polygon r' L). split; [exact Hbuilt'|].
    split; [now apply Htight'|]. split; [now exists r'|]. split.
    { injection Hheap as _ <-. simpl. auto. }
    rewrite layout_loops_add_polygon, layout_coords_add_polygon by exact Hr.
    simpl. rewrite length_app. simpl. lia.
  - pose proof (addNewLinkedLoop_Ok_inv _ _ _ _ Hop) as Hq. apply Htp in Hq.
    destruct (addNewLinkedLoop_built h (Some p) L q Hbuilt Hq)
      as (a & h2 & Hop' & Hfresh & Hbuilt' & Htight').
    rewrite Hop in Hop'. injection Hop' as -> ->.
    assert (Ha : a ∉ layout_loops L).
    { intros Ha. apply elem_of_layout_loops in Ha as (q' & Hq' & Ha).
      destruct (built_loop_allocated h (Some p) L q' a Hbuilt Hq' Ha)
        as [x Hx].
      rewrite Hfresh in Hx. discriminate. }
    exists (layout_add_loop q a L). split; [exact Hbuilt'|].
    split; [now apply Htight'|]. split; [now exists a|]. split.
    { destruct Hbuilt as (_ & Hpolys & _).
      destruct (addNewLinkedLoop_local h q _ (Hpolys q Hq))
        as (a' & h3 & _ & _ & Hop' & _ & _ & _ & _ & Hcoords & _).
      rewrite Hop in Hop'. injection Hop' as _ ->. now rewrite Hcoords. }
    rewrite (layout_loops_add_loop h (Some p) L q a Hbuilt Hq).
    rewrite layout_coords_add_loop by exact Ha. simpl. lia.
  - pose proof (addLinkedCoord_Ok_inv _ _ _ _ _ Hop) as Ha. apply Htl in Ha.
    destruct (addLinkedCoord_built h (Some p) L a v Hbuilt Ha)
      as (c & h2 & Hop' & Hfresh & Hbuilt' & Htight').
    pose proof Hop' as Hvert.
    destruct Hbuilt as (Hb1 & Hb2 & Hloops & Hb4).
    apply (addLinkedCoord_wf_vertices h a _ v c h2 (Hloops a Ha)) in Hvert
      as (Hnew & Hkeep).
    rewrite Hop in Hop'. injection Hop' as -> ->.
    exists (layout_add_coord a c L). split; [exact Hbuilt'|].
    split; [now apply Htight'|]. split; [now exists c|].
    split; [exact Hkeep|].
    rewrite (layout_coords_add_coord h (Some p) L a c
               (conj Hb1 (conj Hb2 (conj Hloops Hb4))) Ha).
    simpl. change (layout_loops (layout_add_coord a c L))
      with (layout_loops L). lia.
Qed.

Lemma elem_of_layout_loops_add_loop L q a x :
  q ∈ lay_polygons L ->
  x ∈ layout_loops (layout_add_loop q a L) <-> x = a \/ x ∈ layout_loops L.
Proof.
  intros Hq. rewrite !elem_of_layout_loops. simpl. split.
  - intros (q' & Hq' & Hx). destruct (decide (q = q')) as [<-|Hne].
    + rewrite fn_lookup_insert in Hx. apply elem_of_app in Hx as [Hx|Hx].
      * right. now exists q.
      * left. now apply list_elem_of_singleton in Hx.
    + rewrite fn_lookup_insert_ne in Hx by congruence. right. now exists q'.
  - intros [->|(q' & Hq' & Hx)].
    + exists q. split; [exact Hq|]. rewrite fn_lookup_insert.
      apply elem_of_app. right. left.
    + exists q'. split; [exact Hq'|].
      destruct (decide (q = q')) as [<-|Hne].
      * rewrite fn_lookup_insert. apply elem_of_app. now left.
      * now rewrite fn_lookup_insert_ne by congruence.
Qed.

Lemma layout_points_keep h h' L L' a vs :
  lay_coords L' a = lay_coords L a ->
  (forall x w, lgc_vertex <$> coords h !! x = Some w ->
               lgc_vertex <$> coords h' !! x = Some w) ->
  layout_points h L a vs -> layout_points h' L' a vs.
Proof.
  unfold layout_points. intros -> Hkeep Hvs.
  eapply Forall2_impl; [exact Hvs|]. intros x w. apply Hkeep.
Qed.

Lemma run_command_history c h h' L L' :
  clean L -> command_step c h' L L' ->
  (forall x w, lgc_vertex <$> coords h !! x = Some w ->
               lgc_vertex <$> coords h' !! x = Some w) ->
  clean L' /\
  (forall q,
     length (lay_loops L' q)
       = (length (lay_loops L q) + new_loops q [c])%nat) /\
  (forall a vs,
     layout_points h L a vs ->
     layout_points h' L' a (vs ++ added_points a [c])).
Proof.
  intros (Hcl & Hcc) Hstep Hkeep. destruct c as [q0|q0|a0 v]; simpl in Hstep.
  - destruct Hstep as (r & Hr & ->).
    assert (Hsame : forall q, lay_loops (layout_add_polygon r L) q
                              = lay_loops L q).
    { intros q. simpl. destruct (decide (r = q)) as [<-|Hne].
      - rewrite fn_lookup_insert. symmetry. now apply Hcl.
      - now rewrite fn_lookup_insert_ne by congruence. }
    split; [split|split].
    + intros q Hq. rewrite Hsame. apply Hcl. intros Hin. apply Hq.
      simpl. apply elem_of_app. now left.
    + intros a Ha. simpl. apply Hcc.
      now rewrite layout_loops_add_polygon in Ha.
    + intros q. rewrite Hsame. simpl. lia.
    + intros a vs Hvs. simpl. rewrite app_nil_r.
      now apply (layout_points_keep h h' L).
  - destruct Hstep as (a0 & Hq0 & Ha0 & ->).
    assert (Hsame : forall a, lay_coords (layout_add_loop q0 a0 L) a
                              = lay_coords L a).
    { intros a. simpl. destruct (decide (a0 = a)) as [<-|Hne].
      - rewrite fn_lookup_insert. symmetry. now apply Hcc.
      - now rewrite fn_lookup_insert_ne by congruence. }
    split; [split|split].
    + intros q Hq. simpl. rewrite fn_lookup_insert_ne.
      * now apply Hcl.
      * intros <-. contradiction.
    + intros a Ha. rewrite Hsame. apply Hcc. intros Hin. apply Ha.
      apply elem_of_layout_loops_add_loop; [exact Hq0 | now right].
    + intros q. simpl. destruct (decide (q0 = q)) as [<-|Hne].
      * rewrite fn_lookup_insert, length_app. simpl. lia.
      * rewrite fn_lookup_insert_ne by congruence. lia.
    + intros a vs Hvs. simpl. rewrite app_nil_r.
      apply (layout_points_keep h h' L); auto.
  - destruct Hstep as (x & Ha0 & -> & Hx).
    split; [split|split].
    + exact Hcl.
    + intros a Ha. change (layout_loops (layout_add_coord a0 x L))
        with (layout_loops L) in Ha.
      simpl. rewrite fn_lookup_insert_ne.
      * now apply Hcc.
      * intros <-. contradiction.
    + intros q. simpl. lia.
    + intros a vs Hvs. simpl. destruct (decide (a0 = a)) as [<-|Hne].
      * unfold layout_points. simpl. rewrite fn_lookup_insert.
        apply Forall2_app.
        -- eapply Forall2_impl; [exact Hvs|]. intros y w. apply Hkeep.
        -- constructor; [exact Hx | constructor].
      * rewrite app_nil_r. apply (layout_points_keep h h' L); auto.
        simpl. now rewrite fn_lookup_insert_ne by congruence.
Qed.

Lemma new_loops_cons q c cs :
  new_loops q (c :: cs) = (new_loops q [c] + new_loops q cs)%nat.
Proof. destruct c; simpl; try reflexivity. now destruct (decide _). Qed.

Lemma added_points_cons a c cs :
  added_points a (c :: cs) = added_points a [c] ++ added_points a cs.
Proof. destruct c; simpl; try reflexivity. now destruct (decide _). Qed.

Lemma new_polygons_le cs : (new_polygons cs <= length cs)%nat.
Proof. induction cs as [|[| |] cs IH]; simpl; lia. Qed.

Lemma new_loops_le q cs : (new_loops q cs <= length cs)%nat.
Proof.
  induction cs as [|[| |] cs IH]; simpl; try lia.
  destruct (decide _); lia.
Qed.

Lemma added_points_le a cs : (length (added_points a cs) <= length cs)%nat.
Proof.
  induction cs as [|[| |] cs IH]; simpl; try lia.
  destruct (decide _); simpl; lia.
Qed.

Lemma run_commands_built cs :
  forall h p L h',
    built h (Some p) L -> tight h L -> clean L ->
    run_commands cs h = Ok tt h' ->
    exists L',
      built h' (Some p) L' /\ tight h' L' /\ clean L' /\
      length (lay_polygons L')
        = (length (lay_polygons L) + new_polygons cs)%nat /\
      (forall q,
         length (lay_loops L' q)
           = (length (lay_loops L q) + new_loops q cs)%nat) /\
      (forall a vs,
         layout_points h L a vs ->
         layout_points h' L' a (vs ++ added_points a cs)) /\
      (length (layout_loops L')
         <= length (layout_loops L) + length cs)%nat /\
      (length (layout_coords L')
         <= length (layout_coords L) + length cs)%nat.
Proof.
  induction cs as [|c cs IH]; intros h p L h' Hbuilt Htight Hclean Hrun.
  - simpl in Hrun. unfold ret in Hrun. injection Hrun as <-.
    exists L. simpl. split; [exact Hbuilt|]. split; [exact Htight|].
    split; [exact Hclean|]. split; [lia|]. split; [intros; lia|].
    split; [|split; lia]. intros a vs Hvs. now rewrite app_nil_r.
  - simpl in Hrun. apply bind_Ok_inv in Hrun as ([] & h1 & Hc & Hrun).
    destruct (run_command_built c h p L h1 Hbuilt Htight Hc)
      as (L1 & Hbuilt1 & Htight1 & Hstep & Hkeep & Hp1 & Hl1 & Hc1).
    destruct (run_command_history c h h1 L L1 Hclean Hstep Hkeep)
      as (Hclean1 & Hloops1 & Hpts1).
    destruct (IH h1 p L1 h' Hbuilt1 Htight1 Hclean1 Hrun)
      as (L' & Hbuilt' & Htight' & Hclean' & Hp' & Hloops' & Hpts'
          & Hl' & Hc').
    exists L'. split; [exact Hbuilt'|]. split; [exact Htight'|].
    split; [exact Hclean'|]. simpl length.
    split; [|split; [|split; [|split; lia]]].
    + rewrite Hp', Hp1. simpl. destruct c; simpl; lia.
    + intros q. rewrite Hloops', Hloops1, (new_loops_cons q c cs). lia.
    + intros a vs Hvs. rewrite added_points_cons, app_assoc.
      apply Hpts'. now apply Hpts1.
Qed.

Lemma caller_built p :
  built (heap_of_caller p) (Some p) (layout_of_caller p) /\
  tight (heap_of_caller p) (layout_of_caller p) /\
  clean (layout_of_caller p).
Proof.
  assert (Hp : polygons (heap_of_caller p) !! p = Some zero_polygon)
    by apply lookup_singleton_eq.
  split; [|split].
  - split; [|split; [|split; [|split]]]; simpl.
    + split; [reflexivity|]. eexists. split; [exact Hp | reflexivity].
    + intros q Hq. apply list_elem_of_singleton in Hq. subst q.
      eexists. split; [exact Hp|]. split; reflexivity.
    + intros a Ha. unfold layout_loops in Ha. simpl in Ha.
      now apply not_elem_of_nil in Ha.
    + intros q q' a _ _ Ha. now apply not_elem_of_nil in Ha.
    + intros a a' c _ _ Hc. now apply not_elem_of_nil in Hc.
  - split; [|split]; simpl.
    + intros q [g Hq]. apply lookup_singleton_Some in Hq as [-> _]. left.
    + intros a [l Ha]. now rewrite lookup_empty in Ha.
    + intros c [x Hc]. now rewrite lookup_empty in Hc.
  - split; reflexivity.
Qed.

(** ** The appends keep a structure well formed *)

(** X5: appending a point to any loop of a well-formed structure completes
    and keeps the whole structure well formed: the node is newly
    allocated and becomes the tail of that loop's chain, every other chain
    of the layout is as it was, and no node is shared. *)
Theorem X5_addLinkedCoord_keeps_structure (h : heap) (p : ptr) (L : layout)
    (a : loc) (v : GeoCoord) :
  built h p L -> a ∈ layout_loops L ->
  exists c h',
    addLinkedCoord (Some a) v h = Ok (Some c) h' /\
    coords h !! c = None /\
    built h' p (layout_add_coord a c L).
Proof.
  intros Hbuilt Ha.
  destruct (addLinkedCoord_built h p L a v Hbuilt Ha)
    as (c & h' & Hrun & Hfresh & Hbuilt' & _).
  exists c, h'. auto.
Qed.

Lemma X5_witness :
  built (heap_of_caller 1%positive) (Some 1%positive)
        (layout_of_caller 1%positive) /\
  exists a h1 c h2,
    addNewLinkedLoop (Some 1%positive) (heap_of_caller 1%positive)
      = Ok (Some a) h1 /\
    addLinkedCoord (Some a) (pt 0 0) h1 = Ok (Some c) h2 /\
    built h2 (Some 1%positive)
      (layout_add_coord a c
         (layout_add_loop 1%positive a (layout_of_caller 1%positive))).
Proof.
  destruct (caller_built 1%positive) as (Hbuilt & _).
  split; [exact Hbuilt|].
  destruct (addNewLinkedLoop_built _ _ _ 1%positive Hbuilt)
    as (a & h1 & Hrun1 & _ & Hbuilt1 & _); [left|].
  destruct (X5_addLinkedCoord_keeps_structure h1 (Some 1%positive) _ a
              (pt 0 0) Hbuilt1)
    as (c & h2 & Hrun2 & _ & Hbuilt2).
  { apply elem_of_layout_loops_add_loop; [left | now left]. }
  exists a, h1, c, h2. auto.
Defined.

(** X6: adding a new loop to any polygon of a well-formed structure
    completes and keeps the whole structure well formed: the loop is newly
    allocated, empty, and becomes the tail of that polygon's loop chain;
    every other chain is as it was. *)
Theorem X6_addNewLinkedLoop_keeps_structure (h : heap) (p : ptr)
    (L : layout) (q : loc) :
  built h p L -> q ∈ lay_polygons L ->
  exists a h',
    addNewLinkedLoop (Some q) h = Ok (Some a) h' /\
    loops h !! a = None /\
    built h' p (layout_add_loop q a L).
Proof.
  intros Hbuilt Hq.
  destruct (addNewLinkedLoop_built h p L q Hbuilt Hq)
    as (a & h' & Hrun & Hfresh & Hbuilt' & _).
  exists a, h'. auto.
Qed.

Lemma X6_witness :
  built (heap_of_caller 1%positive) (Some 1%positive)
        (layout_of_caller 1%positive) /\
  exists a h',
    addNewLinkedLoop (Some 1%positive) (heap_of_caller 1%positive)
      = Ok (Some a) h' /\
    built h' (Some 1%positive)
      (layout_add_loop 1%positive a (layout_of_caller 1%positive)).
Proof.
  destruct (caller_built 1%positive) as (Hbuilt & _).
  split; [exact Hbuilt|].
  destruct (X6_addNewLinkedLoop_keeps_structure _ _ _ 1%positive Hbuilt)
    as (a & h' & Hrun & _ & Hbuilt'); [left|].
  exists a, h'. auto.
Defined.

(** X7: adding a polygon after the last polygon of a well-formed structure
    completes and keeps the whole structure well formed: the polygon is
    newly allocated, has no loops, and becomes the tail of the polygon
    chain; every loop and coordinate chain is as it was. *)
Theorem X7_addNewLinkedPolygon_keeps_structure (h : heap) (p : ptr)
    (L : layout) (q : loc) :
  built h p L -> last (lay_polygons L) = Some q ->
  exists r h',
    addNewLinkedPolygon (Some q) h = Ok (Some r) h' /\
    polygons h !! r = None /\
    built h' p (layout_add_polygon r L).
Proof.
  intros Hbuilt Hq.
  destruct (addNewLinkedPolygon_built h p L q Hbuilt Hq)
    as (r & h' & Hrun & Hfresh & Hbuilt' & _).
  exists r, h'. auto.
Qed.

Lemma X7_witness :
  built (heap_of_caller 1%positive) (Some 1%positive)
        (layout_of_caller 1%positive) /\
  exists r h',
    addNewLinkedPolygon (Some 1%positive) (heap_of_caller 1%positive)
      = Ok (Some r) h' /\
    built h' (Some 1%positive)
      (layout_add_polygon r (layout_of_caller 1%positive)).
Proof.
  destruct (caller_built 1%positive) as (Hbuilt & _).
  split; [exact Hbuilt|].
  destruct (X7_addNewLinkedPolygon_keeps_structure _ _ _ 1%positive Hbuilt)
    as (r & h' & Hrun & _ & Hbuilt'); [reflexivity|].
  exists r, h'. auto.
Defined.

(** ** Building with the appends, then reading and destroying *)

(** X8: whatever a producer builds from one zeroed polygon with
    [addNewLinkedPolygon], [addNewLinkedLoop] and [addLinkedCoord], in any
    order that completes, [destroyLinkedPolygon] then completes without
    touching released memory and releases every object the appends
    allocated: the heap is left holding the caller's polygon alone. *)
Theorem X8_build_then_destroy_releases_all (p : loc) (cs : list command)
    (h' : heap) (fuel : nat) :
  run_commands cs (heap_of_caller p) = Ok tt h' ->
  (length cs + 1 <= fuel)%nat ->
  exists g,
    polygons h' !! p = Some g /\
    destroyLinkedPolygon fuel (Some p) h' = Ok tt (mkHeap ∅ ∅ {[ p := g ]}).
Proof.
  intros Hrun Hfuel.
  destruct (caller_built p) as (Hbuilt & Htight & Hclean).
  destruct (run_commands_built cs _ p _ h' Hbuilt Htight Hclean Hrun)
    as (L' & Hbuilt' & Htight' & _ & Hp & _ & _ & Hl & Hc).
  pose proof (new_polygons_le cs) as Hle.
  simpl in Hp, Hl, Hc.
  apply (destroyLinkedPolygon_built_tight h' p L' fuel Hbuilt' Htight');
    unfold layout_coords, layout_loops in *; simpl in *; lia.
Qed.

Lemma X8_witness :
  run_commands commands_two_polygons (heap_of_caller 1%positive)
    = Ok tt heap_two_polygons /\
  exists g,
    polygons heap_two_polygons !! 1%positive = Some g /\
    destroyLinkedPolygon 8 (Some 1%positive) heap_two_polygons
      = Ok tt (mkHeap ∅ ∅ {[ 1%positive := g ]}).
Proof.
  assert (Hrun : run_commands commands_two_polygons
                   (heap_of_caller 1%positive) = Ok tt heap_two_polygons).
  { vm_compute. reflexivity. }
  split; [exact Hrun|].
  apply (X8_build_then_destroy_releases_all 1%positive
           commands_two_polygons heap_two_polygons 8 Hrun).
  simpl. lia.
Defined.

(** X9: after any such build that completes, [countLinkedPolygons] on the
    caller's polygon returns one more than the number of
    [addNewLinkedPolygon] calls made, however the calls were interleaved
    with the other appends. *)
Theorem X9_countLinkedPolygons_after_build (p : loc) (cs : list command)
    (h' : heap) (fuel : nat) :
  run_commands cs (heap_of_caller p) = Ok tt h' ->
  (length cs + 1 <= fuel)%nat ->
  Z.of_nat (length cs) < INT_MAX ->
  countLinkedPolygons fuel (Some p) h'
    = Ok (Z.of_nat (new_polygons cs) + 1) h'.
Proof.
  intros Hrun Hfuel Hmax.
  destruct (caller_built p) as (Hbuilt & Htight & Hclean).
  destruct (run_commands_built cs _ p _ h' Hbuilt Htight Hclean Hrun)
    as (L' & (Hchain & _) & _ & _ & Hp & _).
  pose proof (new_polygons_le cs) as Hle. simpl in Hp.
  rewrite (countLinkedPolygons_chain h' (Some p) _ fuel Hchain);
    rewrite ?Hp; [f_equal; lia | lia | lia].
Qed.

Lemma X9_witness :
  run_commands commands_two_polygons (heap_of_caller 1%positive)
    = Ok tt heap_two_polygons /\
  countLinkedPolygons 8 (Some 1%positive) heap_two_polygons
    = Ok 2 heap_two_polygons.
Proof.
  assert (Hrun : run_commands commands_two_polygons
                   (heap_of_caller 1%positive) = Ok tt heap_two_polygons).
  { vm_compute. reflexivity. }
  split; [exact Hrun|].
  apply (X9_countLinkedPolygons_after_build 1%positive
           commands_two_polygons heap_two_polygons 8 Hrun).
  - simpl. lia.
  - unfold INT_MAX. simpl. lia.
Defined.

(** X10: after any such build that completes, [countLinkedLoops] on every
    polygon of the heap returns the number of [addNewLinkedLoop] calls made
    on that polygon: calls on other polygons and appends of points do not
    count. *)
Theorem X10_countLinkedLoops_after_build (p : loc) (cs : list command)
    (h' : heap) (q : loc) (fuel : nat) :
  run_commands cs (heap_of_caller p) = Ok tt h' ->
  is_Some (polygons h' !! q) ->
  (length cs <= fuel)%nat ->
  Z.of_nat (length cs) < INT_MAX ->
  countLinkedLoops fuel (Some q) h' = Ok (Z.of_nat (new_loops q cs)) h'.
Proof.
  intros Hrun Hq Hfuel Hmax.
  destruct (caller_built p) as (Hbuilt & Htight & Hclean).
  destruct (run_commands_built cs _ p _ h' Hbuilt Htight Hclean Hrun)
    as (L' & (_ & Hpolys & _) & (Htp & _) & _ & _ & Hloops & _).
  destruct (Hpolys q (Htp q Hq)) as (g & Hg & Hch & _).
  pose proof (new_loops_le q cs) as Hle.
  pose proof (Hloops q) as Hlen. simpl in Hlen.
  rewrite (countLinkedLoops_chain h' q g _ fuel Hg Hch);
    rewrite ?Hlen; [reflexivity | lia | lia].
Qed.

Lemma X10_witness :
  run_commands commands_two_polygons (heap_of_caller 1%positive)
    = Ok tt heap_two_polygons /\
  is_Some (polygons heap_two_polygons !! 2%positive) /\
  countLinkedLoops 8 (Some 2%positive) heap_two_polygons
    = Ok 1 heap_two_polygons.
Proof.
  assert (Hrun : run_commands commands_two_polygons
                   (heap_of_caller 1%positive) = Ok tt heap_two_polygons).
  { vm_compute. reflexivity. }
  assert (Hq : is_Some (polygons heap_two_polygons !! 2%positive)).
  { eexists. reflexivity. }
  split; [exact Hrun|]. split; [exact Hq|].
  apply (X10_countLinkedLoops_after_build 1%positive
           commands_two_polygons heap_two_polygons 2%positive 8 Hrun Hq).
  - simpl. lia.
  - unfold INT_MAX. simpl. lia.
Defined.

(** X11: after any such build that completes, a forward read of every loop
    of the heap returns exactly the points appended to that loop, in the
    order of the calls, and [countLinkedCoords] returns their number:
    appends to other loops, new loops and new polygons in between do not
    disturb it. *)
Theorem X11_loop_points_after_build (p : loc) (cs : list command)
    (h' : heap) (a : loc) (fuel : nat) :
  run_commands cs (heap_of_caller p) = Ok tt h' ->
  is_Some (loops h' !! a) ->
  (length cs <= fuel)%nat ->
  readLinkedCoords fuel (Some a) h' = Ok (added_points a cs) h' /\
  (Z.of_nat (length cs) < INT_MAX ->
   countLinkedCoords fuel (Some a) h'
     = Ok (Z.of_nat (length (added_points a cs))) h').
Proof.
  intros Hrun Ha Hfuel.
  destruct (caller_built p) as (Hbuilt & Htight & Hclean).
  destruct (run_commands_built cs _ p _ h' Hbuilt Htight Hclean Hrun)
    as (L' & (_ & _ & Hloops & _) & (_ & Htl & _) & _ & _ & _ & Hpts & _).
  destruct (Hloops a (Htl a Ha)) as (l & Hl & Hch & _).
  assert (Hvs : layout_points h' L' a (added_points a cs)).
  { apply (Hpts a []). constructor. }
  pose proof (Forall2_length _ _ _ Hvs) as Hlen.
  pose proof (added_points_le a cs) as Hle.
  split.
  - unfold readLinkedCoords.
    rewrite (bind_Ok _ _ _ _ _ (load_loop_Ok _ _ _ Hl)).
    apply readLinkedCoords_while_chain with (cs := lay_coords L' a);
      [exact Hch | exact Hvs | lia].
  - intros Hmax. rewrite <- Hlen.
    apply (countLinkedCoords_chain h' a l _ fuel Hl Hch); lia.
Qed.

Lemma X11_witness :
  run_commands commands_two_polygons (heap_of_caller 1%positive)
    = Ok tt heap_two_polygons /\
  is_Some (loops heap_two_polygons !! 1%positive) /\
  readLinkedCoords 8 (Some 1%positive) heap_two_polygons
    = Ok [pt 0 0; pt 1 0; pt 1 1] heap_two_polygons /\
  countLinkedCoords 8 (Some 1%positive) heap_two_polygons
    = Ok 3 heap_two_polygons.
Proof.
  assert (Hrun : run_commands commands_two_polygons
                   (heap_of_caller 1%positive) = Ok tt heap_two_polygons).
  { vm_compute. reflexivity. }
  assert (Ha : is_Some (loops heap_two_polygons !! 1%positive)).
  { eexists. reflexivity. }
  split; [exact Hrun|]. split; [exact Ha|].
  destruct (X11_loop_points_after_build 1%positive commands_two_polygons
              heap_two_polygons 1%positive 8 Hrun Ha)
    as (Hread & Hcount); [simpl; lia|].
  split; [exact Hread|]. apply Hcount. unfold INT_MAX. simpl. lia.
Defined.

(** ** Misuse: destroying twice, attaching a loop twice *)

(** X12: [destroyLinkedPolygon] does not reset the pointers of the polygon
    it leaves to the caller.  Unless the structure was that polygon alone
    with no loop, a second call follows one of them into released memory:
    undefined behaviour. *)
Theorem X12_destroyLinkedPolygon_twice_undefined (h : heap) (p : loc)
    (ls : list loop_desc) (st : list polygon_desc) (fuel : nat) :
  structure h (Some p) ((p, ls) :: st) ->
  (length (structure_polygons ((p, ls) :: st)) <= fuel)%nat ->
  (length (structure_loops ((p, ls) :: st)) <= fuel)%nat ->
  (length (structure_coords ((p, ls) :: st)) <= fuel)%nat ->
  ls <> [] \/ st <> [] ->
  (run destroyLinkedPolygon fuel (Some p) then
   destroyLinkedPolygon fuel (Some p)) h = Undef.
Proof.
  intros Hst Hfp Hfl Hfc Hmore.
  unfold structure_polygons in Hfp. rewrite length_fmap in Hfp.
  unfold destroyLinkedPolygon at 1.
  rewrite (bind_Ok _ _ _ _ _
             (destroyLinkedPolygon_for_structure fuel _ h (Some p) fuel true
                Hst Hfp Hfl Hfc)).
  destruct Hst as (Hch & Hall & _ & _).
  pose proof (chain_NoDup _ _ _ _ Hch) as Hnd.
  unfold structure_polygons in Hch, Hnd |- *. simpl in Hch, Hnd |- *.
  apply NoDup_cons in Hnd as [Hnotin _].
  destruct Hch as [_ (g & Hg & Hch)].
  apply Forall_cons in Hall as [(g' & Hg' & Hls & _) _].
  simpl in Hg'. rewrite Hg in Hg'. injection Hg' as <-.
  unfold polygon_loops in Hls. simpl in Hls.
  set (h1 := mkHeap _ _ _).
  assert (Hp1 : polygons h1 !! p = Some g).
  { unfold h1. simpl. rewrite lookup_delete_all.
    now rewrite decide_False. }
  unfold destroyLinkedPolygon.
  simpl in Hfp. destruct fuel as [|fuel]; [lia|].
  simpl destroyLinkedPolygon_for.
  rewrite (bind_Ok _ _ _ _ _ (load_polygon_Ok _ _ _ Hp1)).
  destruct ls as [|[a cs] ls].
  - destruct Hmore as [?|Hmore]; [congruence|].
    destruct st as [|[q lq] st]; [congruence|].
    simpl in Hls. rewrite Hls. simpl destroyLinkedPolygon_loops.
    erewrite bind_Ok; [|reflexivity].
    rewrite (bind_Ok _ _ _ _ _ (load_polygon_Ok _ _ _ Hp1)).
    erewrite bind_Ok; [|reflexivity].
    simpl in Hch. destruct Hch as [-> _].
    simpl in Hfp. destruct fuel as [|fuel]; [lia|].
    simpl. unfold bind, load_polygon.
    assert (Hq : polygons h1 !! q = None).
    { unfold h1. cbn [polygons]. rewrite lookup_delete_all.
      rewrite decide_True; [reflexivity | left]. }
    now rewrite Hq.
  - simpl in Hls. destruct Hls as [-> _].
    simpl destroyLinkedPolygon_loops.
    unfold bind at 1. unfold bind at 1. unfold destroyLinkedGeoLoop.
    unfold bind at 1. unfold load_loop.
    assert (Ha : loops h1 !! a = None).
    { unfold h1. cbn [loops]. rewrite lookup_delete_all.
      rewrite decide_True; [reflexivity|].
      apply elem_of_app. left. unfold polygon_loops. simpl. left. }
    now rewrite Ha.
Qed.

Lemma X12_witness :
  structure heap_two_polygons (Some 1%positive) desc_two_polygons /\
  (run destroyLinkedPolygon 4 (Some 1%positive) then
   destroyLinkedPolygon 4 (Some 1%positive)) heap_two_polygons = Undef.
Proof.
  split; [exact structure_two_polygons|].
  apply (X12_destroyLinkedPolygon_twice_undefined heap_two_polygons
           1%positive _ _ 4 structure_two_polygons);
    [simpl; lia | simpl; lia | simpl; lia | left; discriminate].
Defined.

Section ChainCycles.
Context {T : Type} (next : T -> ptr).

(** A node that is its own successor is on no chain that reaches NULL. *)
Lemma chain_no_self_loop (m : gmap loc T) p ls b x :
  m !! b = Some x -> next x = Some b -> chain next m p ls -> b ∉ ls.
Proof.
  intros Hb Hnext Hch Hin.
  apply list_elem_of_split in Hin as (l1 & l2 & ->).
  pose proof (chain_suffix _ _ _ _ _ _ Hch) as Hsuf.
  pose proof Hsuf as [_ (y & Hy & Htail)].
  rewrite Hb in Hy. injection Hy as <-. rewrite Hnext in Htail.
  pose proof (chain_functional _ _ _ _ _ Hsuf Htail) as E.
  apply (f_equal (@length loc)) in E. simpl in E. lia.
Qed.

(** Changing one node of a chain does not take it off the paths that start
    where the chain started. *)
Lemma chain_still_visits (m m' : gmap loc T) b ls :
  forall p ls',
    chain next m p ls -> b ∈ ls ->
    (forall a, a <> b -> m' !! a = m !! a) ->
    chain next m' p ls' -> b ∈ ls'.
Proof.
  induction ls as [|a ls IH]; intros p ls' Hch Hin Hsame Hch'.
  - now apply not_elem_of_nil in Hin.
  - destruct Hch as [-> (x & Hx & Hch)].
    destruct ls' as [|a' ls']; [discriminate Hch'|].
    destruct Hch' as [[= <-] (y & Hy & Hch')].
    destruct (decide (a = b)) as [->|Hne]; [left|]. right.
    apply elem_of_cons in Hin as [?|Hin]; [congruence|].
    rewrite (Hsame a Hne), Hx in Hy. injection Hy as <-.
    eapply IH; eassumption.
Qed.
End ChainCycles.

(** X13: attaching to a polygon the loop that is already its last loop
    completes, but links the loop to itself; from then on
    [countLinkedLoops] on the polygon never returns a count, whatever the
    number of iterations it is given. *)
Theorem X13_addLinkedLoop_last_again_cycles (h : heap) (p : loc)
    (ls : list loc) (b : loc) :
  polygon_holds h p ls -> last ls = Some b ->
  exists h' lb',
    addLinkedLoop (Some p) (Some b) h = Ok (Some b) h' /\
    loops h' !! b = Some lb' /\ lgl_next lb' = Some b /\
    forall fuel n h'', countLinkedLoops fuel (Some p) h' <> Ok n h''.
Proof.
  intros (g & Hp & Hch & Hlast) Hb. rewrite Hb in Hlast.
  assert (Hin : b ∈ ls) by now apply last_Some_elem_of.
  destruct (chain_allocated _ _ _ _ _ Hch Hin) as [lb Hlb].
  eexists. eexists.
  split; [apply (addLinkedLoop_next_Ok h p g b lb (Some b) Hp Hlast Hlb)|].
  simpl. split; [apply lookup_insert_eq|]. split; [reflexivity|].
  intros fuel n h'' Hrun. unfold countLinkedLoops in Hrun.
  erewrite bind_Ok in Hrun; [|apply load_polygon_Ok; apply lookup_insert_eq].
  simpl in Hrun.
  apply countLinkedLoops_while_sound in Hrun as (ls' & Hch' & _).
  simpl in Hch'.
  assert (Hvisit : b ∈ ls').
  { eapply (chain_still_visits lgl_next (loops h)); try eassumption.
    intros a Ha. apply lookup_insert_ne. congruence. }
  eapply (chain_no_self_loop lgl_next); [| |exact Hch'|exact Hvisit].
  - apply lookup_insert_eq.
  - reflexivity.
Qed.

Lemma X13_witness :
  polygon_holds heap_one 1%positive [1%positive] /\
  exists h' lb',
    addLinkedLoop (Some 1%positive) (Some 1%positive) heap_one
      = Ok (Some 1%positive) h' /\
    loops h' !! 1%positive = Some lb' /\
    lgl_next lb' = Some 1%positive /\
    forall fuel n h'', countLinkedLoops fuel (Some 1%positive) h' <> Ok n h''.
Proof.
  assert (Hholds : polygon_holds heap_one 1%positive [1%positive]).
  { eexists. split; [reflexivity|]. simpl. split; [|reflexivity].
    split; [reflexivity|]. eexists. split; reflexivity. }
  split; [exact Hholds|].
  exact (X13_addLinkedLoop_last_again_cycles heap_one 1%positive
           [1%positive] 1%positive Hholds eq_refl).
Defined.

(** X14: on a well-formed structure [addNewLinkedPolygon] completes, with
    a new polygon, exactly on the tail of the polygon chain, and its
    assertion fails exactly on the polygons that are not the tail: a
    polygon can only be added after the last one. *)
Theorem X14_addNewLinkedPolygon_asserts_off_tail (h : heap) (p : ptr)
    (L : layout) (q : loc) :
  built h p L -> q ∈ lay_polygons L ->
  (last (lay_polygons L) = Some q ->
   exists r h',
     addNewLinkedPolygon (Some q) h = Ok (Some r) h' /\
     polygons h !! r = None) /\
  (last (lay_polygons L) <> Some q ->
   addNewLinkedPolygon (Some q) h = AssertFail) /\
  (addNewLinkedPolygon (Some q) h = AssertFail <->
   last (lay_polygons L) <> Some q).
Proof.
  intros Hbuilt Hq. pose proof Hbuilt as (Hchain & _).
  destruct (chain_allocated _ _ _ _ _ Hchain Hq) as [g Hg].
  assert (Hcompletes : last (lay_polygons L) = Some q ->
            exists r h',
              addNewLinkedPolygon (Some q) h = Ok (Some r) h' /\
              polygons h !! r = None).
  { intros Hlast.
    destruct (addNewLinkedPolygon_built h p L q Hbuilt Hlast)
      as (r & h' & Hrun & Hfresh & _).
    exists r, h'. auto. }
  assert (Hfails : last (lay_polygons L) <> Some q ->
            addNewLinkedPolygon (Some q) h = AssertFail).
  { intros Hlast. apply (addNewLinkedPolygon_AssertFail h q g Hg).
    intros Hnext. apply Hlast.
    exact (chain_next_None_last _ _ _ _ _ _ Hchain Hq Hg Hnext). }
  split; [exact Hcompletes|]. split; [exact Hfails|]. split.
  - intros Hfail Hlast.
    destruct (Hcompletes Hlast) as (r & h' & Hrun & _).
    rewrite Hfail in Hrun. discriminate.
  - exact Hfails.
Qed.

Lemma built_two_bare :
  built heap_two_bare (Some 1%positive)
        (layout_add_polygon 2%positive (layout_of_caller 1%positive)).
Proof.
  destruct (caller_built 1%positive) as (Hbuilt & _).
  destruct (addNewLinkedPolygon_built _ _ _ 1%positive Hbuilt eq_refl)
    as (r & h' & Hrun & _ & Hbuilt' & _).
  assert (E : addNewLinkedPolygon (Some 1%positive)
                (heap_of_caller 1%positive)
              = Ok (Some 2%positive) heap_two_bare).
  { vm_compute. reflexivity. }
  rewrite E in Hrun. injection Hrun as <- <-. exact Hbuilt'.
Defined.

Lemma X14_witness :
  built heap_two_bare (Some 1%positive)
        (layout_add_polygon 2%positive (layout_of_caller 1%positive)) /\
  last (lay_polygons
          (layout_add_polygon 2%positive (layout_of_caller 1%positive)))
    = Some 2%positive /\
  addNewLinkedPolygon (Some 1%positive) heap_two_bare = AssertFail /\
  exists r h',
    addNewLinkedPolygon (Some 2%positive) heap_two_bare = Ok (Some r) h' /\
    polygons heap_two_bare !! r = None.
Proof.
  split; [exact built_two_bare|]. split; [reflexivity|]. split.
  - destruct (X14_addNewLinkedPolygon_asserts_off_tail heap_two_bare
                (Some 1%positive) _ 1%positive built_two_bare)
      as (_ & Hfails & _); [left|].
    apply Hfails. discriminate.
  - destruct (X14_addNewLinkedPolygon_asserts_off_tail heap_two_bare
                (Some 1%positive) _ 2%positive built_two_bare)
      as (Hcompletes & _); [right; left|].
    exact (Hcompletes eq_refl).
Defined.
